(** * swaylock: the lock-screen control flow of [main.c] and [render.c]

    A shallow embedding of the parts of swaylock that decide what the
    process does with a verdict of the credential worker, with the session
    lock, with its command line, with the [SIGUSR1] wake pipe, and of the
    image selection and the indicator gate of the renderer.

    Conventions.
    - C strings are [string]s (no NUL inside); a [char *] that may be [NULL]
      is an [option string].
    - [uint32_t] values are [Z]s in [0, 2^32) and [int] values are [Z]s
      in [INT_MIN, INT_MAX], with the wrap-around of the arithmetic, the
      shifts and the casts written out.
    - [malloc], [calloc], [strdup] and [realloc] are taken to return the
      memory they are asked for, but for a request beyond [PTRDIFF_MAX].
    - Everything outside the process (the compositor, the worker, the
      command line, the signal) is an input of the model: a script of what
      each external call returns. *)

From Stdlib Require Import ZArith List Bool String Ascii Lia.
Import ListNotations.
Open Scope string_scope.
Open Scope list_scope.
Open Scope Z_scope.

Set Implicit Arguments.

(* ===================================================================== *)
(** ** C strings *)
(* ===================================================================== *)

Definition uchar (c : ascii) : Z := Z.of_N (N_of_ascii c).

(** [strcmp]: the sign of the difference of the first two bytes that differ,
    compared as [unsigned char]. C leaves the magnitude open; only the sign
    is used by the callers. *)
Fixpoint strcmp (a b : string) : Z :=
  match a, b with
  | EmptyString, EmptyString => 0
  | EmptyString, String _ _ => -1
  | String _ _, EmptyString => 1
  | String c a', String d b' =>
      if uchar c =? uchar d then strcmp a' b'
      else if uchar c <? uchar d then -1 else 1
  end.

(** [int lenient_strcmp(char *a, char *b)] (main.c:48). Two equal non-NULL
    pointers point to the same bytes, for which [strcmp] is [0] as well, so
    the pointer test [a == b] only adds the case of two [NULL]s. *)
Definition lenient_strcmp (a b : option string) : Z :=
  match a, b with
  | None, None => 0
  | None, Some _ => -1
  | Some _, None => 1
  | Some a, Some b => strcmp a b
  end.

(* ===================================================================== *)
(** ** Images and their selection *)
(* ===================================================================== *)

(** A [cairo_surface_t *] that is not [NULL]: [load_image] (main.c:381-386)
    links an image into [state->images] only when its surface was loaded. *)
Definition cairo_surface_t := positive.

Record swaylock_image := mk_image {
  image_path : string;
  image_output_name : option string;
  image_cairo_surface : cairo_surface_t
}.

(** The body of the [wl_list_for_each] of [select_image] (main.c:304-310),
    with the local [default_image] as accumulator. *)
Fixpoint select_image_loop (images : list swaylock_image)
    (surface_output_name : option string)
    (default_image : option cairo_surface_t) : option cairo_surface_t :=
  match images with
  | [] => default_image
  | image :: images' =>
      if lenient_strcmp (image_output_name image) surface_output_name =? 0
      then Some (image_cairo_surface image)
      else match image_output_name image with
           | None =>
               select_image_loop images' surface_output_name
                 (Some (image_cairo_surface image))
           | Some _ =>
               select_image_loop images' surface_output_name default_image
           end
  end.

(** [select_image] (main.c:301): [None] is the [NULL] result. *)
Definition select_image (images : list swaylock_image)
    (surface_output_name : option string) : option cairo_surface_t :=
  select_image_loop images surface_output_name None.

(** The lookup as the design note words it: the entry whose key is the
    output's name wins, an entry without a key is the fallback. *)
Definition key_is (name : string) (image : swaylock_image) : bool :=
  match image_output_name image with
  | Some k => String.eqb k name
  | None => false
  end.

Definition is_default (image : swaylock_image) : bool :=
  match image_output_name image with
  | Some _ => false
  | None => true
  end.

Definition lookup_with_precedence (images : list swaylock_image)
    (name : string) : option cairo_surface_t :=
  match find (key_is name) images with
  | Some exact => Some (image_cairo_surface exact)
  | None =>
      match find is_default (rev images) with
      | Some fallback => Some (image_cairo_surface fallback)
      | None => None
      end
  end.

(* ===================================================================== *)
(** ** Numbers of the C library *)
(* ===================================================================== *)

(** The cast [(uint32_t)] and a left shift in [uint32_t]. *)
Definition to_uint32 (z : Z) : Z := z mod 2 ^ 32.

Definition shl_uint32 (z n : Z) : Z := to_uint32 (Z.shiftl z n).

(** [unsigned long] of the LP64 platforms swaylock runs on. *)
Definition ULONG_MAX : Z := 2 ^ 64 - 1.

Definition INT_MAX : Z := 2 ^ 31 - 1.

Definition INT_MIN : Z := - 2 ^ 31.

Definition PTRDIFF_MAX : Z := 2 ^ 63 - 1.

(** The conversion to [int]: the value modulo [2^32] that lies in
    [INT_MIN .. INT_MAX]. *)
Definition to_int (z : Z) : Z := (z + 2 ^ 31) mod 2 ^ 32 - 2 ^ 31.

(** The conversion to [size_t]. *)
Definition to_size_t (z : Z) : Z := z mod 2 ^ 64.

(** Arithmetic in [int]. A sum, difference or product that does not fit
    is undefined in C; the embedding gives it the wrap-around of the
    machine, which is also what C defines when one operand is a [uint32_t]
    and the result is stored in an [int]. *)
Definition int_add (a b : Z) : Z := to_int (a + b).

Definition int_sub (a b : Z) : Z := to_int (a - b).

Definition int_mul (a b : Z) : Z := to_int (a * b).

(** [a / b] and [a % b] in [int] truncate towards zero. *)
Definition int_div (a b : Z) : Z := to_int (Z.quot a b).

Definition int_rem (a b : Z) : Z := Z.rem a b.

(** The divisions [a / b] and [a % b] that do not return: the divisor is
    [0], or the quotient [INT_MIN / -1] does not fit. *)
Definition division_traps (a b : Z) : bool :=
  (b =? 0) || ((a =? INT_MIN) && (b =? -1)).

Definition isspace (c : ascii) : bool :=
  let n := uchar c in
  (n =? 32) || ((9 <=? n) && (n <=? 13)).

Definition hex_digit (c : ascii) : option Z :=
  let n := uchar c in
  if (48 <=? n) && (n <=? 57) then Some (n - 48)
  else if (97 <=? n) && (n <=? 102) then Some (n - 87)
  else if (65 <=? n) && (n <=? 70) then Some (n - 55)
  else None.

Fixpoint skip_spaces (s : string) : string :=
  match s with
  | String c s' => if isspace c then skip_spaces s' else s
  | EmptyString => s
  end.

(** The digits of the subject sequence, most significant first; the scan
    stops at the first byte that is not a hexadecimal digit. *)
Fixpoint hex_digits (s : string) (acc : Z) : Z :=
  match s with
  | String c s' =>
      match hex_digit c with
      | Some d => hex_digits s' (acc * 16 + d)
      | None => acc
      end
  | EmptyString => acc
  end.

(** An optional ["0x"] or ["0X"] belongs to the number only when a digit
    follows it. *)
Definition skip_hex_prefix (s : string) : string :=
  match s with
  | String "0" (String x (String d s')) =>
      if ((uchar x =? 120) || (uchar x =? 88)) &&
         match hex_digit d with Some _ => true | None => false end
      then String d s' else s
  | _ => s
  end.

(** [strtoul(s, NULL, 16)]: white space, an optional sign, an optional
    prefix, digits; a value that does not fit is [ULONG_MAX], a minus sign
    negates in [unsigned long]; no digits give [0]. *)
Definition strtoul16 (s : string) : Z :=
  let s := skip_spaces s in
  let '(negative, s) :=
    match s with
    | String "-" s' => (true, s')
    | String "+" s' => (false, s')
    | _ => (false, s)
    end in
  let v := hex_digits (skip_hex_prefix s) 0 in
  if v >? ULONG_MAX then ULONG_MAX
  else if negative then (- v) mod (ULONG_MAX + 1) else v.

Definition strlen (s : string) : Z := Z.of_nat (String.length s).

(* ===================================================================== *)
(** ** The state of the lock screen ([swaylock.h]) *)
(* ===================================================================== *)

(** Modelled from the spec: [swaylock.h] is not among the sources; the
    enumerations and the fields below are the ones [main.c] and [render.c]
    name, with the types the data model of the spec gives them. A numeric
    field holds the value that was assigned to it; the expressions of
    [render.c] that read it convert to the type of their result, which
    [render.c] declares. *)
Inductive auth_state_t :=
  | AUTH_STATE_IDLE
  | AUTH_STATE_VALIDATING
  | AUTH_STATE_INVALID.

Inductive input_state_t :=
  | INPUT_STATE_IDLE
  | INPUT_STATE_LETTER
  | INPUT_STATE_BACKSPACE
  | INPUT_STATE_CLEAR.

(** [enum background_mode] of [background-image.h], as the usage text of
    [parse_options] lists the modes. *)
Inductive background_mode :=
  | BACKGROUND_MODE_STRETCH
  | BACKGROUND_MODE_FILL
  | BACKGROUND_MODE_FIT
  | BACKGROUND_MODE_CENTER
  | BACKGROUND_MODE_TILE
  | BACKGROUND_MODE_SOLID_COLOR
  | BACKGROUND_MODE_INVALID.

Definition auth_state_eqb (a b : auth_state_t) : bool :=
  match a, b with
  | AUTH_STATE_IDLE, AUTH_STATE_IDLE
  | AUTH_STATE_VALIDATING, AUTH_STATE_VALIDATING
  | AUTH_STATE_INVALID, AUTH_STATE_INVALID => true
  | _, _ => false
  end.

Definition input_state_eqb (a b : input_state_t) : bool :=
  match a, b with
  | INPUT_STATE_IDLE, INPUT_STATE_IDLE
  | INPUT_STATE_LETTER, INPUT_STATE_LETTER
  | INPUT_STATE_BACKSPACE, INPUT_STATE_BACKSPACE
  | INPUT_STATE_CLEAR, INPUT_STATE_CLEAR => true
  | _, _ => false
  end.

Definition background_mode_eqb (a b : background_mode) : bool :=
  match a, b with
  | BACKGROUND_MODE_STRETCH, BACKGROUND_MODE_STRETCH
  | BACKGROUND_MODE_FILL, BACKGROUND_MODE_FILL
  | BACKGROUND_MODE_FIT, BACKGROUND_MODE_FIT
  | BACKGROUND_MODE_CENTER, BACKGROUND_MODE_CENTER
  | BACKGROUND_MODE_TILE, BACKGROUND_MODE_TILE
  | BACKGROUND_MODE_SOLID_COLOR, BACKGROUND_MODE_SOLID_COLOR
  | BACKGROUND_MODE_INVALID, BACKGROUND_MODE_INVALID => true
  | _, _ => false
  end.

Record swaylock_colors := mk_colors {
  background : Z;
  text : Z;
  highlight_bs : Z;
  highlight_key : Z;
  ring : Z;
  highlight_clear : Z;
  highlight_ver : Z;
  highlight_wrong : Z
}.

Record swaylock_args := mk_args {
  colors : swaylock_colors;
  mode : background_mode;
  font : string;
  font_size : Z;
  radius : Z;
  thickness : Z;
  indicator_x_position : Z;
  indicator_y_position : Z;
  ignore_empty : bool;
  show_indicator : bool;
  indicator_idle_visible : bool;
  clock : bool;
  timestr : string;
  datestr : string
}.

(** Field updates: [set_f v r] is [r] after the assignment [r.f = v]. *)
Definition set_background (v : Z) (r : swaylock_colors) : swaylock_colors :=
  mk_colors v (text r) (highlight_bs r) (highlight_key r) (ring r) (highlight_clear r) (highlight_ver r) (highlight_wrong r).

Definition set_text (v : Z) (r : swaylock_colors) : swaylock_colors :=
  mk_colors (background r) v (highlight_bs r) (highlight_key r) (ring r) (highlight_clear r) (highlight_ver r) (highlight_wrong r).

Definition set_highlight_bs (v : Z) (r : swaylock_colors) : swaylock_colors :=
  mk_colors (background r) (text r) v (highlight_key r) (ring r) (highlight_clear r) (highlight_ver r) (highlight_wrong r).

Definition set_highlight_key (v : Z) (r : swaylock_colors) : swaylock_colors :=
  mk_colors (background r) (text r) (highlight_bs r) v (ring r) (highlight_clear r) (highlight_ver r) (highlight_wrong r).

Definition set_ring (v : Z) (r : swaylock_colors) : swaylock_colors :=
  mk_colors (background r) (text r) (highlight_bs r) (highlight_key r) v (highlight_clear r) (highlight_ver r) (highlight_wrong r).

Definition set_highlight_clear (v : Z) (r : swaylock_colors) : swaylock_colors :=
  mk_colors (background r) (text r) (highlight_bs r) (highlight_key r) (ring r) v (highlight_ver r) (highlight_wrong r).

Definition set_highlight_ver (v : Z) (r : swaylock_colors) : swaylock_colors :=
  mk_colors (background r) (text r) (highlight_bs r) (highlight_key r) (ring r) (highlight_clear r) v (highlight_wrong r).

Definition set_highlight_wrong (v : Z) (r : swaylock_colors) : swaylock_colors :=
  mk_colors (background r) (text r) (highlight_bs r) (highlight_key r) (ring r) (highlight_clear r) (highlight_ver r) v.

Definition set_colors (v : swaylock_colors) (r : swaylock_args) : swaylock_args :=
  mk_args v (mode r) (font r) (font_size r) (radius r) (thickness r) (indicator_x_position r) (indicator_y_position r) (ignore_empty r) (show_indicator r) (indicator_idle_visible r) (clock r) (timestr r) (datestr r).

Definition set_mode (v : background_mode) (r : swaylock_args) : swaylock_args :=
  mk_args (colors r) v (font r) (font_size r) (radius r) (thickness r) (indicator_x_position r) (indicator_y_position r) (ignore_empty r) (show_indicator r) (indicator_idle_visible r) (clock r) (timestr r) (datestr r).

Definition set_font (v : string) (r : swaylock_args) : swaylock_args :=
  mk_args (colors r) (mode r) v (font_size r) (radius r) (thickness r) (indicator_x_position r) (indicator_y_position r) (ignore_empty r) (show_indicator r) (indicator_idle_visible r) (clock r) (timestr r) (datestr r).

Definition set_font_size (v : Z) (r : swaylock_args) : swaylock_args :=
  mk_args (colors r) (mode r) (font r) v (radius r) (thickness r) (indicator_x_position r) (indicator_y_position r) (ignore_empty r) (show_indicator r) (indicator_idle_visible r) (clock r) (timestr r) (datestr r).

Definition set_radius (v : Z) (r : swaylock_args) : swaylock_args :=
  mk_args (colors r) (mode r) (font r) (font_size r) v (thickness r) (indicator_x_position r) (indicator_y_position r) (ignore_empty r) (show_indicator r) (indicator_idle_visible r) (clock r) (timestr r) (datestr r).

Definition set_thickness (v : Z) (r : swaylock_args) : swaylock_args :=
  mk_args (colors r) (mode r) (font r) (font_size r) (radius r) v (indicator_x_position r) (indicator_y_position r) (ignore_empty r) (show_indicator r) (indicator_idle_visible r) (clock r) (timestr r) (datestr r).

Definition set_indicator_x_position (v : Z) (r : swaylock_args) : swaylock_args :=
  mk_args (colors r) (mode r) (font r) (font_size r) (radius r) (thickness r) v (indicator_y_position r) (ignore_empty r) (show_indicator r) (indicator_idle_visible r) (clock r) (timestr r) (datestr r).

Definition set_indicator_y_position (v : Z) (r : swaylock_args) : swaylock_args :=
  mk_args (colors r) (mode r) (font r) (font_size r) (radius r) (thickness r) (indicator_x_position r) v (ignore_empty r) (show_indicator r) (indicator_idle_visible r) (clock r) (timestr r) (datestr r).

Definition set_ignore_empty (v : bool) (r : swaylock_args) : swaylock_args :=
  mk_args (colors r) (mode r) (font r) (font_size r) (radius r) (thickness r) (indicator_x_position r) (indicator_y_position r) v (show_indicator r) (indicator_idle_visible r) (clock r) (timestr r) (datestr r).

Definition set_show_indicator (v : bool) (r : swaylock_args) : swaylock_args :=
  mk_args (colors r) (mode r) (font r) (font_size r) (radius r) (thickness r) (indicator_x_position r) (indicator_y_position r) (ignore_empty r) v (indicator_idle_visible r) (clock r) (timestr r) (datestr r).

Definition set_indicator_idle_visible (v : bool) (r : swaylock_args) : swaylock_args :=
  mk_args (colors r) (mode r) (font r) (font_size r) (radius r) (thickness r) (indicator_x_position r) (indicator_y_position r) (ignore_empty r) (show_indicator r) v (clock r) (timestr r) (datestr r).

Definition set_clock (v : bool) (r : swaylock_args) : swaylock_args :=
  mk_args (colors r) (mode r) (font r) (font_size r) (radius r) (thickness r) (indicator_x_position r) (indicator_y_position r) (ignore_empty r) (show_indicator r) (indicator_idle_visible r) v (timestr r) (datestr r).

Definition set_timestr (v : string) (r : swaylock_args) : swaylock_args :=
  mk_args (colors r) (mode r) (font r) (font_size r) (radius r) (thickness r) (indicator_x_position r) (indicator_y_position r) (ignore_empty r) (show_indicator r) (indicator_idle_visible r) (clock r) v (datestr r).

Definition set_datestr (v : string) (r : swaylock_args) : swaylock_args :=
  mk_args (colors r) (mode r) (font r) (font_size r) (radius r) (thickness r) (indicator_x_position r) (indicator_y_position r) (ignore_empty r) (show_indicator r) (indicator_idle_visible r) (clock r) (timestr r) v.

(** [struct swaylock_password]: [buffer] is [None] for [NULL]; when the
    buffer exists it holds the [len] bytes typed so far (the bytes of the
    allocation beyond [len] carry no information). *)
Record swaylock_password := mk_password {
  len : Z;
  buffer_len : Z;
  buffer : option string
}.

(** [struct swaylock_surface]: one per output; [output_global_name] is the
    registry name of its [wl_output], which identifies it in the events.
    [width] and [height] are the [uint32_t] of the configure event
    (main.c:126), [scale] is the [int32_t] of the scale event (main.c:211);
    [last_buffer_width] and [last_buffer_height] are compared with an [int]
    (render.c:34). *)
Record swaylock_surface := mk_surface {
  output_global_name : Z;
  output_name : option string;
  width : Z;
  height : Z;
  scale : Z;
  subpixel : Z;
  dirty : bool;
  frame_pending : bool;
  created : bool;
  image : option cairo_surface_t;
  last_buffer_width : Z;
  last_buffer_height : Z
}.

Definition set_output_name (v : option string) (r : swaylock_surface) : swaylock_surface :=
  mk_surface (output_global_name r) v (width r) (height r) (scale r) (subpixel r) (dirty r) (frame_pending r) (created r) (image r) (last_buffer_width r) (last_buffer_height r).

Definition set_width (v : Z) (r : swaylock_surface) : swaylock_surface :=
  mk_surface (output_global_name r) (output_name r) v (height r) (scale r) (subpixel r) (dirty r) (frame_pending r) (created r) (image r) (last_buffer_width r) (last_buffer_height r).

Definition set_height (v : Z) (r : swaylock_surface) : swaylock_surface :=
  mk_surface (output_global_name r) (output_name r) (width r) v (scale r) (subpixel r) (dirty r) (frame_pending r) (created r) (image r) (last_buffer_width r) (last_buffer_height r).

Definition set_scale (v : Z) (r : swaylock_surface) : swaylock_surface :=
  mk_surface (output_global_name r) (output_name r) (width r) (height r) v (subpixel r) (dirty r) (frame_pending r) (created r) (image r) (last_buffer_width r) (last_buffer_height r).

Definition set_subpixel (v : Z) (r : swaylock_surface) : swaylock_surface :=
  mk_surface (output_global_name r) (output_name r) (width r) (height r) (scale r) v (dirty r) (frame_pending r) (created r) (image r) (last_buffer_width r) (last_buffer_height r).

Definition set_dirty (v : bool) (r : swaylock_surface) : swaylock_surface :=
  mk_surface (output_global_name r) (output_name r) (width r) (height r) (scale r) (subpixel r) v (frame_pending r) (created r) (image r) (last_buffer_width r) (last_buffer_height r).

Definition set_frame_pending (v : bool) (r : swaylock_surface) : swaylock_surface :=
  mk_surface (output_global_name r) (output_name r) (width r) (height r) (scale r) (subpixel r) (dirty r) v (created r) (image r) (last_buffer_width r) (last_buffer_height r).

Definition set_created (v : bool) (r : swaylock_surface) : swaylock_surface :=
  mk_surface (output_global_name r) (output_name r) (width r) (height r) (scale r) (subpixel r) (dirty r) (frame_pending r) v (image r) (last_buffer_width r) (last_buffer_height r).

Definition set_image (v : option cairo_surface_t) (r : swaylock_surface) : swaylock_surface :=
  mk_surface (output_global_name r) (output_name r) (width r) (height r) (scale r) (subpixel r) (dirty r) (frame_pending r) (created r) v (last_buffer_width r) (last_buffer_height r).

(** [struct swaylock_state]: the pointers to the bound globals are [bool]s
    (bound or [NULL]); [ext_session_lock_v1] tells whether the lock object
    exists (libwayland delivers the events of an object from its creation
    to its destruction); [auth_idle_timer] tells whether the timer of
    [schedule_auth_idle] is armed. [failed_attempts] is the [uint] of the
    data model of the spec (section 3): an [unsigned int] of 32 bits, which
    the increment takes from its maximum to [0]. *)
Record swaylock_state := mk_state {
  args : swaylock_args;
  images : list swaylock_image;
  surfaces : list swaylock_surface;
  password : swaylock_password;
  auth_state : auth_state_t;
  input_state : input_state_t;
  highlight_start : Z;
  failed_attempts : Z;
  run_display : bool;
  locked : bool;
  compositor : bool;
  subcompositor : bool;
  shm : bool;
  ext_session_lock_manager_v1 : bool;
  ext_session_lock_v1 : bool;
  auth_idle_timer : bool
}.

Definition set_args (v : swaylock_args) (r : swaylock_state) : swaylock_state :=
  mk_state v (images r) (surfaces r) (password r) (auth_state r) (input_state r) (highlight_start r) (failed_attempts r) (run_display r) (locked r) (compositor r) (subcompositor r) (shm r) (ext_session_lock_manager_v1 r) (ext_session_lock_v1 r) (auth_idle_timer r).

Definition set_images (v : list swaylock_image) (r : swaylock_state) : swaylock_state :=
  mk_state (args r) v (surfaces r) (password r) (auth_state r) (input_state r) (highlight_start r) (failed_attempts r) (run_display r) (locked r) (compositor r) (subcompositor r) (shm r) (ext_session_lock_manager_v1 r) (ext_session_lock_v1 r) (auth_idle_timer r).

Definition set_surfaces (v : list swaylock_surface) (r : swaylock_state) : swaylock_state :=
  mk_state (args r) (images r) v (password r) (auth_state r) (input_state r) (highlight_start r) (failed_attempts r) (run_display r) (locked r) (compositor r) (subcompositor r) (shm r) (ext_session_lock_manager_v1 r) (ext_session_lock_v1 r) (auth_idle_timer r).

Definition set_password (v : swaylock_password) (r : swaylock_state) : swaylock_state :=
  mk_state (args r) (images r) (surfaces r) v (auth_state r) (input_state r) (highlight_start r) (failed_attempts r) (run_display r) (locked r) (compositor r) (subcompositor r) (shm r) (ext_session_lock_manager_v1 r) (ext_session_lock_v1 r) (auth_idle_timer r).

Definition set_auth_state (v : auth_state_t) (r : swaylock_state) : swaylock_state :=
  mk_state (args r) (images r) (surfaces r) (password r) v (input_state r) (highlight_start r) (failed_attempts r) (run_display r) (locked r) (compositor r) (subcompositor r) (shm r) (ext_session_lock_manager_v1 r) (ext_session_lock_v1 r) (auth_idle_timer r).

Definition set_input_state (v : input_state_t) (r : swaylock_state) : swaylock_state :=
  mk_state (args r) (images r) (surfaces r) (password r) (auth_state r) v (highlight_start r) (failed_attempts r) (run_display r) (locked r) (compositor r) (subcompositor r) (shm r) (ext_session_lock_manager_v1 r) (ext_session_lock_v1 r) (auth_idle_timer r).

Definition set_highlight_start (v : Z) (r : swaylock_state) : swaylock_state :=
  mk_state (args r) (images r) (surfaces r) (password r) (auth_state r) (input_state r) v (failed_attempts r) (run_display r) (locked r) (compositor r) (subcompositor r) (shm r) (ext_session_lock_manager_v1 r) (ext_session_lock_v1 r) (auth_idle_timer r).

Definition set_failed_attempts (v : Z) (r : swaylock_state) : swaylock_state :=
  mk_state (args r) (images r) (surfaces r) (password r) (auth_state r) (input_state r) (highlight_start r) v (run_display r) (locked r) (compositor r) (subcompositor r) (shm r) (ext_session_lock_manager_v1 r) (ext_session_lock_v1 r) (auth_idle_timer r).

Definition set_run_display (v : bool) (r : swaylock_state) : swaylock_state :=
  mk_state (args r) (images r) (surfaces r) (password r) (auth_state r) (input_state r) (highlight_start r) (failed_attempts r) v (locked r) (compositor r) (subcompositor r) (shm r) (ext_session_lock_manager_v1 r) (ext_session_lock_v1 r) (auth_idle_timer r).

Definition set_locked (v : bool) (r : swaylock_state) : swaylock_state :=
  mk_state (args r) (images r) (surfaces r) (password r) (auth_state r) (input_state r) (highlight_start r) (failed_attempts r) (run_display r) v (compositor r) (subcompositor r) (shm r) (ext_session_lock_manager_v1 r) (ext_session_lock_v1 r) (auth_idle_timer r).

Definition set_compositor (v : bool) (r : swaylock_state) : swaylock_state :=
  mk_state (args r) (images r) (surfaces r) (password r) (auth_state r) (input_state r) (highlight_start r) (failed_attempts r) (run_display r) (locked r) v (subcompositor r) (shm r) (ext_session_lock_manager_v1 r) (ext_session_lock_v1 r) (auth_idle_timer r).

Definition set_subcompositor (v : bool) (r : swaylock_state) : swaylock_state :=
  mk_state (args r) (images r) (surfaces r) (password r) (auth_state r) (input_state r) (highlight_start r) (failed_attempts r) (run_display r) (locked r) (compositor r) v (shm r) (ext_session_lock_manager_v1 r) (ext_session_lock_v1 r) (auth_idle_timer r).

Definition set_shm (v : bool) (r : swaylock_state) : swaylock_state :=
  mk_state (args r) (images r) (surfaces r) (password r) (auth_state r) (input_state r) (highlight_start r) (failed_attempts r) (run_display r) (locked r) (compositor r) (subcompositor r) v (ext_session_lock_manager_v1 r) (ext_session_lock_v1 r) (auth_idle_timer r).

Definition set_ext_session_lock_manager_v1 (v : bool) (r : swaylock_state) : swaylock_state :=
  mk_state (args r) (images r) (surfaces r) (password r) (auth_state r) (input_state r) (highlight_start r) (failed_attempts r) (run_display r) (locked r) (compositor r) (subcompositor r) (shm r) v (ext_session_lock_v1 r) (auth_idle_timer r).

Definition set_ext_session_lock_v1 (v : bool) (r : swaylock_state) : swaylock_state :=
  mk_state (args r) (images r) (surfaces r) (password r) (auth_state r) (input_state r) (highlight_start r) (failed_attempts r) (run_display r) (locked r) (compositor r) (subcompositor r) (shm r) (ext_session_lock_manager_v1 r) v (auth_idle_timer r).

Definition set_auth_idle_timer (v : bool) (r : swaylock_state) : swaylock_state :=
  mk_state (args r) (images r) (surfaces r) (password r) (auth_state r) (input_state r) (highlight_start r) (failed_attempts r) (run_display r) (locked r) (compositor r) (subcompositor r) (shm r) (ext_session_lock_manager_v1 r) (ext_session_lock_v1 r) v.

(* ===================================================================== *)
(** ** The process and what it does to the outside *)
(* ===================================================================== *)

Inductive log_importance := LOG_ERROR | LOG_INFO | LOG_DEBUG.

(** The three callbacks [main] registers with [loop_add_fd], and the timer
    callback of [schedule_auth_idle]. *)
Inductive callback :=
  | CB_display_in
  | CB_comm_in
  | CB_term_in
  | CB_set_auth_idle.

(** The calls of [main.c] into the C library, libwayland and the other
    translation units, in the order they are made. Requests on a surface
    carry the registry name of its output; [ReadCommReply] carries the
    value [read_comm_reply] returned. *)
Inductive call :=
  | SwaylockLog (importance : log_importance) (message : string)
  | PrintUsage
  | PrintVersion
  | SwaylockLogInit
  | InitializePwBackend
  | PasswordBufferCreate (size : Z)
  | Pipe
  | FcntlNonblock
  | WlDisplayConnect
  | WlDisplayRoundtrip
  | WlDisplayDispatch
  | WlDisplayFlush
  | ExtSessionLockManagerLock
  | ExtSessionLockUnlockAndDestroy
  | LoopAddFd (cb : callback)
  | Sigaction
  | LoopPoll
  | Invoke (cb : callback)
  | ReadCommReply (ok : bool)
  | WriteCommRequest (secret : string)
  | GetLockSurface (output : Z)
  | AckConfigure (output : Z) (serial : Z)
  | RenderFrameBackground (output : Z)
  | RenderFrame (output : Z)
  | WlSurfaceFrame (output : Z)
  | WlSurfaceCommit (output : Z)
  | DestroySurface (output : Z).

(** The pipe behind [sigusr_fds]: the bytes written and not yet read. *)
Record pipe := mk_pipe {
  pipe_bytes : string;
  pipe_capacity : Z;
  write_end_nonblock : bool
}.

(** The process: the global [state], the global [sigusr_fds] ([None] while
    it is [{-1, -1}]), the disposition of [SIGUSR1], the descriptors
    registered with the event loop in the order of registration, the calls
    made so far, and whether the display of libwayland holds an error (a
    dispatch or a round trip has returned [-1]). *)
Record process := mk_process {
  state : swaylock_state;
  sigusr_fds : option pipe;
  sigusr_handler : bool;
  eventloop : list callback;
  trace : list call;
  display_error : bool
}.

Definition set_state (v : swaylock_state) (p : process) : process :=
  mk_process v (sigusr_fds p) (sigusr_handler p) (eventloop p) (trace p) (display_error p).

Definition set_sigusr_fds (v : option pipe) (p : process) : process :=
  mk_process (state p) v (sigusr_handler p) (eventloop p) (trace p) (display_error p).

Definition set_sigusr_handler (v : bool) (p : process) : process :=
  mk_process (state p) (sigusr_fds p) v (eventloop p) (trace p) (display_error p).

Definition set_eventloop (v : list callback) (p : process) : process :=
  mk_process (state p) (sigusr_fds p) (sigusr_handler p) v (trace p) (display_error p).

Definition set_trace (v : list call) (p : process) : process :=
  mk_process (state p) (sigusr_fds p) (sigusr_handler p) (eventloop p) v (display_error p).

Definition set_display_error (v : bool) (p : process) : process :=
  mk_process (state p) (sigusr_fds p) (sigusr_handler p) (eventloop p) (trace p) v.

(** The signals that kill the process from inside its own code: [SIGABRT]
    when an [assert] fails, [SIGFPE] when an integer division traps (a
    divisor of [0], or [INT_MIN] divided by [-1]), [SIGSEGV] for a store
    outside the block that [malloc] returned. C leaves the behaviour of the
    last two undefined; the embedding ends the process where the processors
    swaylock is built for trap, and at the first store outside a block. *)
Inductive signal := SIGABRT | SIGFPE | SIGSEGV.

(** How a piece of code ends: it returns a value, it calls [exit], the
    process is killed by a signal, or it sits in a blocking call for which
    the script has no further answer. *)
Inductive outcome (A : Type) :=
  | Returned (a : A) (p : process)
  | Exited (status : Z) (p : process)
  | Killed (sig : signal) (p : process)
  | Waiting (p : process).

Arguments Exited {A} status p.
Arguments Killed {A} sig p.
Arguments Waiting {A} p.

Definition M (A : Type) : Type := process -> outcome A.

Definition ret {A} (a : A) : M A := fun p => Returned a p.

Definition bind {A B} (m : M A) (k : A -> M B) : M B :=
  fun p =>
    match m p with
    | Returned a p' => k a p'
    | Exited status p' => Exited status p'
    | Killed sig p' => Killed sig p'
    | Waiting p' => Waiting p'
    end.

Declare Scope proc_scope.
Delimit Scope proc_scope with proc.
Notation "x <- m ;; k" := (bind m (fun x => k))
  (at level 61, m at next level, right associativity) : proc_scope.
Notation "m ;; k" := (bind m (fun _ => k))
  (at level 61, right associativity) : proc_scope.
Open Scope proc_scope.

Definition exit {A} (status : Z) : M A := fun p => Exited status p.

Definition kill {A} (sig : signal) : M A := fun p => Killed sig p.

(** A computation that touches nothing of the process but may kill it. *)
Inductive result (A : Type) :=
  | Done (a : A)
  | Fault (sig : signal).

Arguments Fault {A} sig.

Definition lift {A} (r : result A) : M A :=
  match r with
  | Done a => ret a
  | Fault sig => kill sig
  end.

Definition emit (c : call) : M unit :=
  fun p => Returned tt (set_trace (trace p ++ [c]) p).

Definition emit_all (cs : list call) : M unit :=
  fun p => Returned tt (set_trace (trace p ++ cs) p).

Definition get_state : M swaylock_state := fun p => Returned (state p) p.

Definition modify (f : swaylock_state -> swaylock_state) : M unit :=
  fun p => Returned tt (set_state (f (state p)) p).

(** [if (state) { ... }] of [parse_options], where [state] is the pointer
    argument. *)
Definition when (b : bool) (m : M unit) : M unit :=
  if b then m else ret tt.

Definition swaylock_log (importance : log_importance) (message : string) : M unit :=
  emit (SwaylockLog importance message).

(** The status with which the process ends when [main] returns or [exit]
    is called; a process that is killed or that waits has none. *)
Definition exit_status (o : outcome Z) : option Z :=
  match o with
  | Returned status _ => Some status
  | Exited status _ => Some status
  | Killed _ _ => None
  | Waiting _ => None
  end.

Definition final {A} (o : outcome A) : process :=
  match o with
  | Returned _ p => p
  | Exited _ p => p
  | Killed _ p => p
  | Waiting p => p
  end.

(* ===================================================================== *)
(** ** The command line and the configuration file *)
(* ===================================================================== *)

(** [if (color[0] == '#') ++color;] *)
Definition skip_hash (color : string) : string :=
  match color with
  | String "#" rest => rest
  | _ => color
  end.

(** [parse_color] (main.c:30); [int len = strlen(color)] converts the
    length to [int]. *)
Definition parse_color (color : string) : M Z :=
  let color := skip_hash color in
  let len := to_int (strlen color) in
  if negb (len =? 6) && negb (len =? 8) then
    swaylock_log LOG_DEBUG "Invalid color, defaulting to 0xFFFFFFFF" ;;
    ret 0xFFFFFFFF
  else
    let res := to_uint32 (strtoul16 color) in
    let res := if strlen color =? 6 then Z.lor (shl_uint32 res 8) 0xFF else res in
    ret res.

(** What [getopt_long] returns for one element of [argv]: the code of a
    long option with its [optarg], or ['?'] for an option it does not know
    or whose argument is missing. *)
Inductive long_option :=
  | LO_CONFIG (optarg : string)
  | LO_DEBUG
  | LO_HELP
  | LO_VERSION
  | LO_IMAGE (optarg : string)
  | LO_IGNORE_EMPTY
  | LO_NO_INDICATOR
  | LO_IND_IDLE_VISIBLE
  | LO_IND_RADIUS (optarg : string)
  | LO_IND_THICKNESS (optarg : string)
  | LO_IND_X (optarg : string)
  | LO_IND_Y (optarg : string)
  | LO_BACKGROUND_COLOR (optarg : string)
  | LO_BACKGROUND_MODE (optarg : string)
  | LO_FONT (optarg : string)
  | LO_FONT_SIZE (optarg : string)
  | LO_CLOCK
  | LO_TIMESTR (optarg : string)
  | LO_DATESTR (optarg : string)
  | LO_COLOR_TEXT (optarg : string)
  | LO_COLOR_RING (optarg : string)
  | LO_COLOR_HL_BS (optarg : string)
  | LO_COLOR_HL_KEY (optarg : string)
  | LO_COLOR_HL_CLEAR (optarg : string)
  | LO_COLOR_HL_VER (optarg : string)
  | LO_COLOR_HL_WRONG (optarg : string)
  | LO_UNRECOGNIZED.

(** The functions of the C library and of [background-image.c] that the
    option parser calls and whose code is not part of [main.c]. [wordexp]
    gives the words [we_wordv] of the expansion, [None] when it returns an
    error. *)
Record library := mk_library {
  parse_background_mode : string -> background_mode;
  strtol : string -> Z;
  atoi : string -> Z;
  wordexp : string -> option (list string);
  load_background_image : string -> option cairo_surface_t
}.

(** [strchr(arg, ':')]: the text before the first colon and the text after
    it. *)
Fixpoint split_colon (arg : string) : option (string * string) :=
  match arg with
  | EmptyString => None
  | String c rest =>
      if uchar c =? 58 then Some (EmptyString, rest)
      else match split_colon rest with
           | Some (before, after) => Some (String c before, after)
           | None => None
           end
  end.

(** The output name and the path that [load_image] (main.c:334-342) reads
    from its argument [[[<output>]:]<path>]. *)
Definition image_argument (arg : string) : option string * string :=
  match split_colon arg with
  | Some (EmptyString, path) => (None, path)
  | Some (name, path) => (Some name, path)
  | None => (None, arg)
  end.

(** The test of the [wl_list_for_each_safe] of [load_image] (main.c:346). *)
Definition same_output (output_name : option string)
    (iter_image : swaylock_image) : bool :=
  lenient_strcmp (image_output_name iter_image) output_name =? 0.

(** The [wl_list_for_each_safe] of [load_image] (main.c:345): the first
    image with the same output name is unlinked. *)
Fixpoint remove_same_output (output_name : option string)
    (images : list swaylock_image) : list swaylock_image :=
  match images with
  | [] => []
  | iter_image :: images' =>
      if lenient_strcmp (image_output_name iter_image) output_name =? 0
      then images'
      else iter_image :: remove_same_output output_name images'
  end.

Definition backslash : ascii := ascii_of_nat 92.

(** The [while] of main.c:368-373: as long as the path holds two spaces in
    a row, a backslash is put between the first two of them. *)
Fixpoint escape_spaces (path : string) : string :=
  match path with
  | EmptyString => EmptyString
  | String c rest =>
      match rest with
      | String d _ =>
          if (uchar c =? 32) && (uchar d =? 32)
          then String c (String backslash (escape_spaces rest))
          else String c (escape_spaces rest)
      | EmptyString => String c EmptyString
      end
  end.

(** A block that [malloc] returned: its bytes, [None] for a byte that has
    not been written yet. *)
Definition block := list (option ascii).

(** [malloc(size)] for a [size_t]: a block of [size] bytes; a request
    beyond [PTRDIFF_MAX] is refused, and the [NULL] it returns is a block
    without a byte. *)
Definition malloc (size : Z) : block :=
  if size <=? PTRDIFF_MAX then repeat None (Z.to_nat size) else [].

(** The assignment [b[i] = c]. It is [None] when [i] is outside the block,
    where C leaves the behaviour undefined. *)
Definition store (b : block) (i : Z) (c : ascii) : option block :=
  if (0 <=? i) && (i <? Z.of_nat (List.length b))
  then Some (firstn (Z.to_nat i) b ++ Some c :: skipn (S (Z.to_nat i)) b)
  else None.

(** [strcpy(b + i, src)]: the bytes of [src], then the terminating NUL. *)
Fixpoint strcpy (b : block) (i : Z) (src : string) : option block :=
  match src with
  | EmptyString => store b i zero
  | String c src' =>
      match store b i c with
      | Some b' => strcpy b' (i + 1) src'
      | None => None
      end
  end.

(** The C string at the start of a block: the bytes before the first NUL.
    It is [None] when a byte never written or the end of the block comes
    first. *)
Fixpoint c_string (b : block) : option string :=
  match b with
  | [] => None
  | None :: _ => None
  | Some c :: b' =>
      if Ascii.eqb c zero then Some EmptyString
      else option_map (String c) (c_string b')
  end.

(** The first loop of [join_args] (main.c:317-319): [len += strlen(argv[i])
    + 1] adds in [size_t] and converts the sum back to the [int len]. *)
Definition join_args_len (argv : list string) : Z :=
  fold_left (fun len arg => to_int (len + (strlen arg + 1))) argv 0.

(** The second loop (main.c:322-326), with [res] and [len] as they are
    when it is left; [None] when a store falls outside the block. *)
Fixpoint join_args_copy (argv : list string) (res : block) (len : Z)
    : option (block * Z) :=
  match argv with
  | [] => Some (res, len)
  | arg :: argv' =>
      match strcpy res len arg with
      | None => None
      | Some res =>
          let len := to_int (len + strlen arg) in
          match store res len " " with
          | None => None
          | Some res => join_args_copy argv' res (int_add len 1)
          end
      end
  end.

(** [join_args] (main.c:314): [argv] holds at least the [argc] strings
    that the loops read. The assertion [argc > 0] aborts the process; a
    store outside the block, which happens when the lengths do not add up
    in [int], ends it. *)
Definition join_args (argv : list string) (argc : Z) : result block :=
  if argc <=? 0 then Fault SIGABRT
  else
    let argv := firstn (Z.to_nat argc) argv in
    let res := malloc (to_size_t (join_args_len argv)) in
    match join_args_copy argv res 0 with
    | None => Fault SIGSEGV
    | Some (res, len) =>
        match store res (int_sub len 1) zero with
        | None => Fault SIGSEGV
        | Some res => Done res
        end
    end.

(** main.c:367-378: the path with its double spaces escaped is expanded by
    [wordexp]; when that succeeds the path becomes the words of the
    expansion joined by [join_args], [we_wordc] converted to its [int]
    parameter. *)
Definition expand_path (lib : library) (path : string) : result string :=
  let path := escape_spaces path in
  match wordexp lib path with
  | None => Done path
  | Some we_wordv =>
      match join_args we_wordv (to_int (Z.of_nat (List.length we_wordv))) with
      | Fault sig => Fault sig
      | Done res =>
          match c_string res with
          | Some joined => Done joined
          | None => Fault SIGSEGV
          end
      end
  end.

(** [load_image] (main.c:331); [wl_list_insert] links the image at the
    head of the list. *)
Definition load_image (lib : library) (arg : string) : M unit :=
  let '(output_name, path) := image_argument arg in
  st <- get_state ;;
  when (existsb (same_output output_name) (images st))
    (swaylock_log LOG_DEBUG
       match output_name with
       | Some _ => "Replacing image defined for output"
       | None => "Replacing default image"
       end) ;;
  modify (fun st =>
    set_images (remove_same_output output_name (images st)) st) ;;
  path <- lift (expand_path lib path) ;;
  match load_background_image lib path with
  | None => ret tt
  | Some cairo_surface =>
      modify (fun st =>
        set_images (mk_image path output_name cairo_surface :: images st) st) ;;
      swaylock_log LOG_DEBUG "Loaded image"
  end.

Definition set_arg (f : swaylock_args -> swaylock_args) : M unit :=
  modify (fun st => set_args (f (args st)) st).

Definition set_color (f : Z -> swaylock_colors -> swaylock_colors)
    (optarg : string) : M unit :=
  c <- parse_color optarg ;;
  set_arg (fun a => set_colors (f c (colors a)) a).

(** [parse_options] (main.c:408): the [while (1)] over the values of
    [getopt_long]. [with_state] tells whether the [state] argument is not
    [NULL]; [config_path] is [None] when the argument of that name is
    [NULL] and otherwise holds the string it points to. The result is the
    [int] returned and the string behind [config_path]. *)
Fixpoint parse_options (lib : library) (argv : list long_option)
    (with_state : bool) (config_path : option (option string))
    : M (Z * option (option string)) :=
  match argv with
  | [] => ret (0, config_path)
  | c :: argv' =>
      let continue := parse_options lib argv' with_state in
      match c with
      | LO_CONFIG optarg =>
          continue
            match config_path with
            | Some _ => Some (Some optarg)
            | None => None
            end
      | LO_DEBUG => emit SwaylockLogInit ;; continue config_path
      | LO_VERSION => emit PrintVersion ;; exit 0
      | LO_IMAGE optarg =>
          when with_state (load_image lib optarg) ;;
          continue config_path
      | LO_IGNORE_EMPTY =>
          when with_state (set_arg (set_ignore_empty true)) ;;
          continue config_path
      | LO_NO_INDICATOR =>
          when with_state (set_arg (set_show_indicator false)) ;;
          continue config_path
      | LO_IND_IDLE_VISIBLE =>
          when with_state (set_arg (set_indicator_idle_visible true)) ;;
          continue config_path
      | LO_IND_RADIUS optarg =>
          when with_state (set_arg (set_radius (strtol lib optarg))) ;;
          continue config_path
      | LO_IND_THICKNESS optarg =>
          when with_state (set_arg (set_thickness (strtol lib optarg))) ;;
          continue config_path
      | LO_IND_X optarg =>
          when with_state (set_arg (set_indicator_x_position (atoi lib optarg))) ;;
          continue config_path
      | LO_IND_Y optarg =>
          when with_state (set_arg (set_indicator_y_position (atoi lib optarg))) ;;
          continue config_path
      | LO_BACKGROUND_MODE optarg =>
          if with_state then
            let m := parse_background_mode lib optarg in
            set_arg (set_mode m) ;;
            if background_mode_eqb m BACKGROUND_MODE_INVALID
            then ret (1, config_path)
            else continue config_path
          else continue config_path
      | LO_FONT optarg =>
          when with_state (set_arg (set_font optarg)) ;;
          continue config_path
      | LO_FONT_SIZE optarg =>
          when with_state (set_arg (set_font_size (atoi lib optarg))) ;;
          continue config_path
      | LO_CLOCK =>
          when with_state (set_arg (set_clock true)) ;;
          continue config_path
      | LO_TIMESTR optarg =>
          when with_state (set_arg (set_timestr optarg)) ;;
          continue config_path
      | LO_DATESTR optarg =>
          when with_state (set_arg (set_datestr optarg)) ;;
          continue config_path
      | LO_COLOR_TEXT optarg =>
          when with_state (set_color set_text optarg) ;;
          continue config_path
      | LO_COLOR_RING optarg =>
          when with_state (set_color set_ring optarg) ;;
          continue config_path
      | LO_COLOR_HL_BS optarg =>
          when with_state (set_color set_highlight_bs optarg) ;;
          continue config_path
      | LO_COLOR_HL_KEY optarg =>
          when with_state (set_color set_highlight_key optarg) ;;
          continue config_path
      | LO_COLOR_HL_CLEAR optarg =>
          when with_state (set_color set_highlight_clear optarg) ;;
          continue config_path
      | LO_COLOR_HL_VER optarg =>
          when with_state (set_color set_highlight_ver optarg) ;;
          continue config_path
      | LO_COLOR_HL_WRONG optarg =>
          when with_state (set_color set_highlight_wrong optarg) ;;
          continue config_path
      | LO_HELP | LO_BACKGROUND_COLOR _ | LO_UNRECOGNIZED =>
          (* [default:] no [case] handles these codes *)
          emit PrintUsage ;; ret (1, config_path)
      end
  end.

(** [load_config] (main.c:711) on an opened file: [lines] holds, for each
    line that is neither empty nor a comment, what [getopt_long] returns
    for ["--" line] (the allocation of that string is taken to succeed).
    The loop stops at the first line that does not parse; the function
    returns [0] whatever happened. *)
Fixpoint load_config_lines (lib : library) (lines : list (list long_option))
    : M unit :=
  match lines with
  | [] => ret tt
  | line :: lines' =>
      swaylock_log LOG_DEBUG "Config Line" ;;
      r <- parse_options lib line true None ;;
      if negb (fst r =? 0) then ret tt else load_config_lines lib lines'
  end.

(** [config] is [None] when [fopen] fails. *)
Definition load_config (lib : library)
    (config : option (list (list long_option))) : M Z :=
  match config with
  | None =>
      swaylock_log LOG_ERROR "Failed to read config. Running without it." ;;
      ret 0
  | Some lines => load_config_lines lib lines ;; ret 0
  end.

(* ===================================================================== *)
(** ** [render.c]: the size of the indicator buffer *)
(* ===================================================================== *)

(** The locals of [render_frame] that are computed before the buffer is
    asked for (render.c:133-141), all of them [int]. *)
Definition arc_radius (st : swaylock_state) (surface : swaylock_surface) : Z :=
  int_mul (radius (args st)) (scale surface).

Definition arc_thickness (st : swaylock_state) (surface : swaylock_surface) : Z :=
  int_mul (thickness (args st)) (scale surface).

Definition buffer_diameter (st : swaylock_state) (surface : swaylock_surface) : Z :=
  int_mul (int_add (arc_radius st surface) (arc_thickness st surface)) 2.

(** [buffer_width] and [buffer_height] after render.c:140-141; the two are
    computed alike. *)
Definition indicator_buffer_size (st : swaylock_state)
    (surface : swaylock_surface) : Z :=
  int_add (buffer_diameter st surface)
    (int_sub (scale surface)
       (int_rem (buffer_diameter st surface) (scale surface))).

(** A division of [render_frame] traps: the remainders of render.c:140-141
    or the quotients of render.c:149 and 152. They come before any request
    of [render_frame] and before [get_next_buffer]. *)
Definition render_frame_traps (st : swaylock_state)
    (surface : swaylock_surface) : bool :=
  division_traps (buffer_diameter st surface) (scale surface)
  || division_traps (indicator_buffer_size st surface)
       (int_mul 2 (scale surface))
  || division_traps 2 (scale surface).

(* ===================================================================== *)
(** ** Surfaces and redraw requests *)
(* ===================================================================== *)

(** [damage_surface] (main.c:163). *)
Definition damage_surface (surface : swaylock_surface)
    : swaylock_surface * list call :=
  if (width surface =? 0) || (height surface =? 0) then (surface, [])
  else
    let surface := set_dirty true surface in
    if frame_pending surface then (surface, [])
    else
      (set_frame_pending true surface,
       [WlSurfaceFrame (output_global_name surface);
        WlSurfaceCommit (output_global_name surface)]).

(** The [wl_list_for_each] of [damage_state] (main.c:180). *)
Fixpoint damage_surfaces (surfaces : list swaylock_surface)
    : list swaylock_surface * list call :=
  match surfaces with
  | [] => ([], [])
  | surface :: surfaces' =>
      let '(surface, calls) := damage_surface surface in
      let '(surfaces', calls') := damage_surfaces surfaces' in
      (surface :: surfaces', calls ++ calls')
  end.

Definition damage_state : M unit :=
  st <- get_state ;;
  let '(surfaces', calls) := damage_surfaces (surfaces st) in
  modify (set_surfaces surfaces') ;;
  emit_all calls.

(** A handler that libwayland calls with [data] pointing to the surface of
    the output [output]: [f] is run on the first surface of the list with
    that registry name; an output without a surface has no listener. *)
Fixpoint on_surface (output : Z)
    (f : swaylock_surface -> swaylock_surface * list call)
    (surfaces : list swaylock_surface) : list swaylock_surface * list call :=
  match surfaces with
  | [] => ([], [])
  | surface :: surfaces' =>
      if output_global_name surface =? output then
        let '(surface, calls) := f surface in (surface :: surfaces', calls)
      else
        let '(surfaces', calls) := on_surface output f surfaces' in
        (surface :: surfaces', calls)
  end.

(** The first surface of the list with the registry name [output]. *)
Definition find_surface (output : Z) (surfaces : list swaylock_surface)
    : option swaylock_surface :=
  find (fun surface => output_global_name surface =? output) surfaces.

Definition calls_render_frame (calls : list call) : bool :=
  existsb (fun c => match c with RenderFrame _ => true | _ => false end) calls.

(** The calls of a listener up to its call of [render_frame]. *)
Fixpoint until_render_frame (calls : list call) : list call :=
  match calls with
  | [] => []
  | RenderFrame output :: _ => [RenderFrame output]
  | c :: calls' => c :: until_render_frame calls'
  end.

(** A listener whose call of [render_frame] does not return: its calls up
    to that one are made, and so are its assignments, but for
    [surface->dirty = false], the one assignment of a listener that
    follows [render_frame] (main.c:155). *)
Definition interrupted
    (f : swaylock_surface -> swaylock_surface * list call)
    (surface : swaylock_surface) : swaylock_surface * list call :=
  (set_dirty (dirty surface) (fst (f surface)),
   until_render_frame (snd (f surface))).

(** The listener [f] of a surface runs. When it calls [render_frame] and a
    division of [render_frame] traps, the process is killed in that call. *)
Definition with_surface (output : Z)
    (f : swaylock_state -> swaylock_surface -> swaylock_surface * list call)
    : M unit :=
  st <- get_state ;;
  let trapped :=
    match find_surface output (surfaces st) with
    | Some surface =>
        calls_render_frame (snd (f st surface))
        && render_frame_traps st (fst (f st surface))
    | None => false
    end in
  let '(surfaces', calls) :=
    on_surface output (if trapped then interrupted (f st) else f st)
      (surfaces st) in
  modify (set_surfaces surfaces') ;;
  emit_all calls ;;
  if trapped then kill SIGFPE else ret tt.

(** [create_surface] (main.c:92): the image is chosen, the lock surface is
    requested from the compositor, [created] is set. libwayland is taken
    to create the proxies, so that the three assertions hold. *)
Definition create_surface (st : swaylock_state) (surface : swaylock_surface)
    : swaylock_surface * list call :=
  let surface := set_image (select_image (images st) (output_name surface)) surface in
  (set_created true surface, [GetLockSurface (output_global_name surface)]).

(** [ext_session_lock_surface_v1_handle_configure] (main.c:124). What the
    two calls into [render.c] do is described by [render_frame_background]
    and [render_frame]; [main.c] reads none of the fields they write. *)
Definition ext_session_lock_surface_v1_handle_configure
    (serial new_width new_height : Z)
    (st : swaylock_state) (surface : swaylock_surface)
    : swaylock_surface * list call :=
  let surface := set_height new_height (set_width new_width surface) in
  (surface,
   [AckConfigure (output_global_name surface) serial;
    RenderFrameBackground (output_global_name surface);
    RenderFrame (output_global_name surface)]).

(** [surface_frame_handle_done] (main.c:141). *)
Definition surface_frame_handle_done
    (st : swaylock_state) (surface : swaylock_surface)
    : swaylock_surface * list call :=
  let surface := set_frame_pending false surface in
  if dirty surface then
    (set_dirty false (set_frame_pending true surface),
     [WlSurfaceFrame (output_global_name surface);
      RenderFrame (output_global_name surface)])
  else (surface, []).

(** [handle_wl_output_geometry] (main.c:187). *)
Definition handle_wl_output_geometry (new_subpixel : Z)
    (st : swaylock_state) (surface : swaylock_surface)
    : swaylock_surface * list call :=
  let surface := set_subpixel new_subpixel surface in
  if run_display st then damage_surface surface else (surface, []).

(** [handle_wl_output_done] (main.c:203). *)
Definition handle_wl_output_done
    (st : swaylock_state) (surface : swaylock_surface)
    : swaylock_surface * list call :=
  if negb (created surface) && run_display st
  then create_surface st surface
  else (surface, []).

(** [handle_wl_output_scale] (main.c:210). *)
Definition handle_wl_output_scale (factor : Z)
    (st : swaylock_state) (surface : swaylock_surface)
    : swaylock_surface * list call :=
  let surface := set_scale factor surface in
  if run_display st then damage_surface surface else (surface, []).

(** [handle_wl_output_name] (main.c:219). *)
Definition handle_wl_output_name (name : string)
    (st : swaylock_state) (surface : swaylock_surface)
    : swaylock_surface * list call :=
  (set_output_name (Some name) surface, []).

(** The interfaces [handle_global] (main.c:254) compares with. *)
Inductive wl_interface :=
  | wl_compositor_interface
  | wl_subcompositor_interface
  | wl_shm_interface
  | wl_seat_interface
  | wl_output_interface
  | ext_session_lock_manager_v1_interface
  | other_interface.

(** A surface as [calloc] leaves it, bound to the output [name]. *)
Definition calloc_surface (name : Z) : swaylock_surface :=
  mk_surface name None 0 0 0 0 false false false None 0 0.

Definition handle_global (name : Z) (interface : wl_interface) : M unit :=
  match interface with
  | wl_compositor_interface => modify (set_compositor true)
  | wl_subcompositor_interface => modify (set_subcompositor true)
  | wl_shm_interface => modify (set_shm true)
  | wl_seat_interface => ret tt
  | wl_output_interface =>
      modify (fun st => set_surfaces (calloc_surface name :: surfaces st) st)
  | ext_session_lock_manager_v1_interface =>
      modify (set_ext_session_lock_manager_v1 true)
  | other_interface => ret tt
  end.

(** The loop of [handle_global_remove] (main.c:279) with [destroy_surface]
    (main.c:60): the first surface of the output is unlinked. *)
Fixpoint remove_surface (name : Z) (surfaces : list swaylock_surface)
    : list swaylock_surface * list call :=
  match surfaces with
  | [] => ([], [])
  | surface :: surfaces' =>
      if output_global_name surface =? name
      then (surfaces', [DestroySurface name])
      else
        let '(surfaces', calls) := remove_surface name surfaces' in
        (surface :: surfaces', calls)
  end.

Definition handle_global_remove (name : Z) : M unit :=
  st <- get_state ;;
  let '(surfaces', calls) := remove_surface name (surfaces st) in
  modify (set_surfaces surfaces') ;;
  emit_all calls.

(** [ext_session_lock_v1_handle_locked] (main.c:239). *)
Definition ext_session_lock_v1_handle_locked : M unit :=
  modify (set_locked true).

(** [ext_session_lock_v1_handle_finished] (main.c:244). *)
Definition ext_session_lock_v1_handle_finished : M unit :=
  swaylock_log LOG_ERROR "Failed to lock session -- is another lockscreen running?" ;;
  exit 2.

(* ===================================================================== *)
(** ** Code of the repository outside [main.c] and [render.c] *)
(* ===================================================================== *)

(** Modelled from the spec: the Secret Buffer operations of
    [password-buffer.c] and [password.c], which are not among the sources
    (spec 4.1). [append] grows the capacity geometrically when the buffer is
    full and stores the byte; the allocation is taken to succeed. *)
Definition secret_append (c : ascii) (pw : swaylock_password) : swaylock_password :=
  match buffer pw with
  | None => pw
  | Some bytes =>
      let capacity :=
        if len pw =? buffer_len pw then 2 * buffer_len pw else buffer_len pw in
      mk_password (len pw + 1) capacity (Some (bytes ++ String c EmptyString)%string)
  end.

Fixpoint remove_last_byte (bytes : string) : string :=
  match bytes with
  | EmptyString => EmptyString
  | String c EmptyString => EmptyString
  | String c rest => String c (remove_last_byte rest)
  end.

(** Modelled from the spec: [remove_last] is a no-op on an empty buffer and
    otherwise drops (and zeroes) the last byte. *)
Definition secret_remove_last (pw : swaylock_password) : swaylock_password :=
  match buffer pw with
  | None => pw
  | Some bytes =>
      if len pw =? 0 then pw
      else mk_password (len pw - 1) (buffer_len pw) (Some (remove_last_byte bytes))
  end.

(** Modelled from the spec: [clear] zeroes the bytes and sets the length to
    [0]; the capacity is kept. *)
Definition secret_clear (pw : swaylock_password) : swaylock_password :=
  match buffer pw with
  | None => pw
  | Some _ => mk_password 0 (buffer_len pw) (Some EmptyString)
  end.

(** Modelled from the spec: [schedule_auth_idle] of [password.c] (re)arms
    the timer that takes [auth_state] back to idle after a fixed delay
    (spec 4.4). *)
Definition schedule_auth_idle : M unit :=
  modify (set_auth_idle_timer true).

(** Modelled from the spec: the callback of that timer. The timer is armed
    for one shot; the transition requests a redraw as every transition
    does. *)
Definition set_auth_idle : M unit :=
  modify (set_auth_idle_timer false) ;;
  modify (set_auth_state AUTH_STATE_IDLE) ;;
  damage_state.

(** What the read of one byte from the verdict channel gives. *)
Inductive verdict_read :=
  | READ_BYTE (b : Z)
  | READ_FAILED.

(** The verdict a read carries: the byte [1] and nothing else is a
    success (spec 6, wire format). *)
Definition verdict_ok (r : verdict_read) : bool :=
  match r with
  | READ_BYTE b => b =? 1
  | READ_FAILED => false
  end.

(** Modelled from the spec: [read_comm_reply] of [comm.c] reads one byte,
    [1] is success; any other byte, a closed channel or a short read is a
    failure, which is logged (spec 4.2, step 4). *)
Definition read_comm_reply (r : verdict_read) : M bool :=
  match r with
  | READ_BYTE b =>
      emit (ReadCommReply (b =? 1)) ;;
      ret (b =? 1)
  | READ_FAILED =>
      emit (ReadCommReply false) ;;
      swaylock_log LOG_ERROR "Failed to read pw result" ;;
      ret false
  end.

(** The keystroke classes of the state machine (spec 4.4); [highlight] is
    the random number drawn for the typing indicator. *)
Inductive keystroke :=
  | KEY_PRINTABLE (c : ascii) (highlight : Z)
  | KEY_BACKSPACE (highlight : Z)
  | KEY_CLEAR
  | KEY_SUBMIT.

(** Modelled from the spec: the keyboard handler of [seat.c] and
    [password.c] (spec 4.4). A submit is accepted only when no verdict is
    outstanding and, under the ignore-empty policy, only for a buffer that
    is not empty; the write to the worker is taken to succeed. *)
Definition swaylock_handle_key (k : keystroke) : M unit :=
  match k with
  | KEY_PRINTABLE c highlight =>
      modify (fun st => set_password (secret_append c (password st)) st) ;;
      modify (set_input_state INPUT_STATE_LETTER) ;;
      modify (set_highlight_start highlight) ;;
      damage_state
  | KEY_BACKSPACE highlight =>
      modify (fun st => set_password (secret_remove_last (password st)) st) ;;
      modify (set_input_state INPUT_STATE_BACKSPACE) ;;
      modify (set_highlight_start highlight) ;;
      damage_state
  | KEY_CLEAR =>
      modify (fun st => set_password (secret_clear (password st)) st) ;;
      modify (set_input_state INPUT_STATE_CLEAR) ;;
      modify (fun st =>
        if auth_state_eqb (auth_state st) AUTH_STATE_INVALID
        then set_auth_state AUTH_STATE_IDLE st else st) ;;
      damage_state
  | KEY_SUBMIT =>
      st <- get_state ;;
      if auth_state_eqb (auth_state st) AUTH_STATE_VALIDATING then ret tt
      else if (len (password st) =? 0) && ignore_empty (args st) then ret tt
      else
        emit (WriteCommRequest
                match buffer (password st) with
                | Some bytes => bytes
                | None => EmptyString
                end) ;;
        modify (set_auth_state AUTH_STATE_VALIDATING) ;;
        damage_state
  end.

(* ===================================================================== *)
(** ** Events of the display and the callbacks of the event loop *)
(* ===================================================================== *)

(** The events libwayland hands to the listeners [main.c] installs, and
    the key events of the seat. *)
Inductive wl_event :=
  | EV_global (name : Z) (interface : wl_interface)
  | EV_global_remove (name : Z)
  | EV_output_geometry (output : Z) (subpixel : Z)
  | EV_output_mode (output : Z)
  | EV_output_done (output : Z)
  | EV_output_scale (output : Z) (factor : Z)
  | EV_output_name (output : Z) (name : string)
  | EV_output_description (output : Z)
  | EV_lock_locked
  | EV_lock_finished
  | EV_lock_surface_configure (output serial width height : Z)
  | EV_frame_done (output : Z)
  | EV_key (k : keystroke).

(** The listener that libwayland calls for an event. The events of the
    lock object exist only once [main] has created it. *)
Definition handle_event (ev : wl_event) : M unit :=
  match ev with
  | EV_global name interface => handle_global name interface
  | EV_global_remove name => handle_global_remove name
  | EV_output_geometry output subpixel =>
      with_surface output (handle_wl_output_geometry subpixel)
  | EV_output_mode _ => ret tt
  | EV_output_done output => with_surface output handle_wl_output_done
  | EV_output_scale output factor =>
      with_surface output (handle_wl_output_scale factor)
  | EV_output_name output name =>
      with_surface output (handle_wl_output_name name)
  | EV_output_description _ => ret tt
  | EV_lock_locked =>
      st <- get_state ;;
      when (ext_session_lock_v1 st) ext_session_lock_v1_handle_locked
  | EV_lock_finished =>
      st <- get_state ;;
      when (ext_session_lock_v1 st) ext_session_lock_v1_handle_finished
  | EV_lock_surface_configure output serial width height =>
      with_surface output
        (ext_session_lock_surface_v1_handle_configure serial width height)
  | EV_frame_done output => with_surface output surface_frame_handle_done
  | EV_key k => swaylock_handle_key k
  end.

Fixpoint handle_events (evs : list wl_event) : M unit :=
  match evs with
  | [] => ret tt
  | ev :: evs' => handle_event ev ;; handle_events evs'
  end.

(** One [wl_display_dispatch] or [wl_display_roundtrip]: the events whose
    listeners run, and whether the call then returns [-1]. *)
Record dispatch := mk_dispatch {
  delivered : list wl_event;
  failed : bool
}.

(** What a dispatch or a round trip does with [d]. libwayland keeps the
    error of a display: once a call has failed, every later one returns
    [-1] at once and no listener runs. The value is [true] when the call
    returns [-1]. *)
Definition dispatch_events (d : dispatch) : M bool :=
  fun p =>
    if display_error p then Returned true p
    else
      (handle_events (delivered d) ;;
       if failed d
       then fun q => Returned true (set_display_error true q)
       else ret false) p.

Definition wl_display_dispatch (d : dispatch) : M bool :=
  emit WlDisplayDispatch ;;
  dispatch_events d.

Definition wl_display_roundtrip (d : dispatch) : M bool :=
  emit WlDisplayRoundtrip ;;
  dispatch_events d.

(** [display_in] (main.c:757). *)
Definition display_in (d : dispatch) : M unit :=
  r <- wl_display_dispatch d ;;
  if r then modify (set_run_display false) else ret tt.

(** [comm_in] (main.c:763). *)
Definition comm_in (r : verdict_read) : M unit :=
  ok <- read_comm_reply r ;;
  if ok then
    (* Authentication succeeded *)
    modify (set_run_display false)
  else
    modify (set_auth_state AUTH_STATE_INVALID) ;;
    schedule_auth_idle ;;
    modify (fun st =>
      set_failed_attempts (to_uint32 (failed_attempts st + 1)) st) ;;
    damage_state.

(** [term_in] (main.c:775). *)
Definition term_in : M unit :=
  modify (set_run_display false).

(** [do_sigusr] (main.c:297): [write(sigusr_fds[1], "1", 1)], the result
    discarded. On a full pipe the write fails with [EAGAIN] when the write
    end is non-blocking and does not return otherwise; on the descriptor
    [-1] it fails with [EBADF]. *)
Definition do_sigusr : M unit :=
  fun p =>
    match sigusr_fds p with
    | None => Returned tt p
    | Some fds =>
        if strlen (pipe_bytes fds) <? pipe_capacity fds then
          Returned tt
            (set_sigusr_fds
               (Some (mk_pipe (pipe_bytes fds ++ "1")%string
                        (pipe_capacity fds) (write_end_nonblock fds))) p)
        else if write_end_nonblock fds then Returned tt p
        else Waiting p
    end.

(** A [SIGUSR1] that arrives runs the handler installed by [sigaction], if
    any. *)
Definition deliver_sigusr1 : M unit :=
  fun p => if sigusr_handler p then do_sigusr p else Returned tt p.

Fixpoint deliver_signals (n : nat) : M unit :=
  match n with
  | O => ret tt
  | S n' => deliver_sigusr1 ;; deliver_signals n'
  end.

Inductive flush_result :=
  | FLUSH_DONE
  | FLUSH_EAGAIN
  | FLUSH_ERROR.

(** What one turn of the main loop meets: the result of
    [wl_display_flush], the [SIGUSR1]s that arrive while [poll] waits, what
    the display and the verdict descriptors have to read (if anything), and
    whether the delay of the idle timer has passed. *)
Record iteration := mk_iteration {
  flush : flush_result;
  signals : nat;
  display_ready : option dispatch;
  comm_ready : option verdict_read;
  timer_expired : bool
}.

(** The descriptor of a registered callback is readable: the display and
    the verdict channel as the script says, the wake pipe when it holds a
    byte. *)
Definition ready (it : iteration) (p : process) (cb : callback) : bool :=
  match cb with
  | CB_display_in => match display_ready it with Some _ => true | None => false end
  | CB_comm_in => match comm_ready it with Some _ => true | None => false end
  | CB_term_in =>
      match sigusr_fds p with
      | Some fds => 0 <? strlen (pipe_bytes fds)
      | None => false
      end
  | CB_set_auth_idle => false
  end.

Definition invoke (it : iteration) (cb : callback) : M unit :=
  emit (Invoke cb) ;;
  match cb with
  | CB_display_in =>
      match display_ready it with Some d => display_in d | None => ret tt end
  | CB_comm_in =>
      match comm_ready it with Some r => comm_in r | None => ret tt end
  | CB_term_in => term_in
  | CB_set_auth_idle => set_auth_idle
  end.

Fixpoint invoke_all (it : iteration) (cbs : list callback) : M unit :=
  match cbs with
  | [] => ret tt
  | cb :: cbs' => invoke it cb ;; invoke_all it cbs'
  end.

(** Modelled from the spec: [loop_poll] of [loop.c] (spec 4.3, [run_once])
    waits, then invokes the callback of each ready descriptor once, in the
    order of registration; the set of ready descriptors is the one [poll]
    returned. A timer whose delay has passed runs after them. *)
Definition dispatch_ready (it : iteration) : M unit :=
  fun p =>
    (invoke_all it (filter (ready it p) (eventloop p)) ;;
     st <- get_state ;;
     when (timer_expired it && auth_idle_timer st) (invoke it CB_set_auth_idle)) p.

Definition loop_poll (it : iteration) : M unit :=
  emit LoopPoll ;;
  deliver_signals (signals it) ;;
  dispatch_ready it.

(** [loop_add_fd]. *)
Definition loop_add_fd (cb : callback) : M unit :=
  emit (LoopAddFd cb) ;;
  fun p => Returned tt (set_eventloop (eventloop p ++ [cb]) p).

(* ===================================================================== *)
(** ** [main] *)
(* ===================================================================== *)

(** Everything [main] meets outside the process. *)
Record world := mk_world {
  lib : library;
  argc : Z;
  argv : list long_option;
  (** the result of [get_config_path] *)
  default_config_path : option string;
  (** [fopen] of a configuration file and what its lines parse to *)
  config_file : string -> option (list (list long_option));
  password_buffer_created : bool;
  (** the capacity of the pipe when [pipe] succeeds *)
  pipe_created : option Z;
  fcntl_done : bool;
  wl_display_connected : bool;
  roundtrip_registry : dispatch;
  roundtrip_lock : dispatch;
  (** the calls of [wl_display_dispatch] while waiting for the lock *)
  lock_dispatches : list dispatch;
  (** the turns of the main loop *)
  iterations : list iteration;
  (** the round trip after the unlock request *)
  roundtrip_unlock : dispatch
}.

(** [set_default_colors] (main.c:391). *)
Definition set_default_colors (c : swaylock_colors) : swaylock_colors :=
  set_highlight_wrong 0xC0392BFF
    (set_highlight_ver 0x7f8C8DFF
      (set_highlight_clear 0x27AE60FF
        (set_ring 0x3498DBF
          (set_highlight_key 0x1ABC9CFF
            (set_highlight_bs 0xE67E22FF
              (set_text 0x2C3E50FF
                (set_background 0x95A5A6FF c))))))).

(** The compound literal of main.c:812; the members it does not name are
    zero. *)
Definition initial_args : swaylock_args :=
  mk_args (mk_colors 0 0 0 0 0 0 0 0) BACKGROUND_MODE_FILL "sans-serif" 0
    50 10 (-1) (-1) true true false true "%T" "%a, %x".

(** The objects with static storage as the loader leaves them. *)
Definition zero_state : swaylock_state :=
  mk_state
    (mk_args (mk_colors 0 0 0 0 0 0 0 0) BACKGROUND_MODE_STRETCH "" 0 0 0 0 0
       false false false false "" "")
    [] [] (mk_password 0 0 None) AUTH_STATE_IDLE INPUT_STATE_IDLE 0 0
    false false false false false false false false.

Definition process_start : process :=
  mk_process zero_state None false [] [] false.

(** The [wl_list_for_each] of main.c:927. *)
Fixpoint create_surfaces (st : swaylock_state)
    (surfaces : list swaylock_surface) : list swaylock_surface * list call :=
  match surfaces with
  | [] => ([], [])
  | surface :: surfaces' =>
      let '(surface, calls) := create_surface st surface in
      let '(surfaces', calls') := create_surfaces st surfaces' in
      (surface :: surfaces', calls ++ calls')
  end.

Definition create_all_surfaces : M unit :=
  st <- get_state ;;
  let '(surfaces', calls) := create_surfaces st (surfaces st) in
  modify (set_surfaces surfaces') ;;
  emit_all calls.

(** The loop [while (!state.locked)] of main.c:931. The value is [true]
    when [main] returns [2] from inside the loop. *)
Fixpoint wait_for_lock (dispatches : list dispatch) : M bool :=
  fun p =>
    if locked (state p) then Returned false p
    else
      match dispatches with
      | [] => Waiting p
      | d :: dispatches' =>
          (r <- wl_display_dispatch d ;;
           if r then
             swaylock_log LOG_ERROR "wl_display_dispatch() failed" ;;
             ret true
           else wait_for_lock dispatches') p
      end.

(** The loop [while (state.run_display)] of main.c:951. *)
Fixpoint run_display_loop (its : list iteration) : M unit :=
  fun p =>
    if run_display (state p) then
      match its with
      | [] => Waiting p
      | it :: its' =>
          (emit WlDisplayFlush ;;
           match flush it with
           | FLUSH_ERROR => ret tt
           | FLUSH_DONE | FLUSH_EAGAIN =>
               loop_poll it ;; run_display_loop its'
           end) p
      end
    else Returned tt p.

(** What follows the main loop (main.c:959-965): the lock object is
    destroyed with the unlock request; the result of the round trip is not
    looked at. *)
Definition unlock_and_return (w : world) : M Z :=
  emit ExtSessionLockUnlockAndDestroy ;;
  modify (set_ext_session_lock_v1 false) ;;
  wl_display_roundtrip (roundtrip_unlock w) ;;
  ret 0.

(** main.c:914-965: the lock is requested, waited for, and the loop runs. *)
Definition lock_and_run (w : world) : M Z :=
  emit ExtSessionLockManagerLock ;;
  modify (set_ext_session_lock_v1 true) ;;
  r <- wl_display_roundtrip (roundtrip_lock w) ;;
  if r then ret 1
  else
    create_all_surfaces ;;
    gave_up <- wait_for_lock (lock_dispatches w) ;;
    if gave_up then ret 2
    else
      loop_add_fd CB_display_in ;;
      loop_add_fd CB_comm_in ;;
      loop_add_fd CB_term_in ;;
      emit Sigaction ;;
      (fun p => Returned tt (set_sigusr_handler true p)) ;;
      modify (set_run_display true) ;;
      run_display_loop (iterations w) ;;
      unlock_and_return w.

(** main.c:859-912: the password buffer, the wake pipe, the display and
    its globals. *)
Definition setup_and_lock (w : world) : M Z :=
  modify (set_password
            (mk_password 0 1024
               (if password_buffer_created w then Some EmptyString else None))) ;;
  emit (PasswordBufferCreate 1024) ;;
  if negb (password_buffer_created w) then ret 1
  else
    emit Pipe ;;
    match pipe_created w with
    | None => swaylock_log LOG_ERROR "Failed to pipe" ;; ret 1
    | Some capacity =>
        (fun p => Returned tt (set_sigusr_fds (Some (mk_pipe "" capacity false)) p)) ;;
        emit FcntlNonblock ;;
        if negb (fcntl_done w) then
          swaylock_log LOG_ERROR "Failed to make pipe end nonblocking" ;;
          ret 1
        else
          (fun p => Returned tt
             (set_sigusr_fds (Some (mk_pipe "" capacity true)) p)) ;;
          modify (set_surfaces []) ;;
          emit WlDisplayConnect ;;
          if negb (wl_display_connected w) then
            swaylock_log LOG_ERROR "Unable to connect to the compositor." ;;
            ret 1
          else
            (fun p => Returned tt (set_eventloop [] p)) ;;
            r <- wl_display_roundtrip (roundtrip_registry w) ;;
            if r then
              swaylock_log LOG_ERROR "wl_display_roundtrip() failed" ;;
              ret 1
            else
              st <- get_state ;;
              if negb (compositor st) then
                swaylock_log LOG_ERROR "Missing wl_compositor" ;; ret 1
              else if negb (subcompositor st) then
                swaylock_log LOG_ERROR "Missing wl_subcompositor" ;; ret 1
              else if negb (shm st) then
                swaylock_log LOG_ERROR "Missing wl_shm" ;; ret 1
              else if negb (ext_session_lock_manager_v1 st) then
                swaylock_log LOG_ERROR "Missing ext-session-lock-v1" ;; ret 1
              else lock_and_run w
    end.

(** [main] (main.c:805). *)
Definition main (w : world) : M Z :=
  emit SwaylockLogInit ;;
  emit InitializePwBackend ;;
  modify (set_failed_attempts 0) ;;
  modify (set_args initial_args) ;;
  modify (set_images []) ;;
  set_arg (fun a => set_colors (set_default_colors (colors a)) a) ;;
  r <- parse_options (lib w) (argv w) false (Some None) ;;
  if negb (fst r =? 0) then ret (fst r)
  else
    let config_path :=
      match snd r with
      | Some (Some path) => Some path
      | _ => default_config_path w
      end in
    config_status <-
      match config_path with
      | Some path =>
          swaylock_log LOG_DEBUG "Found config" ;;
          load_config (lib w) (config_file w path)
      | None => ret 0
      end ;;
    if negb (config_status =? 0) then ret config_status
    else
      result <-
        (if argc w >? 1 then
           swaylock_log LOG_DEBUG "Parsing CLI Args" ;;
           r <- parse_options (lib w) (argv w) true None ;;
           ret (fst r)
         else ret 0) ;;
      if negb (result =? 0) then ret result
      else setup_and_lock w.

(** The process from its start to its end. *)
Definition run (w : world) : outcome Z := main w process_start.

(* ===================================================================== *)
(** ** [render.c]: the indicator frame *)
(* ===================================================================== *)

(** The angles of an arc: the whole circle [0 .. 2 * M_PI], or the typing
    highlight that starts at [highlight_start * (M_PI / 1024.0)] and spans
    [TYPE_INDICATOR_RANGE]. *)
Inductive arc_angles :=
  | WHOLE_CIRCLE
  | TYPE_INDICATOR (highlight_start : Z).

(** A font size: a number of pixels, the quotient [num / den] that C
    computes in [float], or that quotient converted to [uint32_t]. The
    embedding does not compute in [float]. *)
Inductive font_size_t :=
  | SIZE_PX (n : Z)
  | SIZE_RATIO (num den : Z)
  | SIZE_RATIO_UINT32 (num den : Z).

Inductive text_line := FIRST_LINE | SECOND_LINE.

Inductive wl_surface_of := THE_SURFACE | THE_CHILD.

Definition pool_buffer := positive.

(** The requests [render_frame] makes to cairo and to the compositor, in
    order. The position of a line of text is computed in floating point
    from the extents cairo reports and is not part of the request here. *)
Inductive request :=
  | cairo_set_antialias_best
  | cairo_identity_matrix
  | cairo_save
  | cairo_restore
  | cairo_set_source_rgba_clear
  | cairo_set_operator_source
  | cairo_paint
  | cairo_set_line_width (w : Z)
  | cairo_arc (xc yc arc_radius : Z) (angles : arc_angles)
  | cairo_set_source_u32 (color : Z)
  | cairo_stroke
  | configure_font_drawing (face : string) (size : font_size_t) (subpixel : Z)
  | cairo_set_font_size (size : font_size_t)
  | cairo_show_text_at (line : text_line) (s : string)
  | log_not_drawing_indicator
  | wl_subsurface_set_position (x y : Z)
  | wl_surface_set_buffer_scale (s : wl_surface_of) (factor : Z)
  | wl_surface_attach (s : wl_surface_of) (b : pool_buffer)
  | wl_surface_damage_buffer (s : wl_surface_of)
  | wl_surface_commit (s : wl_surface_of).

(** [get_font_size] (render.c:15): the result is a [uint32_t]. *)
Definition get_font_size (st : swaylock_state) (arc_radius : Z) : font_size_t :=
  if font_size (args st) >? 0 then SIZE_PX (font_size (args st))
  else SIZE_RATIO_UINT32 arc_radius 3.

(** [timetext] (render.c:87): [strftime] gives the text of a format for the
    current time; an empty format gives no text. *)
Definition timetext (strftime : string -> string) (st : swaylock_state)
    : option string * option string :=
  (match timestr (args st) with
   | EmptyString => None
   | fmt => Some (strftime fmt)
   end,
   match datestr (args st) with
   | EmptyString => None
   | fmt => Some (strftime fmt)
   end).

(** [subsurf_xpos] and [subsurf_ypos] (render.c:143-161); [surface->width /
    2] and [surface->height / 2] divide a [uint32_t]. *)
Definition subsurf_xpos (st : swaylock_state) (surface : swaylock_surface) : Z :=
  if indicator_x_position (args st) >=? 0 then
    int_add
      (int_sub (indicator_x_position (args st))
         (int_div (indicator_buffer_size st surface) (int_mul 2 (scale surface))))
      (int_div 2 (scale surface))
  else
    int_add
      (int_sub (Z.quot (width surface) 2)
         (int_div (indicator_buffer_size st surface) (int_mul 2 (scale surface))))
      (int_div 2 (scale surface)).

Definition subsurf_ypos (st : swaylock_state) (surface : swaylock_surface) : Z :=
  if indicator_y_position (args st) >=? 0 then
    int_sub (indicator_y_position (args st))
      (radius (args st) + thickness (args st))
  else
    int_sub (Z.quot (height surface) 2)
      (radius (args st) + thickness (args st)).

(** [render_frame] (render.c:116): the requests of a call in which
    [get_next_buffer] returns [next_buffer], [None] for [NULL]. When a
    division traps ([render_frame_traps]) the process is killed before
    [get_next_buffer] is called, and there is no such call. *)
Definition render_frame (strftime : string -> string)
    (st : swaylock_state) (surface : swaylock_surface)
    (next_buffer : option pool_buffer) : list request :=
  let '(text_l1, text_l2) :=
    if clock (args st) then timetext strftime st else (None, None) in
  let draw_indicator :=
    show_indicator (args st) &&
    (negb (auth_state_eqb (auth_state st) AUTH_STATE_IDLE) ||
     negb (input_state_eqb (input_state st) INPUT_STATE_IDLE) ||
     indicator_idle_visible (args st)) in
  let arc_radius := arc_radius st surface in
  let arc_thickness := arc_thickness st surface in
  let buffer_diameter := buffer_diameter st surface in
  let buffer_width := indicator_buffer_size st surface in
  match next_buffer with
  | None => []
  | Some buffer =>
      let xc := int_div buffer_width 2 in
      let yc := int_div buffer_diameter 2 in
      [cairo_set_antialias_best; cairo_identity_matrix;
       cairo_save; cairo_set_source_rgba_clear; cairo_set_operator_source;
       cairo_paint; cairo_restore]
      ++ (if draw_indicator then
            [cairo_set_line_width arc_thickness;
             cairo_arc xc yc arc_radius WHOLE_CIRCLE;
             cairo_set_source_u32 (ring (colors (args st)));
             cairo_stroke;
             configure_font_drawing (font (args st))
               (if font_size (args st) >? 0 then SIZE_PX (font_size (args st))
                else SIZE_RATIO arc_radius 3)
               (subpixel surface);
             cairo_set_source_u32 (text (colors (args st)))]
            ++ match text_l1 with
               | Some s => [cairo_show_text_at FIRST_LINE s]
               | None => []
               end
            ++ match text_l2 with
               | Some s =>
                   [cairo_set_font_size (SIZE_RATIO arc_radius 6);
                    cairo_show_text_at SECOND_LINE s;
                    cairo_set_font_size (get_font_size st arc_radius)]
               | None => []
               end
            ++ (if input_state_eqb (input_state st) INPUT_STATE_LETTER
                   || input_state_eqb (input_state st) INPUT_STATE_BACKSPACE
                then
                  [cairo_arc xc yc arc_radius
                     (TYPE_INDICATOR (highlight_start st));
                   cairo_set_source_u32
                     (if input_state_eqb (input_state st) INPUT_STATE_LETTER
                      then highlight_key (colors (args st))
                      else highlight_bs (colors (args st)));
                   cairo_stroke]
                else [])
            ++ [cairo_set_source_u32
                  (if input_state_eqb (input_state st) INPUT_STATE_CLEAR
                   then highlight_clear (colors (args st))
                   else if auth_state_eqb (auth_state st) AUTH_STATE_VALIDATING
                   then highlight_ver (colors (args st))
                   else if auth_state_eqb (auth_state st) AUTH_STATE_INVALID
                   then highlight_wrong (colors (args st))
                   else ring (colors (args st)));
                cairo_set_line_width (2 * scale surface);
                cairo_arc xc yc
                  (int_sub arc_radius (int_div arc_thickness 2)) WHOLE_CIRCLE;
                cairo_stroke;
                cairo_arc xc yc
                  (int_add arc_radius (int_div arc_thickness 2)) WHOLE_CIRCLE;
                cairo_stroke]
          else [log_not_drawing_indicator])
      ++ [wl_subsurface_set_position (subsurf_xpos st surface)
            (subsurf_ypos st surface);
          wl_surface_set_buffer_scale THE_CHILD (scale surface);
          wl_surface_attach THE_CHILD buffer;
          wl_surface_damage_buffer THE_CHILD;
          wl_surface_commit THE_CHILD;
          wl_surface_commit THE_SURFACE]
  end.

(** A request that puts ink of the indicator on the buffer: an arc, a
    stroke or a line of text. *)
Definition is_indicator_ink (r : request) : bool :=
  match r with
  | cairo_arc _ _ _ _ | cairo_stroke | cairo_show_text_at _ _ => true
  | _ => false
  end.

Definition draws_indicator (requests : list request) : bool :=
  existsb is_indicator_ink requests.

(** The frame reaches the compositor: the buffer is attached to the child
    surface and both surfaces are committed. *)
Definition commits_frame (requests : list request) : bool :=
  existsb (fun r => match r with wl_surface_attach THE_CHILD _ => true | _ => false end)
    requests
  && existsb (fun r => match r with wl_surface_commit THE_CHILD => true | _ => false end)
       requests
  && existsb (fun r => match r with wl_surface_commit THE_SURFACE => true | _ => false end)
       requests.

(* ===================================================================== *)
(** ** Vocabulary of the properties *)
(* ===================================================================== *)

(** [m] takes every process to one that [R] relates to it, however it
    ends. *)
Definition respects {A} (R : process -> process -> Prop) (m : M A) : Prop :=
  forall p, R p (final (m p)).

(** [m] returns: it neither exits nor waits. *)
Definition returns {A} (m : M A) : Prop :=
  forall p, exists a p', m p = Returned a p'.

(** The calls a listener of the display may make. *)
Definition event_call (c : call) : bool :=
  match c with
  | SwaylockLog _ _ | WriteCommRequest _ | GetLockSurface _
  | AckConfigure _ _ | RenderFrameBackground _ | RenderFrame _
  | WlSurfaceFrame _ | WlSurfaceCommit _ | DestroySurface _ => true
  | _ => false
  end.

(** The calls of a dispatch of the display. *)
Definition dispatch_call (c : call) : bool :=
  event_call c ||
  match c with
  | WlDisplayDispatch | WlDisplayRoundtrip => true
  | _ => false
  end.

(** The calls one turn of the event loop may make below [loop_poll]. *)
Definition callback_call (c : call) : bool :=
  dispatch_call c ||
  match c with
  | ReadCommReply _ | Invoke _ => true
  | _ => false
  end.

(** The calls one turn of the event loop may make in which no verdict of
    success is read. *)
Definition quiet_call (c : call) : bool :=
  dispatch_call c ||
  match c with
  | ReadCommReply false | Invoke _ => true
  | _ => false
  end.

(** The calls of the main loop. *)
Definition loop_call (c : call) : bool :=
  callback_call c ||
  match c with
  | LoopPoll | WlDisplayFlush => true
  | _ => false
  end.

(** The calls of the option parser. *)
Definition parse_call (c : call) : bool :=
  match c with
  | SwaylockLog _ _ | SwaylockLogInit | PrintUsage | PrintVersion => true
  | _ => false
  end.

(** The calls [main] makes before the option parsing is over. *)
Definition early_call (c : call) : bool :=
  parse_call c ||
  match c with
  | InitializePwBackend => true
  | _ => false
  end.

(** The calls made before the main loop is entered: all but those of the
    loop, of its callbacks and of the unlock. *)
Definition setup_call (c : call) : bool :=
  match c with
  | ExtSessionLockUnlockAndDestroy | ReadCommReply _ | Invoke _
  | LoopPoll | WlDisplayFlush => false
  | _ => true
  end.

(** The wake pipe keeps its place, its capacity and its mode. *)
Definition same_pipe (a b : option pipe) : Prop :=
  match a, b with
  | None, None => True
  | Some x, Some y =>
      pipe_capacity y = pipe_capacity x /\
      write_end_nonblock y = write_end_nonblock x
  | _, _ => False
  end.

(** A verdict read from the channel that is a failure. *)
Definition is_failed_verdict (c : call) : bool :=
  match c with
  | ReadCommReply false => true
  | _ => false
  end.

(** The number of failed verdicts read in a stretch of the trace. *)
Definition count_failed (cs : list call) : Z :=
  Z.of_nat (List.length (filter is_failed_verdict cs)).

(** The counter of failed attempts is in the range of its type. *)
Definition counter_in_range (st : swaylock_state) : Prop :=
  0 <= failed_attempts st < 2 ^ 32.

(** What holds between the state before and after any piece of code below
    [main]: a cleared run flag stays cleared; the lock, once reported,
    stays; the lock object and the password buffer stay in place; the
    counter of failed attempts stays in the range of its type. *)
Definition flags_step (st st' : swaylock_state) : Prop :=
  (run_display st = false -> run_display st' = false) /\
  (locked st = true -> locked st' = true) /\
  ext_session_lock_v1 st' = ext_session_lock_v1 st /\
  (buffer (password st) <> None -> buffer (password st') <> None) /\
  (counter_in_range st -> counter_in_range st').

(** The same for an assignment that does not touch the counter of failed
    attempts. *)
Definition state_step (st st' : swaylock_state) : Prop :=
  failed_attempts st' = failed_attempts st /\ flags_step st st'.

(** The same for the process: besides, the trace grows by calls of the
    class [allowed], the counter of failed attempts grows, modulo [2^32],
    by the number of failed verdicts read meanwhile, and the registrations,
    the signal disposition and the wake pipe stay in place, and an error
    of the display stays. *)
Definition step (allowed : call -> bool) (p p' : process) : Prop :=
  (exists cs,
     trace p' = trace p ++ cs /\ forallb allowed cs = true /\
     to_uint32 (failed_attempts (state p')) =
     to_uint32 (failed_attempts (state p) + count_failed cs)) /\
  flags_step (state p) (state p') /\
  sigusr_handler p' = sigusr_handler p /\
  eventloop p' = eventloop p /\
  same_pipe (sigusr_fds p) (sigusr_fds p') /\
  (display_error p = true -> display_error p' = true).

(** The write end of the wake pipe exists and does not block. *)
Definition wake_pipe_nonblocking (p : process) : Prop :=
  exists fds, sigusr_fds p = Some fds /\ write_end_nonblock fds = true.

(** The process before the main loop, once the password buffer and the
    wake pipe exist: it has made no call of the loop or of the unlock, the
    run flag is clear and [SIGUSR1] has its default disposition. *)
Definition ready_to_lock (p : process) : Prop :=
  forallb setup_call (trace p) = true /\
  failed_attempts (state p) = 0 /\
  run_display (state p) = false /\
  sigusr_handler p = false /\
  eventloop p = [] /\
  wake_pipe_nonblocking p /\
  buffer (password (state p)) <> None.


(** The process ends, or waits, before the main loop. *)
Definition ends_before_loop (w : world) (o : outcome Z) : Prop :=
  (forall p, o <> Returned 0 p) /\
  forallb setup_call (trace (final o)) = true /\
  failed_attempts (state (final o)) = 0 /\
  run_display (state (final o)) = false /\
  sigusr_handler (final o) = false /\
  (password_buffer_created w = true ->
   In (PasswordBufferCreate 1024) (trace (final o)) ->
   buffer (password (state (final o))) <> None).

(** The process as it enters the main loop. *)
Definition loop_entry (p : process) : Prop :=
  forallb setup_call (trace p) = true /\
  failed_attempts (state p) = 0 /\
  run_display (state p) = true /\
  locked (state p) = true /\
  eventloop p = [CB_display_in; CB_comm_in; CB_term_in] /\
  sigusr_handler p = true /\
  wake_pipe_nonblocking p /\
  buffer (password (state p)) <> None.

(** The process when it has made the unlock request of main.c:959, which
    destroys the lock object, and called the last round trip. *)
Definition after_unlock (p : process) : process :=
  set_trace (trace p ++ [ExtSessionLockUnlockAndDestroy; WlDisplayRoundtrip])
    (set_state (set_ext_session_lock_v1 false (state p)) p).

(** From [p] to [p'] the counter of failed attempts has counted, modulo
    [2^32], the failed verdicts read; short of [2^32] it is their sum and
    has not decreased. *)
Definition counts_failed_verdicts (p p' : process) : Prop :=
  exists cs,
    trace p' = trace p ++ cs /\
    failed_attempts (state p') =
    to_uint32 (failed_attempts (state p) + count_failed cs) /\
    (failed_attempts (state p) + count_failed cs < 2 ^ 32 ->
     failed_attempts (state p') = failed_attempts (state p) + count_failed cs /\
     failed_attempts (state p) <= failed_attempts (state p')).

(** The main loop and what follows it. *)
Definition loop_and_unlock (w : world) : M Z :=
  run_display_loop (iterations w) ;; unlock_and_return w.

(** Every [loop_poll] of a stretch of the trace comes right after a
    [wl_display_flush]. *)
Fixpoint flushed_before_poll (cs : list call) : bool :=
  match cs with
  | [] => true
  | WlDisplayFlush :: cs' =>
      match cs' with
      | LoopPoll :: cs'' => flushed_before_poll cs''
      | _ => flushed_before_poll cs'
      end
  | LoopPoll :: _ => false
  | _ :: cs' => flushed_before_poll cs'
  end.


(** The run flag is clear if a verdict of success has been read. *)
Definition cleared_after_success (p : process) : Prop :=
  In (ReadCommReply true) (trace p) -> run_display (state p) = false.

(** A surface the compositor has configured. *)
Definition configured (surface : swaylock_surface) : Prop :=
  width surface <> 0 /\ height surface <> 0.

(* ===================================================================== *)
(** ** Sample inputs *)
(* ===================================================================== *)

(** A state in which a wrong password has just been reported, with the
    options as [main] initialises them, and an output of scale 1. *)
Definition state_after_wrong_password : swaylock_state :=
  set_auth_state AUTH_STATE_INVALID (set_args initial_args zero_state).

Definition surface_of_scale_1 : swaylock_surface :=
  set_scale 1 (set_height 1080 (set_width 1920 (calloc_surface 7))).

(** The process in the main loop, the lock held, after the user has typed
    ["abc"] and submitted it: a verdict is outstanding. *)
Definition process_validating : process :=
  mk_process
    (set_run_display true
      (set_locked true
        (set_ext_session_lock_v1 true
          (set_auth_state AUTH_STATE_VALIDATING
            (set_password (mk_password 3 1024 (Some "abc"))
              (set_surfaces [set_created true surface_of_scale_1]
                (set_args initial_args zero_state)))))))
    (Some (mk_pipe "" 65536 true)) true
    [CB_display_in; CB_comm_in; CB_term_in] [] false.

(** The same process after [UINT32_MAX] failed attempts. *)
Definition process_counter_max : process :=
  set_state (set_failed_attempts 4294967295 (state process_validating))
    process_validating.

(** A turn of the main loop in which nothing is readable and the delay of
    the idle timer has passed. *)
Definition turn_timer_only : iteration :=
  mk_iteration FLUSH_DONE 0 None None true.

(** A turn of the main loop in which [wl_display_flush] fails with an
    error other than [EAGAIN]. *)
Definition turn_flush_error : iteration :=
  mk_iteration FLUSH_ERROR 0 None None false.

(** A [parse_background_mode] that knows the modes of the usage text. *)
Definition sample_parse_background_mode (s : string) : background_mode :=
  if String.eqb s "stretch" then BACKGROUND_MODE_STRETCH
  else if String.eqb s "fill" then BACKGROUND_MODE_FILL
  else if String.eqb s "fit" then BACKGROUND_MODE_FIT
  else if String.eqb s "center" then BACKGROUND_MODE_CENTER
  else if String.eqb s "tile" then BACKGROUND_MODE_TILE
  else if String.eqb s "solid_color" then BACKGROUND_MODE_SOLID_COLOR
  else BACKGROUND_MODE_INVALID.

Definition sample_library : library :=
  mk_library sample_parse_background_mode (fun _ => 0) (fun _ => 0)
    (fun path => Some [path]) (fun _ => None).

(** A compositor that announces every global swaylock needs and one
    output. *)
Definition registry_globals : dispatch :=
  mk_dispatch
    [EV_global 1 wl_compositor_interface;
     EV_global 2 wl_subcompositor_interface;
     EV_global 3 wl_shm_interface;
     EV_global 4 wl_seat_interface;
     EV_global 5 wl_output_interface;
     EV_global 6 ext_session_lock_manager_v1_interface]
    false.

Definition output_announced : dispatch :=
  mk_dispatch [EV_output_scale 5 1; EV_output_name 5 "eDP-1"; EV_output_done 5]
    false.

Definition lock_granted : dispatch :=
  mk_dispatch [EV_lock_surface_configure 5 1 1920 1080; EV_lock_locked] false.

(** A world in which every call of the setup succeeds; the command line,
    what happens while [main] waits for the lock, and the turns of the main
    loop are left open. *)
Definition sample_world (argv : list long_option)
    (lock_dispatches : list dispatch) (iterations : list iteration) : world :=
  mk_world sample_library (1 + Z.of_nat (List.length argv)) argv None
    (fun _ => None) true (Some 65536) true true
    registry_globals output_announced lock_dispatches iterations
    (mk_dispatch [] false).

(** The connection to the compositor breaks while [main] waits for the
    lock. *)
Definition world_dispatch_fails : world :=
  sample_world [] [mk_dispatch [] true] [].


(** The user types a password, submits it, and the worker accepts it. *)
Definition turn_keys (keys : list keystroke) : iteration :=
  mk_iteration FLUSH_DONE 0 (Some (mk_dispatch (map EV_key keys) false)) None false.

Definition turn_verdict (b : Z) : iteration :=
  mk_iteration FLUSH_DONE 0 None (Some (READ_BYTE b)) false.

Definition world_unlocked (argv : list long_option) : world :=
  sample_world argv [lock_granted]
    [turn_keys [KEY_PRINTABLE "a" 100; KEY_PRINTABLE "b" 200; KEY_SUBMIT];
     turn_verdict 1].

(** The compositor sends no [scale] event for the output, grants the lock,
    and configures the lock surface of the output only when the unlock
    request has been made. *)
Definition world_late_configure : world :=
  mk_world sample_library 1 [] None (fun _ => None) true (Some 65536) true true
    registry_globals
    (mk_dispatch [EV_output_name 5 "eDP-1"; EV_output_done 5] false)
    [mk_dispatch [EV_lock_locked] false]
    [turn_keys [KEY_PRINTABLE "a" 100; KEY_PRINTABLE "b" 200; KEY_SUBMIT];
     turn_verdict 1]
    (mk_dispatch [EV_lock_surface_configure 5 1 1920 1080] false).

(** A turn of the main loop in which one [SIGUSR1] arrives and nothing
    else happens. *)
Definition turn_sigusr1 : iteration :=
  mk_iteration FLUSH_DONE 1 None None false.

(** Another lock screen is running: the compositor refuses the lock. *)
Definition lock_refused : dispatch :=
  mk_dispatch [EV_lock_finished] false.


(* ===================================================================== *)
(** ** Colors written in hexadecimal *)
(* ===================================================================== *)

(** The digit of a value below 16, in lower case. *)
Definition hex_char (d : Z) : ascii :=
  if d <? 10 then ascii_of_N (Z.to_N (48 + d)) else ascii_of_N (Z.to_N (87 + d)).

(** [v] written with [n] hexadecimal digits, the most significant first:
    the form [<rrggbb[aa]>] of the usage text for [n] of 6 and 8. *)
Fixpoint hex_string (n : nat) (v : Z) : string :=
  match n with
  | O => EmptyString
  | S n' => String (hex_char ((v / 16 ^ Z.of_nat n') mod 16)) (hex_string n' v)
  end.

(* ===================================================================== *)
(** ** The image list *)
(* ===================================================================== *)

(** No two images of the list are for the same output, and at most one is
    the default image. *)
Definition unique_outputs (images : list swaylock_image) : Prop :=
  NoDup (map image_output_name images).

(* ===================================================================== *)
(** ** [join_args] and the block it fills *)
(* ===================================================================== *)

(** The bytes the second loop writes: every argument followed by a
    space. *)
Definition spaced (argv : list string) : list ascii :=
  flat_map (fun arg => list_ascii_of_string arg ++ [" "%char]) argv.

(** A C string holds no NUL. *)
Definition no_nul (s : string) : Prop := ~ In zero (list_ascii_of_string s).

(* ===================================================================== *)
(** ** What a piece of code leaves as it is *)
(* ===================================================================== *)

(** A surface that has a frame callback outstanding when it is dirty:
    [surface_frame_handle_done] will then call [render_frame] for it. *)
Definition scheduled (surface : swaylock_surface) : Prop :=
  dirty surface = true -> frame_pending surface = true.

(** A relation between the states of the lock screen, read between two
    processes. *)
Definition on_state (S : swaylock_state -> swaylock_state -> Prop)
    (p p' : process) : Prop :=
  S (state p) (state p').

(** What holds between the state before and after any piece of code that
    runs once the options are parsed: the options and the images are the
    same, and the dirty surfaces keep their frame callbacks. *)
Definition run_effect (st st' : swaylock_state) : Prop :=
  args st' = args st /\
  images st' = images st /\
  (Forall scheduled (surfaces st) -> Forall scheduled (surfaces st')).

(** What holds between the state before and after any piece of code from
    the option parsing on. *)
Definition kept (st st' : swaylock_state) : Prop :=
  background (colors (args st')) = background (colors (args st)) /\
  (unique_outputs (images st) -> unique_outputs (images st')) /\
  (Forall scheduled (surfaces st) -> Forall scheduled (surfaces st')).

(** The process when [main] has initialised the options and the colors
    (main.c:806-828) and is about to parse the command line. *)
Definition process_configured : process :=
  mk_process
    (set_args (set_colors (set_default_colors (colors initial_args)) initial_args)
       (set_images [] (set_failed_attempts 0 zero_state)))
    None false [] [SwaylockLogInit; InitializePwBackend] false.

(* ===================================================================== *)
(** ** How a piece of code may end *)
(* ===================================================================== *)

(** [m] ends, when it does not wait, by returning a value in [R], by
    [exit] with a status in [X], or killed by a signal, in a process, in
    [K]. *)
Definition ends_in {A} (R : A -> Prop) (X : Z -> Prop)
    (K : signal -> process -> Prop) (m : M A) : Prop :=
  forall p,
    match m p with
    | Returned a _ => R a
    | Exited status _ => X status
    | Killed sig p' => K sig p'
    | Waiting _ => True
    end.

(** The process is killed by [SIGFPE] in a call of [render_frame], the
    last call it has made. *)
Definition in_render_frame (sig : signal) (p : process) : Prop :=
  sig = SIGFPE /\ exists tr output, trace p = tr ++ [RenderFrame output].



(** [m] returns, with [Q], or the process is killed in a call of
    [render_frame]. *)
Definition returns_or_killed {A} (Q : process -> Prop) (o : outcome A) : Prop :=
  match o with
  | Returned _ p' => Q p'
  | Killed sig p' => in_render_frame sig p'
  | Exited _ _ | Waiting _ => False
  end.

(* ===================================================================== *)
(** ** More sample inputs *)
(* ===================================================================== *)


(* ===================================================================== *)
(** ** The order of the requests for the lock *)
(* ===================================================================== *)

(** [m], started in a process that satisfies [P], returns in one that
    satisfies [Q]; when it exits or waits instead, [E] holds. *)
Definition hoare {A} (P : process -> Prop) (m : M A)
    (Q : A -> process -> Prop) (E : process -> Prop) : Prop :=
  forall p,
    P p ->
    match m p with
    | Returned a p' => Q a p'
    | Exited _ p' => E p'
    | Killed _ p' => E p'
    | Waiting p' => E p'
    end.

Definition not_lock_surface (c : call) : bool :=
  match c with
  | GetLockSurface _ => false
  | _ => true
  end.

(** Every request of a lock surface comes after the request of the
    lock. *)
Definition lock_first (tr : list call) : Prop :=
  forall before output after,
    tr = before ++ GetLockSurface output :: after ->
    In ExtSessionLockManagerLock before.

(** The process before [main] asks for the lock: no lock surface has been
    requested and the run flag is clear. *)
Definition before_lock_request (p : process) : Prop :=
  forallb not_lock_surface (trace p) = true /\
  run_display (state p) = false.

(** The process once [main] has asked for the lock. *)
Definition lock_requested (p : process) : Prop :=
  lock_first (trace p) /\ In ExtSessionLockManagerLock (trace p).

(* ===================================================================== *)
(** ** The two passes over the command line *)
(* ===================================================================== *)

(** The options for which the [switch] of [parse_options] has no [case]:
    [--help], [--color-background] and what [getopt_long] does not
    know. *)
Definition refused (c : long_option) : bool :=
  match c with
  | LO_HELP | LO_BACKGROUND_COLOR _ | LO_UNRECOGNIZED => true
  | _ => false
  end.

(** The argument of the last [--config] of a command line, [found] when
    there is none. *)
Fixpoint last_config (argv : list long_option) (found : option string)
    : option string :=
  match argv with
  | [] => found
  | LO_CONFIG optarg :: argv' => last_config argv' (Some optarg)
  | _ :: argv' => last_config argv' found
  end.

(* ===================================================================== *)
(** ** [render.c]: what a frame shows, and the background *)
(* ===================================================================== *)

(** The local [draw_indicator] of [render_frame] (render.c:127-130). *)
Definition draw_indicator (st : swaylock_state) : bool :=
  show_indicator (args st) &&
  (negb (auth_state_eqb (auth_state st) AUTH_STATE_IDLE) ||
   negb (input_state_eqb (input_state st) INPUT_STATE_IDLE) ||
   indicator_idle_visible (args st)).

(** The format of a line of the clock. *)
Definition line_format (st : swaylock_state) (line : text_line) : string :=
  match line with
  | FIRST_LINE => timestr (args st)
  | SECOND_LINE => datestr (args st)
  end.

Definition set_last_buffer_width (v : Z) (r : swaylock_surface) : swaylock_surface :=
  mk_surface (output_global_name r) (output_name r) (width r) (height r) (scale r) (subpixel r) (dirty r) (frame_pending r) (created r) (image r) v (last_buffer_height r).

Definition set_last_buffer_height (v : Z) (r : swaylock_surface) : swaylock_surface :=
  mk_surface (output_global_name r) (output_name r) (width r) (height r) (scale r) (subpixel r) (dirty r) (frame_pending r) (created r) (image r) (last_buffer_width r) v.

(** The requests of [render_frame_background] to cairo and to the
    compositor, all of them on [surface->surface]. *)
Module Background.

Inductive request :=
  | wl_surface_set_buffer_scale (factor : Z)
  | log_failed_to_create_buffer
  | cairo_set_antialias_best
  | cairo_save
  | cairo_set_operator_source
  | cairo_set_source_u32 (color : Z)
  | cairo_paint
  | cairo_set_operator_over
  | render_background_image (image : cairo_surface_t) (mode : background_mode)
      (buffer_width buffer_height : Z)
  | cairo_restore
  | cairo_identity_matrix
  | wl_surface_attach (b : pool_buffer)
  | wl_surface_damage_buffer
  | wl_surface_commit
  | destroy_buffer (b : pool_buffer).

End Background.

(** The locals [buffer_width] and [buffer_height] of
    [render_frame_background] (render.c:26-27): the product of a
    [uint32_t] and an [int32_t], stored in an [int]. *)
Definition background_buffer_width (surface : swaylock_surface) : Z :=
  int_mul (width surface) (scale surface).

Definition background_buffer_height (surface : swaylock_surface) : Z :=
  int_mul (height surface) (scale surface).

(** [render_frame_background] (render.c:23). [created] is the buffer that
    [create_buffer] makes, [None] when it fails. *)
Definition render_frame_background (st : swaylock_state)
    (surface : swaylock_surface) (created : option pool_buffer)
    : swaylock_surface * list Background.request :=
  let buffer_width := background_buffer_width surface in
  let buffer_height := background_buffer_height surface in
  if (buffer_width =? 0) || (buffer_height =? 0) then (surface, [])
  else
    if negb (buffer_width =? last_buffer_width surface)
       || negb (buffer_height =? last_buffer_height surface)
    then
      match created with
      | None =>
          (surface,
           [Background.wl_surface_set_buffer_scale (scale surface);
            Background.log_failed_to_create_buffer])
      | Some buffer =>
          (set_last_buffer_height buffer_height
             (set_last_buffer_width buffer_width surface),
           [Background.wl_surface_set_buffer_scale (scale surface);
            Background.cairo_set_antialias_best;
            Background.cairo_save;
            Background.cairo_set_operator_source;
            Background.cairo_set_source_u32 (background (colors (args st)));
            Background.cairo_paint]
           ++ match image surface with
              | Some img =>
                  if negb (background_mode_eqb (mode (args st))
                             BACKGROUND_MODE_SOLID_COLOR)
                  then [Background.cairo_set_operator_over;
                        Background.render_background_image img (mode (args st))
                          buffer_width buffer_height]
                  else []
              | None => []
              end
           ++ [Background.cairo_restore;
               Background.cairo_identity_matrix;
               Background.wl_surface_attach buffer;
               Background.wl_surface_damage_buffer;
               Background.wl_surface_commit;
               Background.destroy_buffer buffer])
      end
    else
      (surface,
       [Background.wl_surface_set_buffer_scale (scale surface);
        Background.wl_surface_commit]).

(** The background is painted anew. *)
Definition paints (requests : list Background.request) : bool :=
  existsb (fun r => match r with Background.cairo_paint => true | _ => false end)
    requests.

(* ===================================================================== *)
(** ** The search for the configuration file *)
(* ===================================================================== *)

(** What [get_config_path] meets outside the process: the value of
    [XDG_CONFIG_HOME] ([None] when it is not set), the first word of the
    expansion of a pattern by [wordexp] ([None] when [wordexp] fails), the
    files [access] finds readable, and the [SYSCONFDIR] of the build. *)
Record filesystem := mk_filesystem {
  xdg_config_home : option string;
  wordexp_first : string -> option string;
  access_r_ok : string -> bool;
  sysconfdir : string
}.

(** [file_exists] (main.c:679). *)
Definition file_exists (fs : filesystem) (path : option string) : bool :=
  match path with
  | Some path => access_r_ok fs path
  | None => false
  end.

(** The array [config_paths] of [get_config_path], after the test of
    [XDG_CONFIG_HOME] (main.c:684-693). *)
Definition config_paths (fs : filesystem) : list string :=
  ["$HOME/.swaylock/config";
   match xdg_config_home fs with
   | None | Some EmptyString => "$HOME/.config/swaylock/config"
   | Some _ => "$XDG_CONFIG_HOME/swaylock/config"
   end;
   (sysconfdir fs ++ "/swaylock/config")%string].

(** The [for] loop of [get_config_path] (main.c:697-706). *)
Fixpoint get_config_path_loop (fs : filesystem) (paths : list string)
    : option string :=
  match paths with
  | [] => None
  | pattern :: paths' =>
      match wordexp_first fs pattern with
      | Some path =>
          if file_exists fs (Some path) then Some path
          else get_config_path_loop fs paths'
      | None => get_config_path_loop fs paths'
      end
  end.

(** [get_config_path] (main.c:683). *)
Definition get_config_path (fs : filesystem) : option string :=
  get_config_path_loop fs (config_paths fs).

(** A file system with a configuration file in [~/.config] only. *)
Definition sample_filesystem : filesystem :=
  mk_filesystem (Some "")
    (fun pattern =>
       if String.eqb pattern "$HOME/.swaylock/config"
       then Some "/home/me/.swaylock/config"
       else if String.eqb pattern "$HOME/.config/swaylock/config"
       then Some "/home/me/.config/swaylock/config"
       else None)
    (String.eqb "/home/me/.config/swaylock/config")
    "/etc".

(** A library whose [load_background_image] loads every file. *)
Definition library_loading : library :=
  mk_library sample_parse_background_mode (fun _ => 0) (fun _ => 0)
    (fun path => Some [path]) (fun _ => Some 7%positive).

(** A surface whose buffer of 1920 by 1080 has been painted. *)
Definition surface_painted : swaylock_surface :=
  set_last_buffer_height 1080 (set_last_buffer_width 1920 surface_of_scale_1).

(* ===================================================================== *)
(** ** Opaque surfaces *)
(* ===================================================================== *)

(** What [cairo_surface_get_content] tells of an image. *)
Inductive cairo_content_t :=
  | CAIRO_CONTENT_COLOR
  | CAIRO_CONTENT_ALPHA
  | CAIRO_CONTENT_COLOR_ALPHA.

(** [surface_is_opaque] (main.c:85): [content] is the content of
    [surface->image], [None] when the surface has no image. *)
Definition surface_is_opaque (st : swaylock_state)
    (content : option cairo_content_t) : bool :=
  match content with
  | Some CAIRO_CONTENT_COLOR => true
  | Some _ => false
  | None => Z.land (background (colors (args st))) 0xff =? 0xff
  end.

(** The condition under which [create_surface] sets an opaque region
    (main.c:111-113). *)
Definition sets_opaque_region (st : swaylock_state)
    (content : option cairo_content_t) : bool :=
  surface_is_opaque st content
  && negb (background_mode_eqb (mode (args st)) BACKGROUND_MODE_CENTER)
  && negb (background_mode_eqb (mode (args st)) BACKGROUND_MODE_FIT).

(* ===================================================================== *)
(** * Properties *)
(* ===================================================================== *)

(** ** Image selection *)

Lemma strcmp_refl (a : string) : strcmp a a = 0.
Proof.
  induction a as [|c a IH]; simpl; [reflexivity|].
  now rewrite Z.eqb_refl.
Qed.

Lemma uchar_inj (c d : ascii) : uchar c = uchar d -> c = d.
Proof.
  unfold uchar. intros H. apply N2Z.inj in H.
  rewrite <- (ascii_N_embedding c), <- (ascii_N_embedding d).
  now rewrite H.
Qed.

Lemma strcmp_eq (a b : string) : strcmp a b = 0 -> a = b.
Proof.
  revert b. induction a as [|c a IH]; intros [|d b]; simpl; try discriminate.
  - reflexivity.
  - destruct (uchar c =? uchar d) eqn:E.
    + intros H. apply Z.eqb_eq, uchar_inj in E. subst d.
      now rewrite (IH b H).
    + destruct (uchar c <? uchar d); discriminate.
Qed.

Lemma strcmp_0_iff (a b : string) : strcmp a b = 0 <-> a = b.
Proof.
  split; [apply strcmp_eq|]. intros ->. apply strcmp_refl.
Qed.

Lemma lenient_strcmp_0_iff (a b : option string) :
  lenient_strcmp a b = 0 <-> a = b.
Proof.
  destruct a as [a|], b as [b|]; simpl; try (split; congruence); try easy.
  rewrite strcmp_0_iff. split; congruence.
Qed.

Lemma lenient_strcmp_key_is (image : swaylock_image) (name : string) :
  (lenient_strcmp (image_output_name image) (Some name) =? 0) = key_is name image.
Proof.
  unfold key_is. destruct (image_output_name image) as [k|]; simpl.
  - destruct (String.eqb_spec k name) as [->|Hne].
    + now rewrite strcmp_refl.
    + apply Z.eqb_neq. rewrite strcmp_0_iff. exact Hne.
  - reflexivity.
Qed.

Lemma find_last_default (images : list swaylock_image) (image : swaylock_image)
    (d : option cairo_surface_t) :
  match find is_default (rev images ++ [image]) with
  | Some f => Some (image_cairo_surface f)
  | None => d
  end =
  match find is_default (rev images) with
  | Some f => Some (image_cairo_surface f)
  | None => if is_default image then Some (image_cairo_surface image) else d
  end.
Proof.
  induction (rev images) as [|x xs IHx]; simpl.
  - destruct (is_default image); reflexivity.
  - destruct (is_default x); [reflexivity|exact IHx].
Qed.

(** Once the scan has passed an entry, the default it carries is the last
    keyless entry seen so far. *)
Lemma select_image_loop_spec (images : list swaylock_image) (name : string) :
  forall default_image,
    select_image_loop images (Some name) default_image =
    match find (key_is name) images with
    | Some exact => Some (image_cairo_surface exact)
    | None =>
        match find is_default (rev images) with
        | Some fallback => Some (image_cairo_surface fallback)
        | None => default_image
        end
    end.
Proof.
  induction images as [|image images IH]; intros default_image; simpl.
  - reflexivity.
  - rewrite lenient_strcmp_key_is, find_last_default.
    destruct (key_is name image) eqn:Hk; [reflexivity|].
    unfold is_default at 2.
    destruct (image_output_name image) as [k|]; rewrite IH; reflexivity.
Qed.

Lemma select_image_loop_unnamed (images : list swaylock_image) :
  forall default_image,
    select_image_loop images None default_image =
    match find is_default images with
    | Some fallback => Some (image_cairo_surface fallback)
    | None => default_image
    end.
Proof.
  induction images as [|image images IH]; intros default_image; simpl.
  - reflexivity.
  - unfold is_default at 1.
    destruct (image_output_name image) as [k|]; simpl; [apply IH|reflexivity].
Qed.

Example select_image_exact_after_default :
  select_image
    [mk_image "a.png" None 1%positive;
     mk_image "b.png" (Some "eDP-1") 2%positive;
     mk_image "c.png" (Some "HDMI-1") 3%positive]
    (Some "eDP-1") = Some 2%positive.
Proof. reflexivity. Qed.

Example select_image_fallback :
  select_image
    [mk_image "b.png" (Some "eDP-1") 2%positive;
     mk_image "a.png" None 1%positive]
    (Some "DP-3") = Some 1%positive.
Proof. reflexivity. Qed.

Example select_image_nothing :
  select_image [mk_image "b.png" (Some "eDP-1") 2%positive] (Some "DP-3") = None.
Proof. reflexivity. Qed.

(** C9. [select_image] is the lookup with precedence: for every image list
    and every output name, the first entry whose key equals the output's
    name is selected; when there is none, the (last) entry without a key is
    selected as the fallback; when there is neither, no image is selected.
    For an output that has no name yet, the (first) entry without a key is
    selected, if any. *)
Theorem select_image_precedence (images : list swaylock_image) :
  (forall name,
     select_image images (Some name) = lookup_with_precedence images name) /\
  select_image images None =
    option_map image_cairo_surface (find is_default images).
Proof.
  split.
  - intros name. unfold select_image, lookup_with_precedence.
    rewrite select_image_loop_spec.
    destruct (find (key_is name) images); [reflexivity|].
    destruct (find is_default (rev images)); reflexivity.
  - unfold select_image. rewrite select_image_loop_unnamed.
    destruct (find is_default images); reflexivity.
Qed.

(* ===================================================================== *)
(** ** The indicator gate of [render_frame] *)
(* ===================================================================== *)

Lemma auth_state_eqb_spec (a b : auth_state_t) :
  reflect (a = b) (auth_state_eqb a b).
Proof. destruct a, b; constructor; congruence. Qed.

Lemma input_state_eqb_spec (a b : input_state_t) :
  reflect (a = b) (input_state_eqb a b).
Proof. destruct a, b; constructor; congruence. Qed.

(** C10, as stated, fails when [get_next_buffer] has no buffer to give:
    the indicator is enabled and the authentication state is not idle, yet
    [render_frame] returns before it draws or commits anything. *)
Lemma render_frame_without_buffer :
  show_indicator (args state_after_wrong_password) = true /\
  auth_state state_after_wrong_password <> AUTH_STATE_IDLE /\
  draws_indicator
    (render_frame (fun fmt => fmt) state_after_wrong_password
       surface_of_scale_1 None) = false /\
  commits_frame
    (render_frame (fun fmt => fmt) state_after_wrong_password
       surface_of_scale_1 None) = false.
Proof. repeat split; discriminate. Qed.

(** C10 (amended). Whenever [get_next_buffer] gives a buffer, [render_frame]
    draws the indicator if and only if the show-indicator option is on and
    the authentication state is not idle, or the input state is not idle,
    or the indicator-idle-visible option is on; in either case the frame is
    committed. When there is no buffer, [render_frame] makes no request at
    all. *)
Theorem render_frame_draws_indicator
    (strftime : string -> string) (st : swaylock_state)
    (surface : swaylock_surface) (buffer : pool_buffer) :
  (draws_indicator (render_frame strftime st surface (Some buffer)) = true <->
   show_indicator (args st) = true /\
   (auth_state st <> AUTH_STATE_IDLE \/
    input_state st <> INPUT_STATE_IDLE \/
    indicator_idle_visible (args st) = true)) /\
  commits_frame (render_frame strftime st surface (Some buffer)) = true /\
  render_frame strftime st surface None = [].
Proof.
  unfold render_frame.
  destruct (if clock (args st) then timetext strftime st else (None, None))
    as [text_l1 text_l2].
  split; [|split].
  - destruct (show_indicator (args st)); simpl.
    + destruct (auth_state_eqb_spec (auth_state st) AUTH_STATE_IDLE) as [Ha|Ha];
      destruct (input_state_eqb_spec (input_state st) INPUT_STATE_IDLE) as [Hi|Hi];
      destruct (indicator_idle_visible (args st)); simpl;
        try (split; [intros _; split; [reflexivity|tauto] | reflexivity]).
      split; [discriminate|]. intros [_ [H|[H|H]]]; congruence.
    + split; [discriminate|]. intros [H _]. discriminate.
  - unfold commits_frame. rewrite !existsb_app. simpl.
    rewrite !orb_true_r. reflexivity.
  - reflexivity.
Qed.

(* ===================================================================== *)
(** ** Reasoning about pieces of code *)
(* ===================================================================== *)

Lemma flags_step_refl (st : swaylock_state) : flags_step st st.
Proof. unfold flags_step. tauto. Qed.

Lemma flags_step_trans (a b c : swaylock_state) :
  flags_step a b -> flags_step b c -> flags_step a c.
Proof.
  unfold flags_step. intros (R1 & L1 & E1 & B1 & C1) (R2 & L2 & E2 & B2 & C2).
  split; [auto|]. split; [auto|]. split; [congruence|]. split; auto.
Qed.

Lemma to_uint32_idem (z : Z) : to_uint32 (to_uint32 z) = to_uint32 z.
Proof. unfold to_uint32. apply Z.mod_mod. discriminate. Qed.

Lemma to_uint32_add_l (a b : Z) :
  to_uint32 (to_uint32 a + b) = to_uint32 (a + b).
Proof. unfold to_uint32. apply Zplus_mod_idemp_l. Qed.

Lemma to_uint32_small (z : Z) : 0 <= z < 2 ^ 32 -> to_uint32 z = z.
Proof. intros H. unfold to_uint32. now apply Z.mod_small. Qed.

Lemma to_uint32_bounds (z : Z) : 0 <= to_uint32 z < 2 ^ 32.
Proof. unfold to_uint32. apply Z.mod_pos_bound. reflexivity. Qed.

Lemma state_step_refl (st : swaylock_state) : state_step st st.
Proof. split; [reflexivity|apply flags_step_refl]. Qed.

Lemma same_pipe_refl (a : option pipe) : same_pipe a a.
Proof. destruct a; simpl; auto. Qed.

Lemma same_pipe_trans (a b c : option pipe) :
  same_pipe a b -> same_pipe b c -> same_pipe a c.
Proof.
  destruct a, b, c; simpl; try tauto.
  intros [-> ->] [-> ->]. auto.
Qed.

Lemma count_failed_app (cs cs' : list call) :
  count_failed (cs ++ cs') = count_failed cs + count_failed cs'.
Proof.
  unfold count_failed. rewrite filter_app, length_app. lia.
Qed.

Lemma count_failed_nonneg (cs : list call) : 0 <= count_failed cs.
Proof. unfold count_failed. lia. Qed.

(** A stretch of calls none of which is a failed verdict. *)
Lemma count_failed_none (allowed : call -> bool) (cs : list call) :
  (forall c, allowed c = true -> is_failed_verdict c = false) ->
  forallb allowed cs = true -> count_failed cs = 0.
Proof.
  intros Hsub Hcs. unfold count_failed.
  induction cs as [|c cs IH]; simpl in *; [reflexivity|].
  apply andb_true_iff in Hcs. destruct Hcs as [Hc Hcs].
  rewrite (Hsub c Hc). auto.
Qed.

Lemma step_refl (allowed : call -> bool) (p : process) : step allowed p p.
Proof.
  unfold step.
  split; [exists []; rewrite app_nil_r; unfold count_failed; simpl;
          rewrite Z.add_0_r; repeat split; reflexivity|].
  split; [apply flags_step_refl|].
  repeat split; auto using same_pipe_refl.
Qed.

Lemma step_trans (allowed : call -> bool) (p q r : process) :
  step allowed p q -> step allowed q r -> step allowed p r.
Proof.
  unfold step.
  intros ((cs1 & T1 & A1 & F1) & S1 & H1 & E1 & P1 & D1)
         ((cs2 & T2 & A2 & F2) & S2 & H2 & E2 & P2 & D2).
  split.
  - exists (cs1 ++ cs2). rewrite T2, T1, app_assoc. split; [reflexivity|].
    rewrite forallb_app, A1, A2, count_failed_app. split; [reflexivity|].
    rewrite F2, <- to_uint32_add_l, F1, to_uint32_add_l. f_equal. lia.
  - split; [eapply flags_step_trans; eauto|].
    repeat split; eauto using same_pipe_trans; congruence.
Qed.

(** When the counter starts in the range of its type, it ends as the sum
    modulo [2^32]. *)
Lemma step_failed_attempts (allowed : call -> bool) (p p' : process) :
  step allowed p p' -> counter_in_range (state p) ->
  exists cs,
    trace p' = trace p ++ cs /\ forallb allowed cs = true /\
    failed_attempts (state p') =
    to_uint32 (failed_attempts (state p) + count_failed cs).
Proof.
  intros ((cs & T & A & F) & (_ & _ & _ & _ & C) & _) Hp.
  exists cs. split; [exact T|]. split; [exact A|].
  rewrite <- F. symmetry. apply to_uint32_small. apply C. exact Hp.
Qed.

Lemma step_weaken (allowed allowed' : call -> bool) (p q : process) :
  (forall c, allowed c = true -> allowed' c = true) ->
  step allowed p q -> step allowed' p q.
Proof.
  unfold step. intros Hsub ((cs & T & A & F) & rest). split; [|exact rest].
  exists cs. split; [exact T|]. split; [|exact F].
  rewrite forallb_forall in *. auto.
Qed.

Lemma respects_weaken {A} (allowed allowed' : call -> bool) (m : M A) :
  (forall c, allowed c = true -> allowed' c = true) ->
  respects (step allowed) m -> respects (step allowed') m.
Proof. intros Hsub H p. eapply step_weaken; eauto. Qed.

Lemma bind_assoc {A B C} (m : M A) (f : A -> M B) (g : B -> M C) (p : process) :
  bind (bind m f) g p = bind m (fun x => bind (f x) g) p.
Proof. unfold bind. destruct (m p); reflexivity. Qed.

Lemma bind_unfold {A B} (m : M A) (k : A -> M B) (p : process) :
  bind m k p =
  match m p with
  | Returned a p' => k a p'
  | Exited status p' => Exited status p'
  | Killed sig p' => Killed sig p'
  | Waiting p' => Waiting p'
  end.
Proof. reflexivity. Qed.

Lemma bind_emit {B} (c : call) (k : unit -> M B) (p : process) :
  bind (emit c) k p = k tt (set_trace (trace p ++ [c]) p).
Proof. reflexivity. Qed.

Lemma bind_log {B} (i : log_importance) (msg : string) (k : unit -> M B)
    (p : process) :
  bind (swaylock_log i msg) k p =
  k tt (set_trace (trace p ++ [SwaylockLog i msg]) p).
Proof. reflexivity. Qed.

Lemma bind_modify {B} (f : swaylock_state -> swaylock_state)
    (k : unit -> M B) (p : process) :
  bind (modify f) k p = k tt (set_state (f (state p)) p).
Proof. reflexivity. Qed.

Lemma bind_get_state {B} (k : swaylock_state -> M B) (p : process) :
  bind get_state k p = k (state p) p.
Proof. reflexivity. Qed.

Lemma bind_ret {A B} (a : A) (k : A -> M B) (p : process) :
  bind (ret a) k p = k a p.
Proof. reflexivity. Qed.

(** A single call added to the trace is a [step]. *)
Lemma step_emit (allowed : call -> bool) (c : call) (p : process) :
  allowed c = true -> is_failed_verdict c = false ->
  step allowed p (set_trace (trace p ++ [c]) p).
Proof.
  intros Hc Hf. unfold step; simpl.
  split.
  - exists [c]. unfold count_failed. simpl. rewrite Hc, Hf. simpl.
    rewrite Z.add_0_r. repeat split; reflexivity.
  - split; [apply flags_step_refl|]. auto using same_pipe_refl.
Qed.

(** Calls added to the trace, none of them a failed verdict, and an
    assignment to the state that keeps the counter. *)
Lemma step_calls_state (allowed : call -> bool) (cs : list call)
    (st' : swaylock_state) (p : process) :
  forallb allowed cs = true -> count_failed cs = 0 ->
  state_step (state p) st' ->
  step allowed p (set_trace (trace p ++ cs) (set_state st' p)).
Proof.
  intros Hcs Hf [Hfa Hfl]. unfold step; simpl.
  split; [exists cs; rewrite Hf, Hfa, Z.add_0_r; repeat split; auto|].
  split; [exact Hfl|]. auto using same_pipe_refl.
Qed.

Section Respects.

Variable allowed : call -> bool.

Lemma respects_ret {A} (a : A) : respects (step allowed) (ret a).
Proof. intros p. apply step_refl. Qed.

Lemma respects_exit {A} (status : Z) : respects (step allowed) (@exit A status).
Proof. intros p. apply step_refl. Qed.

Lemma respects_kill {A} (sig : signal) : respects (step allowed) (@kill A sig).
Proof. intros p. apply step_refl. Qed.

Lemma respects_lift {A} (r : result A) : respects (step allowed) (lift r).
Proof. destruct r; intros p; apply step_refl. Qed.

Lemma respects_bind {A B} (m : M A) (k : A -> M B) :
  respects (step allowed) m ->
  (forall a, respects (step allowed) (k a)) ->
  respects (step allowed) (bind m k).
Proof.
  intros Hm Hk p. unfold bind. specialize (Hm p).
  destruct (m p) as [a p'|status p'|sig p'|p']; simpl in *; auto.
  eapply step_trans; [exact Hm|apply Hk].
Qed.

Lemma respects_emit_all (cs : list call) :
  forallb allowed cs = true -> count_failed cs = 0 ->
  respects (step allowed) (emit_all cs).
Proof.
  intros Hcs Hf p.
  replace (final (emit_all cs p))
    with (set_trace (trace p ++ cs) (set_state (state p) p))
    by (destruct p; reflexivity).
  apply step_calls_state; auto using state_step_refl.
Qed.

Lemma respects_emit (c : call) :
  allowed c = true -> is_failed_verdict c = false ->
  respects (step allowed) (emit c).
Proof. intros Hc Hf p. now apply step_emit. Qed.

Lemma respects_get_state : respects (step allowed) get_state.
Proof. intros p. apply step_refl. Qed.

Lemma respects_modify (f : swaylock_state -> swaylock_state) :
  (forall st, state_step st (f st)) -> respects (step allowed) (modify f).
Proof.
  intros Hf p.
  replace (final (modify f p))
    with (set_trace (trace p ++ []) (set_state (f (state p)) p))
    by (destruct p; simpl; now rewrite app_nil_r).
  apply step_calls_state; auto.
Qed.

Lemma respects_when (b : bool) (m : M unit) :
  respects (step allowed) m -> respects (step allowed) (when b m).
Proof. destruct b; simpl; auto using respects_ret. Qed.

End Respects.

(** The state is touched in a field that no [state_step] constrains. *)
Ltac field_step :=
  let st := fresh "st" in
  intros st; unfold state_step, flags_step, counter_in_range; simpl;
  repeat split; auto; try lia.

Ltac respects_step :=
  match goal with
  | |- respects _ (bind _ _) => apply respects_bind; [|intros ?]
  | |- respects _ (ret _) => apply respects_ret
  | |- respects _ (exit _) => apply respects_exit
  | |- respects _ (kill _) => apply respects_kill
  | |- respects _ (lift _) => apply respects_lift
  | |- respects _ get_state => apply respects_get_state
  | |- respects _ (when _ _) => apply respects_when
  | |- respects _ (emit _) => apply respects_emit; reflexivity
  | |- respects _ (swaylock_log _ _) => apply respects_emit; reflexivity
  | |- respects _ (modify _) => apply respects_modify; field_step
  | |- respects _ (set_arg _) => apply respects_modify; field_step
  | |- respects _ (if ?b then _ else _) => destruct b
  | |- respects _ (match ?x with _ => _ end) => destruct x
  end.

Ltac respects_auto := repeat respects_step.

(** *** Surfaces *)

Lemma event_calls_count (cs : list call) :
  forallb event_call cs = true -> count_failed cs = 0.
Proof.
  apply count_failed_none. intros c. destruct c; simpl; congruence.
Qed.

Ltac emit_event_calls H :=
  apply respects_emit_all; [exact H|apply event_calls_count; exact H].

Lemma damage_surface_calls (surface : swaylock_surface) :
  forallb event_call (snd (damage_surface surface)) = true.
Proof.
  unfold damage_surface.
  destruct ((width surface =? 0) || (height surface =? 0)); [reflexivity|].
  simpl. destruct (frame_pending surface); reflexivity.
Qed.

Lemma damage_surfaces_calls (surfaces : list swaylock_surface) :
  forallb event_call (snd (damage_surfaces surfaces)) = true.
Proof.
  induction surfaces as [|surface surfaces IH]; simpl; [reflexivity|].
  pose proof (damage_surface_calls surface) as H.
  destruct (damage_surface surface) as [s calls].
  destruct (damage_surfaces surfaces) as [ss calls']. simpl in *.
  now rewrite forallb_app, H, IH.
Qed.

Lemma respects_damage_state : respects (step event_call) damage_state.
Proof.
  unfold damage_state. apply respects_bind; [respects_auto|]. intros st.
  pose proof (damage_surfaces_calls (surfaces st)) as H.
  destruct (damage_surfaces (surfaces st)) as [ss calls]. simpl in H.
  respects_auto. emit_event_calls H.
Qed.

Lemma on_surface_calls (output : Z)
    (f : swaylock_surface -> swaylock_surface * list call)
    (surfaces : list swaylock_surface) :
  (forall s, forallb event_call (snd (f s)) = true) ->
  forallb event_call (snd (on_surface output f surfaces)) = true.
Proof.
  intros Hf. induction surfaces as [|surface surfaces IH]; simpl; [reflexivity|].
  destruct (output_global_name surface =? output).
  - specialize (Hf surface). destruct (f surface). exact Hf.
  - destruct (on_surface output f surfaces). exact IH.
Qed.

Lemma until_render_frame_calls (allowed : call -> bool) (calls : list call) :
  forallb allowed calls = true ->
  forallb allowed (until_render_frame calls) = true.
Proof.
  induction calls as [|c calls IH]; simpl; [reflexivity|].
  intros H. apply andb_true_iff in H. destruct H as [Hc Hcs].
  destruct c; simpl; rewrite Hc; auto.
Qed.

Lemma respects_with_surface (output : Z)
    (f : swaylock_state -> swaylock_surface -> swaylock_surface * list call) :
  (forall st s, forallb event_call (snd (f st s)) = true) ->
  respects (step event_call) (with_surface output f).
Proof.
  intros Hf. unfold with_surface. apply respects_bind; [respects_auto|].
  intros st.
  match goal with
  | |- context [on_surface output ?g (surfaces st)] =>
      assert (H : forallb event_call
                    (snd (on_surface output g (surfaces st))) = true);
      [|destruct (on_surface output g (surfaces st)) as [ss calls]]
  end.
  { apply on_surface_calls. intros s.
    match goal with |- context [if ?b then _ else _] => destruct b end;
      [apply until_render_frame_calls|]; apply Hf. }
  simpl in H. respects_auto. emit_event_calls H.
Qed.

Lemma remove_surface_calls (name : Z) (surfaces : list swaylock_surface) :
  forallb event_call (snd (remove_surface name surfaces)) = true.
Proof.
  induction surfaces as [|surface surfaces IH]; simpl; [reflexivity|].
  destruct (output_global_name surface =? name); [reflexivity|].
  destruct (remove_surface name surfaces). exact IH.
Qed.

Lemma create_surfaces_calls (st : swaylock_state)
    (surfaces : list swaylock_surface) :
  forallb event_call (snd (create_surfaces st surfaces)) = true.
Proof.
  induction surfaces as [|surface surfaces IH]; simpl; [reflexivity|].
  destruct (create_surfaces st surfaces). exact IH.
Qed.

(** *** Listeners *)

Lemma secret_append_allocated (c : ascii) (pw : swaylock_password) :
  buffer pw <> None -> buffer (secret_append c pw) <> None.
Proof. unfold secret_append. destruct (buffer pw); simpl; congruence. Qed.

Lemma secret_remove_last_allocated (pw : swaylock_password) :
  buffer pw <> None -> buffer (secret_remove_last pw) <> None.
Proof.
  unfold secret_remove_last. destruct (buffer pw) eqn:E; [|congruence].
  destruct (len pw =? 0); simpl; congruence.
Qed.

Lemma secret_clear_allocated (pw : swaylock_password) :
  buffer pw <> None -> buffer (secret_clear pw) <> None.
Proof. unfold secret_clear. destruct (buffer pw); simpl; congruence. Qed.

Lemma respects_swaylock_handle_key (k : keystroke) :
  respects (step event_call) (swaylock_handle_key k).
Proof.
  destruct k; simpl.
  - respects_auto; try apply respects_damage_state.
    apply secret_append_allocated.
  - respects_auto; try apply respects_damage_state.
    apply secret_remove_last_allocated.
  - apply respects_bind; [|intros _].
    { apply respects_modify. field_step. apply secret_clear_allocated. }
    apply respects_bind; [respects_auto|intros _].
    apply respects_bind; [|intros _; apply respects_damage_state].
    apply respects_modify. intros st.
    destruct (auth_state_eqb (auth_state st) AUTH_STATE_INVALID);
      [revert st; field_step|apply state_step_refl].
  - apply respects_bind; [respects_auto|intros st].
    destruct (auth_state_eqb (auth_state st) AUTH_STATE_VALIDATING);
      [apply respects_ret|].
    destruct ((len (password st) =? 0) && ignore_empty (args st));
      [apply respects_ret|].
    apply respects_bind; [apply respects_emit; reflexivity|intros _].
    apply respects_bind; [respects_auto|intros _].
    apply respects_damage_state.
Qed.

Lemma respects_handle_event (ev : wl_event) :
  respects (step event_call) (handle_event ev).
Proof.
  destruct ev; simpl.
  - destruct interface; simpl; respects_auto.
  - unfold handle_global_remove. apply respects_bind; [respects_auto|intros st].
    pose proof (remove_surface_calls name (surfaces st)) as H.
    destruct (remove_surface name (surfaces st)) as [ss calls]. simpl in H.
    respects_auto. emit_event_calls H.
  - apply respects_with_surface. intros st s. unfold handle_wl_output_geometry.
    destruct (run_display st); [apply damage_surface_calls|reflexivity].
  - apply respects_ret.
  - apply respects_with_surface. intros st s. unfold handle_wl_output_done.
    destruct (negb (created s) && run_display st); reflexivity.
  - apply respects_with_surface. intros st s. unfold handle_wl_output_scale.
    destruct (run_display st); [apply damage_surface_calls|reflexivity].
  - apply respects_with_surface. reflexivity.
  - apply respects_ret.
  - unfold ext_session_lock_v1_handle_locked. respects_auto.
  - unfold ext_session_lock_v1_handle_finished. respects_auto.
  - apply respects_with_surface. reflexivity.
  - apply respects_with_surface. intros st s. unfold surface_frame_handle_done.
    simpl. destruct (dirty s); reflexivity.
  - apply respects_swaylock_handle_key.
Qed.

Lemma respects_handle_events (evs : list wl_event) :
  respects (step event_call) (handle_events evs).
Proof.
  induction evs as [|ev evs IH]; simpl; [apply respects_ret|].
  apply respects_bind; [apply respects_handle_event|intros _; exact IH].
Qed.

(** *** Callbacks *)

Lemma damage_state_eq (p : process) :
  damage_state p =
  Returned tt
    (set_trace (trace p ++ snd (damage_surfaces (surfaces (state p))))
       (set_state
          (set_surfaces (fst (damage_surfaces (surfaces (state p)))) (state p))
          p)).
Proof.
  unfold damage_state, bind, get_state.
  destruct (damage_surfaces (surfaces (state p))) as [ss calls]. reflexivity.
Qed.


Lemma event_call_dispatch_call (c : call) :
  event_call c = true -> dispatch_call c = true.
Proof. unfold dispatch_call. intros ->. reflexivity. Qed.

Lemma dispatch_call_callback_call (c : call) :
  dispatch_call c = true -> callback_call c = true.
Proof. unfold callback_call. intros ->. reflexivity. Qed.

Lemma event_call_callback_call (c : call) :
  event_call c = true -> callback_call c = true.
Proof. auto using event_call_dispatch_call, dispatch_call_callback_call. Qed.

Lemma dispatch_call_setup_call (c : call) :
  dispatch_call c = true -> setup_call c = true.
Proof. destruct c; cbv; intros; congruence. Qed.

Lemma early_call_setup_call (c : call) :
  early_call c = true -> setup_call c = true.
Proof. destruct c; cbv; intros; congruence. Qed.

Lemma callback_call_loop_call (c : call) :
  callback_call c = true -> loop_call c = true.
Proof. unfold loop_call. intros ->. reflexivity. Qed.

Lemma respects_damage_state_cb : respects (step callback_call) damage_state.
Proof.
  eapply respects_weaken; [apply event_call_callback_call|].
  apply respects_damage_state.
Qed.

Lemma step_display_error (allowed : call -> bool) (p : process) :
  step allowed p (set_display_error true p).
Proof.
  unfold step; simpl.
  split; [exists []; rewrite app_nil_r; unfold count_failed; simpl;
          rewrite Z.add_0_r; repeat split; reflexivity|].
  split; [apply flags_step_refl|].
  repeat split; auto using same_pipe_refl.
Qed.

Lemma respects_dispatch_events (d : dispatch) :
  respects (step event_call) (dispatch_events d).
Proof.
  intros p. unfold dispatch_events.
  destruct (display_error p); [apply step_refl|].
  assert (H : respects (step event_call)
    (handle_events (delivered d) ;;
     if failed d
     then fun q => Returned true (set_display_error true q)
     else ret false)).
  { apply respects_bind; [apply respects_handle_events|].
    intros _. destruct (failed d); [|apply respects_ret].
    intros q. apply step_display_error. }
  apply H.
Qed.

Lemma respects_wl_display_dispatch (d : dispatch) :
  respects (step dispatch_call) (wl_display_dispatch d).
Proof.
  unfold wl_display_dispatch.
  apply respects_bind; [apply respects_emit; reflexivity|intros _].
  eapply respects_weaken; [apply event_call_dispatch_call|].
  apply respects_dispatch_events.
Qed.

Lemma respects_wl_display_roundtrip (d : dispatch) :
  respects (step dispatch_call) (wl_display_roundtrip d).
Proof.
  unfold wl_display_roundtrip.
  apply respects_bind; [apply respects_emit; reflexivity|intros _].
  eapply respects_weaken; [apply event_call_dispatch_call|].
  apply respects_dispatch_events.
Qed.

Lemma respects_display_in (d : dispatch) :
  respects (step callback_call) (display_in d).
Proof.
  unfold display_in.
  apply respects_bind; [|intros r; respects_auto].
  eapply respects_weaken; [apply dispatch_call_callback_call|].
  apply respects_wl_display_dispatch.
Qed.

Lemma read_comm_reply_eq (r : verdict_read) (p : process) :
  read_comm_reply r p =
  Returned (verdict_ok r)
    (set_trace
       (trace p ++
        ReadCommReply (verdict_ok r) ::
        match r with
        | READ_BYTE _ => []
        | READ_FAILED => [SwaylockLog LOG_ERROR "Failed to read pw result"]
        end) p).
Proof.
  destruct r; simpl; [reflexivity|].
  unfold bind, emit, swaylock_log, emit, ret. simpl.
  rewrite <- app_assoc. reflexivity.
Qed.

(** What [comm_in] does with a success and with a failure. *)
Lemma comm_in_ok (r : verdict_read) (p : process) :
  verdict_ok r = true ->
  comm_in r p =
  Returned tt
    (set_state (set_run_display false (state p))
       (set_trace (trace p ++ [ReadCommReply true]) p)).
Proof.
  intros Hr. unfold comm_in. rewrite bind_unfold, read_comm_reply_eq, Hr.
  destruct r; [reflexivity|discriminate].
Qed.

Lemma comm_in_failed (r : verdict_read) (p : process) :
  verdict_ok r = false ->
  exists log surfaces' calls,
    forallb event_call (log ++ calls) = true /\
    comm_in r p =
    Returned tt
      (set_trace (trace p ++ ReadCommReply false :: log ++ calls)
         (set_state
            (set_surfaces surfaces'
               (set_failed_attempts
                  (to_uint32 (failed_attempts (state p) + 1))
                  (set_auth_idle_timer true
                     (set_auth_state AUTH_STATE_INVALID (state p)))))
            p)) /\
    surfaces' = fst (damage_surfaces (surfaces (state p))) /\
    calls = snd (damage_surfaces (surfaces (state p))) /\
    log = match r with
          | READ_BYTE _ => []
          | READ_FAILED => [SwaylockLog LOG_ERROR "Failed to read pw result"]
          end.
Proof.
  intros Hr. unfold comm_in. rewrite bind_unfold, read_comm_reply_eq, Hr.
  unfold schedule_auth_idle. rewrite !bind_modify, damage_state_eq. simpl.
  eexists _, _, _. split; [|split; [|repeat split; reflexivity]].
  2:{ rewrite <- app_assoc. simpl. reflexivity. }
  rewrite forallb_app, damage_surfaces_calls. destruct r; reflexivity.
Qed.

(** The state after a failed verdict, seen from the state before. *)
Lemma failed_verdict_flags (st : swaylock_state)
    (surfaces' : list swaylock_surface) :
  flags_step st
    (set_surfaces surfaces'
       (set_failed_attempts (to_uint32 (failed_attempts st + 1))
          (set_auth_idle_timer true (set_auth_state AUTH_STATE_INVALID st)))).
Proof.
  unfold flags_step, counter_in_range; simpl.
  repeat split; auto; intros; apply to_uint32_bounds.
Qed.

Lemma respects_comm_in (r : verdict_read) :
  respects (step callback_call) (comm_in r).
Proof.
  intros p. destruct (verdict_ok r) eqn:Hr.
  - rewrite (comm_in_ok r p Hr). simpl.
    replace (set_state (set_run_display false (state p))
               (set_trace (trace p ++ [ReadCommReply true]) p))
      with (set_trace (trace p ++ [ReadCommReply true])
              (set_state (set_run_display false (state p)) p))
      by reflexivity.
    apply step_calls_state; [reflexivity|reflexivity|].
    generalize (state p). field_step.
  - destruct (comm_in_failed r p Hr) as (log & ss & calls & Hcs & E & _).
    rewrite E. unfold step; simpl. split.
    + eexists. split; [reflexivity|]. split.
      * simpl. rewrite forallb_forall in *. intros c Hc.
        apply event_call_callback_call. auto.
      * change (ReadCommReply false :: log ++ calls)
          with ([ReadCommReply false] ++ (log ++ calls)).
        rewrite count_failed_app, (event_calls_count _ Hcs), to_uint32_idem.
        reflexivity.
    + split; [apply failed_verdict_flags|]. auto using same_pipe_refl.
Qed.

Lemma respects_term_in : respects (step callback_call) term_in.
Proof. unfold term_in. respects_auto. Qed.

Lemma respects_set_auth_idle : respects (step callback_call) set_auth_idle.
Proof. unfold set_auth_idle. respects_auto. apply respects_damage_state_cb. Qed.

Lemma respects_invoke (it : iteration) (cb : callback) :
  respects (step callback_call) (invoke it cb).
Proof.
  unfold invoke. apply respects_bind; [apply respects_emit; reflexivity|intros _].
  destruct cb.
  - destruct (display_ready it); [apply respects_display_in|apply respects_ret].
  - destruct (comm_ready it); [apply respects_comm_in|apply respects_ret].
  - apply respects_term_in.
  - apply respects_set_auth_idle.
Qed.

Lemma respects_invoke_all (it : iteration) (cbs : list callback) :
  respects (step callback_call) (invoke_all it cbs).
Proof.
  induction cbs as [|cb cbs IH]; simpl; [apply respects_ret|].
  apply respects_bind; [apply respects_invoke|intros _; exact IH].
Qed.

Lemma respects_do_sigusr (allowed : call -> bool) :
  respects (step allowed) do_sigusr.
Proof.
  intros p. unfold do_sigusr.
  destruct (sigusr_fds p) as [fds|] eqn:E; [|apply step_refl].
  destruct (strlen (pipe_bytes fds) <? pipe_capacity fds).
  - unfold step; simpl.
    split; [exists []; rewrite app_nil_r; unfold count_failed; simpl;
            rewrite Z.add_0_r; repeat split; reflexivity|].
    split; [apply flags_step_refl|]. rewrite E. simpl. auto.
  - destruct (write_end_nonblock fds); apply step_refl.
Qed.

Lemma respects_deliver_signals (allowed : call -> bool) (n : nat) :
  respects (step allowed) (deliver_signals n).
Proof.
  induction n as [|n IH]; simpl; [apply respects_ret|].
  apply respects_bind; [|intros _; exact IH].
  intros p. unfold deliver_sigusr1.
  destruct (sigusr_handler p); [apply respects_do_sigusr|apply step_refl].
Qed.

Lemma respects_dispatch_ready (it : iteration) :
  respects (step callback_call) (dispatch_ready it).
Proof.
  intros p. unfold dispatch_ready.
  assert (H : respects (step callback_call)
    (invoke_all it (filter (ready it p) (eventloop p)) ;;
     st <- get_state ;;
     when (timer_expired it && auth_idle_timer st) (invoke it CB_set_auth_idle))).
  { apply respects_bind; [apply respects_invoke_all|intros _].
    apply respects_bind; [apply respects_get_state|intros st].
    apply respects_when, respects_invoke. }
  apply H.
Qed.

Lemma respects_loop_poll (it : iteration) :
  respects (step loop_call) (loop_poll it).
Proof.
  unfold loop_poll.
  apply respects_bind; [apply respects_emit; reflexivity|intros _].
  apply respects_bind; [apply respects_deliver_signals|intros _].
  eapply respects_weaken; [apply callback_call_loop_call|].
  apply respects_dispatch_ready.
Qed.

Lemma respects_run_display_loop (its : list iteration) :
  respects (step loop_call) (run_display_loop its).
Proof.
  induction its as [|it its IH]; intros p; simpl.
  - destruct (run_display (state p)); apply step_refl.
  - destruct (run_display (state p)); [|apply step_refl].
    assert (H : respects (step loop_call)
      (emit WlDisplayFlush ;;
       match flush it with
       | FLUSH_ERROR => ret tt
       | _ => loop_poll it ;; run_display_loop its
       end)).
    { apply respects_bind; [apply respects_emit; reflexivity|intros _].
      destruct (flush it); try apply respects_ret;
        (apply respects_bind; [apply respects_loop_poll|intros _; exact IH]). }
    apply H.
Qed.

(* ===================================================================== *)
(** ** A failed verdict *)
(* ===================================================================== *)

Lemma damage_surface_dirty (surface : swaylock_surface) :
  configured (fst (damage_surface surface)) ->
  dirty (fst (damage_surface surface)) = true /\
  frame_pending (fst (damage_surface surface)) = true.
Proof.
  unfold damage_surface, configured.
  destruct (width surface =? 0) eqn:W; simpl.
  - apply Z.eqb_eq in W. tauto.
  - destruct (height surface =? 0) eqn:H; simpl.
    + apply Z.eqb_eq in H. tauto.
    + destruct (frame_pending surface) eqn:F; simpl; auto.
Qed.

Lemma damage_surfaces_dirty (surfaces : list swaylock_surface) :
  Forall (fun s => configured s -> dirty s = true /\ frame_pending s = true)
    (fst (damage_surfaces surfaces)).
Proof.
  induction surfaces as [|surface surfaces IH]; simpl; [constructor|].
  pose proof (damage_surface_dirty surface) as H.
  destruct (damage_surface surface) as [s calls].
  destruct (damage_surfaces surfaces) as [ss calls']. simpl in *.
  constructor; assumption.
Qed.

(** A configured surface without a frame callback outstanding gets one,
    and its surface is committed. *)
Lemma damage_surfaces_requests (surfaces : list swaylock_surface)
    (s : swaylock_surface) :
  In s surfaces -> configured s -> frame_pending s = false ->
  exists before after,
    snd (damage_surfaces surfaces) =
    before ++ WlSurfaceFrame (output_global_name s)
           :: WlSurfaceCommit (output_global_name s) :: after.
Proof.
  intros Hin (Hw & Hh) Hf.
  induction surfaces as [|surface surfaces IH]; [contradiction|].
  simpl.
  destruct (damage_surface surface) as [s1 calls] eqn:E1.
  destruct (damage_surfaces surfaces) as [ss calls'] eqn:E2. simpl in *.
  destruct Hin as [->|Hin].
  - unfold damage_surface in E1.
    apply Z.eqb_neq in Hw, Hh. rewrite Hw, Hh in E1. simpl in E1.
    rewrite Hf in E1. inversion E1; subst.
    exists [], calls'. reflexivity.
  - destruct (IH Hin) as (before & after & ->).
    exists (calls ++ before), after. now rewrite <- app_assoc.
Qed.

(** Only the wake pipe is readable: every callback the turn invokes is
    [term_in], which touches the run flag alone. *)
Lemma invoke_all_term_in (it : iteration) (cbs : list callback) (p : process) :
  Forall (fun cb => cb = CB_term_in) cbs ->
  exists p',
    invoke_all it cbs p = Returned tt p' /\
    auth_idle_timer (state p') = auth_idle_timer (state p) /\
    failed_attempts (state p') = failed_attempts (state p).
Proof.
  revert p. induction cbs as [|cb cbs IH]; intros p Hall; simpl.
  - exists p. auto.
  - inversion Hall as [|? ? Hcb Hrest]; subst.
    unfold bind at 1. simpl.
    destruct (IH (set_state (set_run_display false (state p))
                    (set_trace (trace p ++ [Invoke CB_term_in]) p)) Hrest)
      as (p' & E & T & F).
    exists p'. auto.
Qed.

Lemma filter_ready_quiet (it : iteration) (p : process) :
  display_ready it = None -> comm_ready it = None ->
  Forall (fun cb => cb = CB_term_in) (filter (ready it p) (eventloop p)).
Proof.
  intros Hd Hc. apply Forall_forall. intros cb Hin.
  apply filter_In in Hin. destruct Hin as [_ Hr].
  destruct cb; simpl in Hr; rewrite ?Hd, ?Hc in Hr; congruence.
Qed.

(** A turn in which nothing but the timer is due runs its callback. *)
Lemma loop_poll_timer_only (p : process) :
  auth_idle_timer (state p) = true ->
  exists p'',
    loop_poll turn_timer_only p = Returned tt p'' /\
    auth_state (state p'') = AUTH_STATE_IDLE /\
    failed_attempts (state p'') = failed_attempts (state p).
Proof.
  intros Ht. unfold loop_poll, dispatch_ready, bind, emit. simpl.
  set (p0 := set_trace (trace p ++ [LoopPoll]) p).
  destruct (invoke_all_term_in turn_timer_only p0
              (filter_ready_quiet turn_timer_only p0 eq_refl eq_refl))
    as (p1 & E1 & T1 & F1).
  change (eventloop p0) with (eventloop p) in E1.
  rewrite E1. unfold get_state. rewrite T1. simpl. rewrite Ht. simpl.
  unfold invoke, set_auth_idle, bind, emit, modify. simpl.
  rewrite damage_state_eq. eexists. split; [reflexivity|].
  simpl. split; [reflexivity|]. exact F1.
Qed.

(** C1, as stated, fails: after a failed verdict the Secret Buffer still
    holds the three bytes it held before; and the increment of
    [failed_attempts] is the one of its type: at [UINT32_MAX] it gives 0,
    not one more. *)
Lemma comm_in_failure_keeps_secret :
  (exists p',
     comm_in (READ_BYTE 0) process_validating = Returned tt p' /\
     password (state p') = mk_password 3 1024 (Some "abc")) /\
  (exists p',
     comm_in (READ_BYTE 0) process_counter_max = Returned tt p' /\
     failed_attempts (state process_counter_max) = 4294967295 /\
     failed_attempts (state p') = 0).
Proof.
  split.
  - exists (final (comm_in (READ_BYTE 0) process_validating)).
    split; vm_compute; reflexivity.
  - exists (final (comm_in (READ_BYTE 0) process_counter_max)).
    split; [|split]; vm_compute; reflexivity.
Qed.

(** C1 (amended). When the verdict read from the channel is a failure,
    [comm_in] returns, having set the authentication state to invalid,
    armed the idle timer, incremented [failed_attempts] by one (in its
    type: from the maximum of the [uint] the increment gives 0, below the
    maximum it adds exactly one) and requested a redraw of every configured
    surface: each is dirty and has a frame callback outstanding, and for
    each that had none the callback is requested and the surface committed,
    these calls following the read of the verdict in the trace. It leaves
    the Secret Buffer and the run flag as they were and does not exit. A
    later turn of the loop in which the delay of the timer has passed takes
    the authentication state back to idle. *)
Theorem comm_in_failed_verdict (r : verdict_read) (p : process) :
  verdict_ok r = false ->
  exists p',
    comm_in r p = Returned tt p' /\
    auth_state (state p') = AUTH_STATE_INVALID /\
    failed_attempts (state p') = to_uint32 (failed_attempts (state p) + 1) /\
    (0 <= failed_attempts (state p) < 2 ^ 32 - 1 ->
     failed_attempts (state p') = failed_attempts (state p) + 1) /\
    auth_idle_timer (state p') = true /\
    trace p' =
      trace p ++
      ReadCommReply false ::
      match r with
      | READ_BYTE _ => []
      | READ_FAILED => [SwaylockLog LOG_ERROR "Failed to read pw result"]
      end ++ snd (damage_surfaces (surfaces (state p))) /\
    surfaces (state p') = fst (damage_surfaces (surfaces (state p))) /\
    Forall (fun s => configured s -> dirty s = true /\ frame_pending s = true)
      (surfaces (state p')) /\
    (forall s,
       In s (surfaces (state p)) -> configured s -> frame_pending s = false ->
       exists before after,
         snd (damage_surfaces (surfaces (state p))) =
         before ++ WlSurfaceFrame (output_global_name s)
                :: WlSurfaceCommit (output_global_name s) :: after) /\
    password (state p') = password (state p) /\
    run_display (state p') = run_display (state p) /\
    exists p'',
      loop_poll turn_timer_only p' = Returned tt p'' /\
      auth_state (state p'') = AUTH_STATE_IDLE /\
      failed_attempts (state p'') = failed_attempts (state p').
Proof.
  intros Hr.
  destruct (comm_in_failed r p Hr)
    as (log & ss & calls & _ & E & Hss & Hcalls & Hlog).
  rewrite E. eexists. split; [reflexivity|]. simpl.
  split; [reflexivity|]. split; [reflexivity|].
  split; [intros H; apply to_uint32_small; lia|].
  split; [reflexivity|]. split; [now subst|]. split; [exact Hss|].
  split; [subst ss; apply damage_surfaces_dirty|].
  split; [intros s; apply damage_surfaces_requests|].
  split; [reflexivity|]. split; [reflexivity|].
  apply loop_poll_timer_only. reflexivity.
Qed.

(* ===================================================================== *)
(** ** The option parser *)
(* ===================================================================== *)

Lemma respects_parse_color (color : string) :
  respects (step parse_call) (parse_color color).
Proof.
  unfold parse_color.
  match goal with |- respects _ (if ?b then _ else _) => destruct b end;
    respects_auto.
Qed.

Lemma respects_set_color (f : Z -> swaylock_colors -> swaylock_colors)
    (optarg : string) :
  respects (step parse_call) (set_color f optarg).
Proof.
  unfold set_color.
  apply respects_bind; [apply respects_parse_color|intros c]. respects_auto.
Qed.

Lemma respects_load_image (lib : library) (arg : string) :
  respects (step parse_call) (load_image lib arg).
Proof.
  unfold load_image. destruct (image_argument arg) as [output_name path].
  apply respects_bind; [apply respects_get_state|intros st].
  apply respects_bind;
    [apply respects_when; apply respects_emit; reflexivity|intros _].
  apply respects_bind; [apply respects_modify; field_step|intros _].
  apply respects_bind; [apply respects_lift|intros path'].
  destruct (load_background_image lib path'); respects_auto.
Qed.

Lemma respects_parse_options (lib : library) (argv : list long_option)
    (with_state : bool) :
  forall config_path,
    respects (step parse_call) (parse_options lib argv with_state config_path).
Proof.
  induction argv as [|c argv IH]; intros config_path; simpl.
  - apply respects_ret.
  - destruct c;
      repeat first
        [ apply IH
        | apply respects_set_color
        | apply respects_load_image
        | respects_step ].
Qed.

Lemma respects_load_config_lines (lib : library)
    (lines : list (list long_option)) :
  respects (step parse_call) (load_config_lines lib lines).
Proof.
  induction lines as [|line lines IH]; simpl; [apply respects_ret|].
  apply respects_bind; [respects_auto|intros _].
  apply respects_bind; [apply respects_parse_options|intros r].
  destruct (negb (fst r =? 0)); [apply respects_ret|exact IH].
Qed.

Lemma respects_load_config (lib : library)
    (config : option (list (list long_option))) :
  respects (step parse_call) (load_config lib config).
Proof.
  destruct config as [lines|]; simpl; [|respects_auto].
  apply respects_bind; [apply respects_load_config_lines|intros _].
  apply respects_ret.
Qed.

Lemma parse_color_returns (color : string) (p : process) :
  exists c p', parse_color color p = Returned c p'.
Proof.
  unfold parse_color.
  match goal with |- context [if ?b then _ else _] => destruct b end;
    eexists; eexists; reflexivity.
Qed.

(** [join_args] is left by the assertion or by a store outside the
    block, never by a division. *)
Lemma join_args_fault (argv : list string) (argc : Z) (sig : signal) :
  join_args argv argc = Fault sig -> sig = SIGABRT \/ sig = SIGSEGV.
Proof.
  unfold join_args. destruct (argc <=? 0); [intros E; inversion E; auto|].
  destruct (join_args_copy _ _ 0) as [[res len]|];
    [|intros E; inversion E; auto].
  destruct (store res (int_sub len 1) zero); intros E; inversion E; auto.
Qed.

Lemma expand_path_fault (lib : library) (path : string) (sig : signal) :
  expand_path lib path = Fault sig -> sig = SIGABRT \/ sig = SIGSEGV.
Proof.
  unfold expand_path. destruct (wordexp lib (escape_spaces path)) as [words|];
    [|discriminate].
  destruct (join_args words _) as [res|sig'] eqn:E.
  - destruct (c_string res); intros H; inversion H; auto.
  - intros H. inversion H; subst. eapply join_args_fault; eauto.
Qed.

(** [load_image] returns, unless [join_args] kills the process. *)
Lemma load_image_cases (lib : library) (arg : string) (p : process) :
  match load_image lib arg p with
  | Returned _ _ => True
  | Killed sig _ => sig = SIGABRT \/ sig = SIGSEGV
  | Exited _ _ | Waiting _ => False
  end.
Proof.
  unfold load_image. destruct (image_argument arg) as [output_name path].
  rewrite bind_get_state.
  destruct (existsb (same_output output_name) (images (state p))); simpl;
    rewrite ?bind_log, ?bind_ret, bind_modify, bind_unfold;
    (destruct (expand_path lib path) as [path'|sig] eqn:E; simpl;
     [destruct (load_background_image lib path'); exact I
     |eapply expand_path_fault; eauto]).
Qed.

(** The parser ends in one of four ways: it returns [0], it returns [1],
    [--version] ends the process with status [0], or [join_args] kills the
    process under an [--image] option. It never waits. *)
Lemma parse_options_cases (lib : library) (argv : list long_option)
    (with_state : bool) :
  forall config_path p,
    match parse_options lib argv with_state config_path p with
    | Returned r p' =>
        (fst r = 0 /\
         ~ In LO_UNRECOGNIZED argv /\
         (with_state = true ->
          forall optarg, In (LO_BACKGROUND_MODE optarg) argv ->
                         parse_background_mode lib optarg <> BACKGROUND_MODE_INVALID))
        \/
        (fst r = 1 /\ (with_state = false -> In PrintUsage (trace p')))
    | Exited status p' => status = 0 /\ In PrintVersion (trace p')
    | Killed sig _ =>
        with_state = true /\ (sig = SIGABRT \/ sig = SIGSEGV) /\
        exists optarg, In (LO_IMAGE optarg) argv
    | Waiting _ => False
    end.
Proof.
  induction argv as [|c argv IH]; intros config_path p.
  - simpl. left. split; [reflexivity|]. split; [intros []|intros _ optarg []].
  - assert (Hcons : forall config_path' p',
      (forall optarg, c = LO_BACKGROUND_MODE optarg -> with_state = true ->
         parse_background_mode lib optarg <> BACKGROUND_MODE_INVALID) ->
      c <> LO_UNRECOGNIZED ->
      match parse_options lib argv with_state config_path' p' with
      | Returned r p' =>
          (fst r = 0 /\
           ~ In LO_UNRECOGNIZED (c :: argv) /\
           (with_state = true ->
            forall optarg, In (LO_BACKGROUND_MODE optarg) (c :: argv) ->
              parse_background_mode lib optarg <> BACKGROUND_MODE_INVALID))
          \/
          (fst r = 1 /\ (with_state = false -> In PrintUsage (trace p')))
      | Exited status p' => status = 0 /\ In PrintVersion (trace p')
      | Killed sig _ =>
          with_state = true /\ (sig = SIGABRT \/ sig = SIGSEGV) /\
          exists optarg, In (LO_IMAGE optarg) (c :: argv)
      | Waiting _ => False
      end).
    { intros config_path' p' Hmode Hc. specialize (IH config_path' p').
      destruct (parse_options lib argv with_state config_path' p')
        as [r q|status q|sig q|q]; auto.
      - destruct IH as [(H0 & Hu & Hm)|H1]; [left|right; exact H1].
        split; [exact H0|]. split.
        + intros [E|E]; [congruence|contradiction].
        + intros Hs optarg [E|E]; [subst c; eauto|eauto].
      - destruct IH as (Hs & Hsig & optarg & Hin).
        split; [exact Hs|]. split; [exact Hsig|].
        exists optarg. right. exact Hin. }
    destruct c; simpl; unfold set_color, when, set_arg;
      try (destruct with_state;
           unfold bind, modify, emit, exit, ret; simpl;
           repeat match goal with
                  | |- context [parse_color ?s ?q] =>
                      destruct (parse_color_returns s q) as (? & ? & ->)
                  end;
           apply Hcons; congruence);
      unfold bind, modify, emit, exit, ret; simpl;
      try (right; simpl; split; [reflexivity|];
           intros _; apply in_or_app; right; left; reflexivity).
    + split; [reflexivity|]. apply in_or_app. right. left. reflexivity.
    + destruct with_state; [|apply Hcons; congruence].
      pose proof (load_image_cases lib optarg p) as Hl.
      destruct (load_image lib optarg p) as [[] q|status q|sig q|q];
        try contradiction.
      * apply Hcons; congruence.
      * split; [reflexivity|]. split; [exact Hl|].
        exists optarg. left. reflexivity.
    + destruct with_state; simpl; [|apply Hcons; congruence].
      destruct (background_mode_eqb (parse_background_mode lib optarg)
                  BACKGROUND_MODE_INVALID) eqn:E.
      * right. simpl. split; [reflexivity|discriminate].
      * apply Hcons; [|congruence]. intros o Ho _. inversion Ho; subst o.
        intros Hinv. rewrite Hinv in E. discriminate.
Qed.

Lemma load_config_lines_cases (lib : library) (lines : list (list long_option)) :
  forall p,
    match load_config_lines lib lines p with
    | Returned _ _ => True
    | Exited status p' => status = 0 /\ In PrintVersion (trace p')
    | Killed sig _ => sig = SIGABRT \/ sig = SIGSEGV
    | Waiting _ => False
    end.
Proof.
  induction lines as [|line lines IH]; intros p; simpl; [exact I|].
  unfold bind at 1. unfold swaylock_log, emit. unfold bind at 1.
  match goal with
  | |- context [parse_options lib line true None ?q] =>
      pose proof (parse_options_cases lib line true None q) as H;
      destruct (parse_options lib line true None q) as [r p'|status p'|sig p'|p']
  end; auto; [|tauto].
  destruct (negb (fst r =? 0)); [exact I|apply IH].
Qed.

Lemma load_config_cases (lib : library)
    (config : option (list (list long_option))) (p : process) :
  match load_config lib config p with
  | Returned status _ => status = 0
  | Exited status p' => status = 0 /\ In PrintVersion (trace p')
  | Killed sig _ => sig = SIGABRT \/ sig = SIGSEGV
  | Waiting _ => False
  end.
Proof.
  destruct config as [lines|]; simpl; [|reflexivity].
  unfold bind. pose proof (load_config_lines_cases lib lines p) as H.
  destruct (load_config_lines lib lines p); auto. reflexivity.
Qed.

Lemma parse_call_early_call (c : call) :
  parse_call c = true -> early_call c = true.
Proof. unfold early_call. intros ->. reflexivity. Qed.

(** How the parsing part of [main] ends: the options are in order and
    [main] goes on to set up the password buffer; or an option was refused
    in the first pass, with the usage printed; or a background mode was
    refused in the second pass; or [--version] ended the process; or
    [join_args] killed the process while an image was loaded. So far the
    process has made calls of the parser only. *)
Lemma main_parse_phase (w : world) :
  exists p,
    step early_call process_start p /\
    ((run w = setup_and_lock w p /\
      ~ In LO_UNRECOGNIZED (argv w) /\
      (argc w > 1 ->
       forall optarg, In (LO_BACKGROUND_MODE optarg) (argv w) ->
         parse_background_mode (lib w) optarg <> BACKGROUND_MODE_INVALID)) \/
     (run w = Returned 1 p /\ In PrintUsage (trace p)) \/
     (run w = Returned 1 p /\ ~ In LO_UNRECOGNIZED (argv w)) \/
     (run w = Exited 0 p /\ In PrintVersion (trace p)) \/
     (exists sig,
        run w = Killed sig p /\ (sig = SIGABRT \/ sig = SIGSEGV) /\
        ~ In LO_UNRECOGNIZED (argv w))).
Proof.
  set (Q := fun o : outcome Z => exists p,
    step early_call process_start p /\
    ((o = setup_and_lock w p /\
      ~ In LO_UNRECOGNIZED (argv w) /\
      (argc w > 1 ->
       forall optarg, In (LO_BACKGROUND_MODE optarg) (argv w) ->
         parse_background_mode (lib w) optarg <> BACKGROUND_MODE_INVALID)) \/
     (o = Returned 1 p /\ In PrintUsage (trace p)) \/
     (o = Returned 1 p /\ ~ In LO_UNRECOGNIZED (argv w)) \/
     (o = Exited 0 p /\ In PrintVersion (trace p)) \/
     (exists sig,
        o = Killed sig p /\ (sig = SIGABRT \/ sig = SIGSEGV) /\
        ~ In LO_UNRECOGNIZED (argv w)))).
  change (Q (run w)).
  unfold run, main, set_arg.
  rewrite !bind_emit, !bind_modify.
  match goal with
  | |- context [bind (parse_options ?l ?a false ?c) _ ?q] => set (p1 := q)
  end.
  assert (S1 : step early_call process_start p1).
  { unfold step; simpl. split; [exists [SwaylockLogInit; InitializePwBackend]; auto|].
    unfold flags_step, counter_in_range; simpl. repeat split; auto; lia. }
  clearbody p1. rewrite bind_unfold.
  pose proof (parse_options_cases (lib w) (argv w) false (Some None) p1) as C1.
  pose proof (respects_parse_options (lib w) (argv w) false (Some None) p1) as R1.
  destruct (parse_options (lib w) (argv w) false (Some None) p1)
    as [r p2|status p2|sig p2|p2]; simpl in R1; [| | |contradiction].
  2:{ exists p2. split.
      - eapply step_trans; [exact S1|].
        eapply step_weaken; [apply parse_call_early_call|exact R1].
      - right. right. right. left. destruct C1 as [-> Hv]. auto. }
  2:{ destruct C1 as (C1 & _). discriminate. }
  destruct r as [r0 cp]. simpl in C1.
  assert (S2 : step early_call process_start p2).
  { eapply step_trans; [exact S1|].
    eapply step_weaken; [apply parse_call_early_call|exact R1]. }
  destruct C1 as [(E0 & Hunrec & _)|(E1 & Husage)].
  2:{ exists p2. split; [exact S2|]. right. left.
      subst r0. simpl. split; [reflexivity|auto]. }
  subst r0. cbn [fst snd]. change (negb (0 =? 0)) with false. cbv iota.
  rewrite bind_unfold.
  match goal with
  | |- context [match ?m p2 with _ => _ end] => set (cfg := m)
  end.
  assert (Ccfg :
    match cfg p2 with
    | Returned status _ => status = 0
    | Exited status p' => status = 0 /\ In PrintVersion (trace p')
    | Killed sig _ => sig = SIGABRT \/ sig = SIGSEGV
    | Waiting _ => False
    end /\ step early_call p2 (final (cfg p2))).
  { subst cfg.
    destruct (match cp with
              | Some (Some path) => Some path
              | _ => default_config_path w
              end) as [path|].
    - rewrite bind_log.
      match goal with
      | |- context [load_config ?l ?c ?q] =>
          pose proof (load_config_cases l c q) as Hc;
          pose proof (respects_load_config l c q) as Hr;
          set (q0 := q) in *
      end.
      split; [destruct (load_config (lib w) (config_file w path) q0); auto|].
      eapply step_trans;
        [|eapply step_weaken; [apply parse_call_early_call|exact Hr]].
      subst q0. now apply step_emit.
    - simpl. split; [reflexivity|apply step_refl]. }
  destruct Ccfg as [Ccfg Scfg].
  destruct (cfg p2) as [status p3|status p3|sig p3|p3]; simpl in Scfg;
    [| | |contradiction].
  2:{ exists p3. split; [eapply step_trans; eauto|].
      right. right. right. left. destruct Ccfg as [-> Hv]. auto. }
  2:{ exists p3. split; [eapply step_trans; eauto|].
      right. right. right. right. exists sig. auto. }
  subst status. change (negb (0 =? 0)) with false. cbv iota.
  assert (S3 : step early_call process_start p3) by (eapply step_trans; eauto).
  destruct (argc w >? 1) eqn:Hargc.
  - rewrite bind_unfold, bind_log, bind_unfold.
    match goal with
    | |- context [parse_options ?l ?a true None ?q] =>
        pose proof (parse_options_cases l a true None q) as C2;
        pose proof (respects_parse_options l a true None q) as R2;
        set (q0 := q) in *
    end.
    assert (S4 : step early_call process_start q0).
    { eapply step_trans; [exact S3|]. subst q0. now apply step_emit. }
    destruct (parse_options (lib w) (argv w) true None q0)
      as [r2 p4|status p4|sig p4|p4]; simpl in R2; [| | |contradiction].
    2:{ exists p4. split.
        - eapply step_trans; [exact S4|].
          eapply step_weaken; [apply parse_call_early_call|exact R2].
        - right. right. right. left. destruct C2 as [-> Hv]. auto. }
    2:{ exists p4. split.
        - eapply step_trans; [exact S4|].
          eapply step_weaken; [apply parse_call_early_call|exact R2].
        - right. right. right. right. exists sig.
          destruct C2 as (_ & Hsig & _). auto. }
    assert (S5 : step early_call process_start p4).
    { eapply step_trans; [exact S4|].
      eapply step_weaken; [apply parse_call_early_call|exact R2]. }
    destruct r2 as [r2 cp2]. simpl in C2. unfold ret. cbn [fst].
    destruct C2 as [(E2 & _ & Hmode)|(E2 & _)]; subst r2.
    + change (negb (0 =? 0)) with false. cbv iota.
      exists p4. split; [exact S5|].
      left. split; [reflexivity|]. split; [exact Hunrec|]. intros _. auto.
    + change (negb (1 =? 0)) with true. cbv iota.
      exists p4. split; [exact S5|]. right. right. left. auto.
  - rewrite bind_ret. change (negb (0 =? 0)) with false. cbv iota.
    exists p3. split; [exact S3|]. left.
    split; [reflexivity|]. split; [exact Hunrec|].
    intros Hgt. rewrite Z.gtb_ltb in Hargc. apply Z.ltb_ge in Hargc. lia.
Qed.

(* ===================================================================== *)
(** ** From the password buffer to the main loop *)
(* ===================================================================== *)

Lemma respects_wait_for_lock (dispatches : list dispatch) :
  respects (step dispatch_call) (wait_for_lock dispatches).
Proof.
  induction dispatches as [|d dispatches IH]; intros p; simpl.
  - destruct (locked (state p)); apply step_refl.
  - destruct (locked (state p)); [apply step_refl|].
    assert (H : respects (step dispatch_call)
      (r <- wl_display_dispatch d ;;
       if r then
         swaylock_log LOG_ERROR "wl_display_dispatch() failed" ;; ret true
       else wait_for_lock dispatches)).
    { apply respects_bind; [apply respects_wl_display_dispatch|intros r].
      destruct r; [respects_auto|exact IH]. }
    apply H.
Qed.

Lemma wait_for_lock_locked (dispatches : list dispatch) :
  forall p p',
    wait_for_lock dispatches p = Returned false p' ->
    locked (state p') = true.
Proof.
  induction dispatches as [|d dispatches IH]; intros p p'; simpl.
  - destruct (locked (state p)) eqn:L; [|discriminate].
    intros E. inversion E; subst. exact L.
  - destruct (locked (state p)) eqn:L.
    + intros E. inversion E; subst. exact L.
    + rewrite bind_unfold.
      destruct (wl_display_dispatch d p) as [r q|status q|sig q|q]; try discriminate.
      destruct r; [rewrite bind_log; discriminate|apply IH].
Qed.

Lemma setup_calls_count (cs : list call) :
  forallb setup_call cs = true -> count_failed cs = 0.
Proof.
  apply count_failed_none. intros c. destruct c; simpl; congruence.
Qed.

Lemma ready_to_lock_step (allowed : call -> bool) (p p' : process) :
  (forall c, allowed c = true -> setup_call c = true) ->
  ready_to_lock p -> step allowed p p' -> ready_to_lock p'.
Proof.
  intros Hsub (T & Z0 & R & H & E & (fds & F & N) & B) S.
  assert (Hrange : counter_in_range (state p)).
  { unfold counter_in_range. rewrite Z0. split; [lia|reflexivity]. }
  destruct (step_failed_attempts S Hrange) as (cs & Tcs & Acs & Fcs).
  destruct S as (_ & (SR & _ & _ & SB & _) & SH & SE & SP & _).
  assert (Scs : forallb setup_call cs = true).
  { rewrite forallb_forall in *. auto. }
  unfold ready_to_lock. repeat split; auto; try congruence.
  - rewrite Tcs, forallb_app, T, Scs. reflexivity.
  - rewrite Fcs, Z0, (setup_calls_count _ Scs). reflexivity.
  - rewrite F in SP. unfold wake_pipe_nonblocking.
    destruct (sigusr_fds p') as [fds'|]; [|contradiction].
    exists fds'. split; [reflexivity|]. destruct SP as [_ ->]. exact N.
Qed.

Lemma ready_to_lock_ends (w : world) (o : outcome Z) :
  (forall p, o <> Returned 0 p) ->
  ready_to_lock (final o) -> ends_before_loop w o.
Proof.
  intros Hne (T & Z0 & R & H & _ & _ & B). unfold ends_before_loop. auto 10.
Qed.

Lemma create_all_surfaces_eq (p : process) :
  create_all_surfaces p =
  Returned tt
    (set_trace
       (trace p ++ snd (create_surfaces (state p) (surfaces (state p))))
       (set_state
          (set_surfaces
             (fst (create_surfaces (state p) (surfaces (state p)))) (state p))
          p)).
Proof.
  unfold create_all_surfaces. rewrite bind_get_state.
  destruct (create_surfaces (state p) (surfaces (state p))) as [ss calls].
  reflexivity.
Qed.

Lemma respects_create_all_surfaces :
  respects (step dispatch_call) create_all_surfaces.
Proof.
  intros p. rewrite create_all_surfaces_eq.
  pose proof (create_surfaces_calls (state p) (surfaces (state p))) as H.
  apply step_calls_state.
  - rewrite forallb_forall in *. intros c Hc.
    apply event_call_dispatch_call. auto.
  - now apply event_calls_count.
  - generalize (state p). field_step.
Qed.

(** The lock is requested after the buffer and the pipe are in place; the
    process either ends before the main loop or enters it holding the
    lock, with the three callbacks registered in the order display,
    verdict, wake pipe, and the signal handler installed. *)
Lemma lock_phase (w : world) (p : process) :
  ready_to_lock p ->
  ends_before_loop w (lock_and_run w p) \/
  exists p0, loop_entry p0 /\ lock_and_run w p = loop_and_unlock w p0.
Proof.
  intros Hp.
  set (Q := fun o : outcome Z =>
    ends_before_loop w o \/
    exists p0, loop_entry p0 /\ o = loop_and_unlock w p0).
  change (Q (lock_and_run w p)). unfold lock_and_run.
  rewrite bind_emit, bind_modify, bind_unfold.
  match goal with
  | |- context [wl_display_roundtrip ?d ?q] =>
      assert (H1 : ready_to_lock q);
      [|pose proof (respects_wl_display_roundtrip d q) as R1; set (p1 := q) in *]
  end.
  { destruct Hp as (T & Z0 & R & H & E & (fds & F & N) & B).
    unfold ready_to_lock; simpl. repeat split; auto.
    - rewrite forallb_app, T. reflexivity.
    - exists fds. auto. }
  clearbody p1.
  destruct (wl_display_roundtrip (roundtrip_lock w) p1) as [r p2|status p2|sig p2|p2];
    simpl in R1;
    pose proof (ready_to_lock_step dispatch_call_setup_call H1 R1) as H2;
    try (left; apply ready_to_lock_ends; [discriminate|exact H2]).
  destruct r; [left; apply ready_to_lock_ends; [discriminate|exact H2]|].
  rewrite bind_unfold.
  pose proof (respects_create_all_surfaces p2) as R3.
  rewrite create_all_surfaces_eq in *. simpl in R3.
  match type of R3 with step _ _ ?q => set (p3 := q) in * end.
  pose proof (ready_to_lock_step dispatch_call_setup_call H2 R3) as H3.
  clearbody p3. rewrite bind_unfold.
  pose proof (respects_wait_for_lock (lock_dispatches w) p3) as R4.
  pose proof (wait_for_lock_locked (lock_dispatches w) p3) as L4.
  destruct (wait_for_lock (lock_dispatches w) p3) as [gave_up p4|status p4|sig p4|p4];
    simpl in R4;
    pose proof (ready_to_lock_step dispatch_call_setup_call H3 R4) as H4;
    try (left; apply ready_to_lock_ends; [discriminate|exact H4]).
  destruct gave_up; [left; apply ready_to_lock_ends; [discriminate|exact H4]|].
  specialize (L4 p4 eq_refl).
  right. unfold loop_add_fd.
  rewrite !bind_unfold. simpl.
  eexists. split; [|unfold loop_and_unlock; rewrite bind_unfold; reflexivity].
  destruct H4 as (T & Z0 & R & H & E4 & (fds & F & N) & B).
  unfold loop_entry; simpl. rewrite E4. repeat split; auto.
  - rewrite !forallb_app, T. reflexivity.
  - exists fds. auto.
Qed.


Lemma step_from_start (p : process) :
  step early_call process_start p ->
  forallb setup_call (trace p) = true /\
  failed_attempts (state p) = 0 /\
  run_display (state p) = false /\
  sigusr_handler p = false /\
  eventloop p = [].
Proof.
  intros Hs.
  assert (Hrange : counter_in_range (state process_start)).
  { unfold counter_in_range. simpl. split; [lia|reflexivity]. }
  destruct (step_failed_attempts Hs Hrange) as (cs & T & A & F).
  destruct Hs as (_ & (R & _) & H & E & _). simpl in *.
  assert (S : forallb setup_call cs = true).
  { rewrite forallb_forall in *. auto using early_call_setup_call. }
  repeat split; auto.
  - now rewrite T.
  - rewrite F, (setup_calls_count _ S). reflexivity.
Qed.

Ltac ends_early HT :=
  left; unfold ends_before_loop; simpl;
  split; [discriminate|];
  split; [rewrite ?forallb_app, HT; reflexivity|];
  repeat split; auto; try discriminate; try congruence.

(** From the creation of the password buffer on, [main] either ends
    before the main loop or enters it. *)
Lemma setup_phase (w : world) (p : process) :
  step early_call process_start p ->
  ends_before_loop w (setup_and_lock w p) \/
  exists p0, loop_entry p0 /\ setup_and_lock w p = loop_and_unlock w p0.
Proof.
  intros Hp. apply step_from_start in Hp.
  destruct Hp as (HT & HZ & HR & HH & HE).
  set (Q := fun o : outcome Z =>
    ends_before_loop w o \/
    exists p0, loop_entry p0 /\ o = loop_and_unlock w p0).
  change (Q (setup_and_lock w p)). unfold setup_and_lock.
  rewrite bind_modify, bind_emit.
  destruct (password_buffer_created w) eqn:Hpw; cbn [negb]; cbv iota.
  2:{ ends_early HT. }
  rewrite bind_emit.
  destruct (pipe_created w) as [capacity|].
  2:{ rewrite bind_log. ends_early HT. }
  rewrite bind_unfold. cbv beta iota. rewrite bind_emit.
  destruct (fcntl_done w); cbn [negb]; cbv iota.
  2:{ rewrite bind_log. ends_early HT. }
  rewrite bind_unfold. cbv beta iota. rewrite bind_modify, bind_emit.
  destruct (wl_display_connected w); cbn [negb]; cbv iota.
  2:{ rewrite bind_log. ends_early HT. }
  rewrite bind_unfold. cbv beta iota. rewrite bind_unfold.
  match goal with
  | |- context [wl_display_roundtrip ?d ?q] =>
      assert (H1 : ready_to_lock q);
      [|pose proof (respects_wl_display_roundtrip d q) as R1; set (p1 := q) in *]
  end.
  { unfold ready_to_lock; simpl. repeat split; auto; try discriminate.
    - rewrite !forallb_app, HT. reflexivity.
    - eexists. split; reflexivity. }
  clearbody p1.
  destruct (wl_display_roundtrip (roundtrip_registry w) p1) as [r p2|status p2|sig p2|p2];
    simpl in R1;
    pose proof (ready_to_lock_step dispatch_call_setup_call H1 R1) as H2;
    try (left; apply ready_to_lock_ends; [discriminate|exact H2]).
  assert (Hlog : forall msg,
    Q (Returned 1 (set_trace (trace p2 ++ [SwaylockLog LOG_ERROR msg]) p2))).
  { intros msg. left. apply ready_to_lock_ends; [discriminate|].
    eapply ready_to_lock_step;
      [|exact H2|apply step_emit with (allowed := setup_call); reflexivity].
    auto. }
  destruct r; [rewrite bind_log; apply Hlog|].
  rewrite bind_get_state.
  destruct (compositor (state p2)); cbn [negb]; cbv iota;
    [|rewrite bind_log; apply Hlog].
  destruct (subcompositor (state p2)); cbn [negb]; cbv iota;
    [|rewrite bind_log; apply Hlog].
  destruct (shm (state p2)); cbn [negb]; cbv iota;
    [|rewrite bind_log; apply Hlog].
  destruct (ext_session_lock_manager_v1 (state p2)); cbn [negb]; cbv iota;
    [|rewrite bind_log; apply Hlog].
  apply lock_phase. exact H2.
Qed.

Lemma early_trace_no_buffer (p : process) (size : Z) :
  step early_call process_start p ->
  ~ In (PasswordBufferCreate size) (trace p).
Proof.
  intros ((cs & T & A & _) & _) Hin. simpl in T. rewrite T in Hin.
  rewrite forallb_forall in A. specialize (A _ Hin). discriminate.
Qed.

Lemma parse_end_before_loop (w : world) (o : outcome Z) (p : process) :
  step early_call process_start p ->
  final o = p -> (forall q, o <> Returned 0 q) ->
  ends_before_loop w o.
Proof.
  intros Hp Hf Hne. pose proof (early_trace_no_buffer 1024 Hp) as Hb.
  apply step_from_start in Hp. destruct Hp as (HT & HZ & HR & HH & HE).
  unfold ends_before_loop. rewrite Hf. repeat split; auto.
Qed.

(** Every run of the process either ends before the main loop or reaches
    it. *)
Lemma main_phases (w : world) :
  ends_before_loop w (run w) \/
  exists p0, loop_entry p0 /\ run w = loop_and_unlock w p0.
Proof.
  destruct (main_parse_phase w)
    as (p & Hp & [(E & _)|[(E & _)|[(E & _)|[(E & _)|(sig & E & _)]]]]);
    rewrite E.
  - apply setup_phase. exact Hp.
  - left. eapply parse_end_before_loop; eauto. discriminate.
  - left. eapply parse_end_before_loop; eauto. discriminate.
  - left. eapply parse_end_before_loop; eauto. discriminate.
  - left. eapply parse_end_before_loop; eauto. discriminate.
Qed.

(* ===================================================================== *)
(** ** The main loop *)
(* ===================================================================== *)

Lemma run_display_loop_stopped (its : list iteration) (p : process) :
  run_display (state p) = false -> run_display_loop its p = Returned tt p.
Proof. intros H. destruct its; simpl; now rewrite H. Qed.

Lemma run_display_loop_turn (it : iteration) (its : list iteration) (p : process) :
  run_display (state p) = true -> flush it <> FLUSH_ERROR ->
  run_display_loop (it :: its) p =
  (loop_poll it ;; run_display_loop its)
    (set_trace (trace p ++ [WlDisplayFlush]) p).
Proof.
  intros H Hf. simpl. rewrite H, bind_emit.
  destruct (flush it); [reflexivity|reflexivity|congruence].
Qed.

Lemma flushed_before_poll_skip (cs cs' : list call) :
  forallb callback_call cs = true ->
  flushed_before_poll (cs ++ cs') = flushed_before_poll cs'.
Proof.
  induction cs as [|c cs IH]; simpl; [reflexivity|].
  intros H. apply andb_true_iff in H. destruct H as [Hc Hcs].
  destruct c; try discriminate; simpl; auto.
Qed.

(** The calls of one [loop_poll]: the poll itself, then calls of the
    callbacks. *)
Lemma loop_poll_calls (it : iteration) (p : process) :
  exists cs,
    trace (final (loop_poll it p)) = trace p ++ LoopPoll :: cs /\
    forallb callback_call cs = true.
Proof.
  unfold loop_poll. rewrite bind_emit.
  assert (H : respects (step callback_call)
                (deliver_signals (signals it) ;; dispatch_ready it)).
  { apply respects_bind; [apply respects_deliver_signals|intros _].
    apply respects_dispatch_ready. }
  destruct (H (set_trace (trace p ++ [LoopPoll]) p)) as ((cs & T & A & _) & _).
  exists cs. split; [|exact A]. rewrite T. simpl.
  rewrite <- app_assoc. reflexivity.
Qed.

Lemma run_display_loop_flushes (its : list iteration) :
  forall p, exists cs,
    trace (final (run_display_loop its p)) = trace p ++ cs /\
    flushed_before_poll cs = true.
Proof.
  induction its as [|it its IH]; intros p; simpl.
  - exists []. rewrite app_nil_r.
    destruct (run_display (state p)); split; reflexivity.
  - destruct (run_display (state p));
      [|exists []; rewrite app_nil_r; split; reflexivity].
    rewrite bind_emit.
    assert (Hturn : exists cs,
      trace (final ((loop_poll it ;; run_display_loop its)
                      (set_trace (trace p ++ [WlDisplayFlush]) p))) =
      trace p ++ cs /\ flushed_before_poll cs = true).
    { rewrite bind_unfold.
      destruct (loop_poll_calls it (set_trace (trace p ++ [WlDisplayFlush]) p))
        as (cs1 & T1 & A1).
      destruct (loop_poll it (set_trace (trace p ++ [WlDisplayFlush]) p))
        as [[] q|status q|sig q|q]; simpl in T1.
      - destruct (IH q) as (cs2 & T2 & F2).
        exists (WlDisplayFlush :: LoopPoll :: cs1 ++ cs2). split.
        + rewrite T2, T1, <- !app_assoc. reflexivity.
        + simpl. now rewrite flushed_before_poll_skip.
      - exists (WlDisplayFlush :: LoopPoll :: cs1 ++ []). split.
        + simpl. rewrite T1, app_nil_r, <- !app_assoc. reflexivity.
        + simpl. now rewrite flushed_before_poll_skip.
      - exists (WlDisplayFlush :: LoopPoll :: cs1 ++ []). split.
        + simpl. rewrite T1, app_nil_r, <- !app_assoc. reflexivity.
        + simpl. now rewrite flushed_before_poll_skip.
      - exists (WlDisplayFlush :: LoopPoll :: cs1 ++ []). split.
        + simpl. rewrite T1, app_nil_r, <- !app_assoc. reflexivity.
        + simpl. now rewrite flushed_before_poll_skip. }
    destruct (flush it); try exact Hturn.
    exists [WlDisplayFlush]. split; reflexivity.
Qed.

Lemma run_display_loop_exit (its : list iteration) :
  forall p p',
    run_display_loop its p = Returned tt p' ->
    run_display (state p') = false \/
    (exists it, In it its /\ flush it = FLUSH_ERROR) /\
    (exists tr, trace p' = tr ++ [WlDisplayFlush]).
Proof.
  induction its as [|it its IH]; intros p p'; simpl.
  - destruct (run_display (state p)) eqn:R; [discriminate|].
    intros E. inversion E; subst. auto.
  - destruct (run_display (state p)) eqn:R.
    2:{ intros E. inversion E; subst. auto. }
    rewrite bind_emit.
    assert (Hturn :
      (loop_poll it ;; run_display_loop its)
        (set_trace (trace p ++ [WlDisplayFlush]) p) = Returned tt p' ->
      run_display (state p') = false \/
      (exists it0, In it0 (it :: its) /\ flush it0 = FLUSH_ERROR) /\
      (exists tr, trace p' = tr ++ [WlDisplayFlush])).
    { rewrite bind_unfold.
      destruct (loop_poll it (set_trace (trace p ++ [WlDisplayFlush]) p))
        as [[] q|status q|sig q|q]; try discriminate.
      intros E. destruct (IH q p' E) as [H|[(it0 & Hin & Hf) Htr]]; auto.
      right. split; [exists it0; simpl; auto|exact Htr]. }
    destruct (flush it) eqn:F; try exact Hturn.
    intros E. inversion E; subst. right. split.
    + exists it. simpl. auto.
    + exists (trace p). reflexivity.
Qed.

(** C6, as stated, fails: when [wl_display_flush] fails with an error other
    than [EAGAIN] the loop ends although the run flag is still set, before
    any poll. *)
Lemma loop_ends_on_flush_error :
  exists p',
    run_display_loop [turn_flush_error; turn_timer_only] process_validating =
    Returned tt p' /\
    run_display (state p') = true /\
    trace p' = [WlDisplayFlush].
Proof.
  exists (final (run_display_loop [turn_flush_error; turn_timer_only]
                   process_validating)).
  split; [|split]; vm_compute; reflexivity.
Qed.

Lemma run_display_loop_flush_error (it : iteration) (its : list iteration)
    (p : process) :
  run_display (state p) = true -> flush it = FLUSH_ERROR ->
  run_display_loop (it :: its) p =
  Returned tt (set_trace (trace p ++ [WlDisplayFlush]) p).
Proof. intros H Hf. simpl. rewrite H, bind_emit, Hf. reflexivity. Qed.

(** C6 (amended). In every turn of the main loop the display is flushed
    right before the poll; the loop goes on while the run flag is set and
    the flush does not fail; when [wl_display_flush] fails with an error
    other than [EAGAIN] the loop is left at once, before the poll, with the
    run flag still set and whatever the turns to come would be; the loop
    ends only in these two ways, the run flag found clear at the head of a
    turn or such a failure of the flush; once the flag is clear the loop
    returns at once and no further callback is invoked. *)
Theorem main_loop_turns (its : list iteration) (p : process) :
  (exists cs,
     trace (final (run_display_loop its p)) = trace p ++ cs /\
     flushed_before_poll cs = true) /\
  (forall it its',
     its = it :: its' ->
     run_display (state p) = true -> flush it <> FLUSH_ERROR ->
     run_display_loop its p =
     (loop_poll it ;; run_display_loop its')
       (set_trace (trace p ++ [WlDisplayFlush]) p)) /\
  (forall it its',
     its = it :: its' ->
     run_display (state p) = true -> flush it = FLUSH_ERROR ->
     run_display_loop its p =
     Returned tt (set_trace (trace p ++ [WlDisplayFlush]) p)) /\
  (forall p',
     run_display_loop its p = Returned tt p' ->
     run_display (state p') = false \/
     (exists it, In it its /\ flush it = FLUSH_ERROR) /\
     (exists tr, trace p' = tr ++ [WlDisplayFlush])) /\
  (run_display (state p) = false -> run_display_loop its p = Returned tt p).
Proof.
  split; [apply run_display_loop_flushes|].
  split; [intros it its' ->; apply run_display_loop_turn|].
  split; [intros it its' ->; apply run_display_loop_flush_error|].
  split; [apply run_display_loop_exit|apply run_display_loop_stopped].
Qed.

(* ===================================================================== *)
(** ** How the listeners end *)
(* ===================================================================== *)

Lemma with_surface_unfold (output : Z)
    (f : swaylock_state -> swaylock_surface -> swaylock_surface * list call)
    (p : process) :
  with_surface output f p =
  let st := state p in
  let trapped :=
    match find_surface output (surfaces st) with
    | Some surface =>
        calls_render_frame (snd (f st surface))
        && render_frame_traps st (fst (f st surface))
    | None => false
    end in
  let r :=
    on_surface output (if trapped then interrupted (f st) else f st)
      (surfaces st) in
  let p' := set_trace (trace p ++ snd r) (set_state (set_surfaces (fst r) st) p) in
  if trapped then Killed SIGFPE p' else Returned tt p'.
Proof.
  unfold with_surface. rewrite bind_get_state. cbv zeta.
  destruct (match find_surface output (surfaces (state p)) with
            | Some surface =>
                calls_render_frame (snd (f (state p) surface))
                && render_frame_traps (state p) (fst (f (state p) surface))
            | None => false
            end);
    match goal with
    | |- context [on_surface output ?g ?ss] => destruct (on_surface output g ss)
    end; reflexivity.
Qed.

(** A listener that does not call [render_frame] returns. *)
Lemma with_surface_eq (output : Z)
    (f : swaylock_state -> swaylock_surface -> swaylock_surface * list call)
    (p : process) :
  (forall s, calls_render_frame (snd (f (state p) s)) = false) ->
  with_surface output f p =
  Returned tt
    (set_trace
       (trace p ++ snd (on_surface output (f (state p)) (surfaces (state p))))
       (set_state
          (set_surfaces
             (fst (on_surface output (f (state p)) (surfaces (state p))))
             (state p))
          p)).
Proof.
  intros H. rewrite with_surface_unfold. cbv zeta.
  destruct (find_surface output (surfaces (state p))) as [s|];
    [rewrite H|]; reflexivity.
Qed.

Lemma damage_surface_no_render (s : swaylock_surface) :
  calls_render_frame (snd (damage_surface s)) = false.
Proof.
  unfold damage_surface.
  destruct ((width s =? 0) || (height s =? 0)); [reflexivity|].
  simpl. destruct (frame_pending s); reflexivity.
Qed.

Lemma on_surface_found (output : Z)
    (g : swaylock_surface -> swaylock_surface * list call)
    (ss : list swaylock_surface) (s : swaylock_surface) :
  find_surface output ss = Some s ->
  snd (on_surface output g ss) = snd (g s).
Proof.
  unfold find_surface. induction ss as [|s0 ss IH]; simpl; [discriminate|].
  destruct (output_global_name s0 =? output).
  - intros E. inversion E; subst. destruct (g s). reflexivity.
  - intros E. specialize (IH E). destruct (on_surface output g ss). exact IH.
Qed.

Lemma until_render_frame_last (calls : list call) :
  calls_render_frame calls = true ->
  exists tr output, until_render_frame calls = tr ++ [RenderFrame output].
Proof.
  unfold calls_render_frame. induction calls as [|c calls IH]; simpl;
    [discriminate|].
  intros H.
  assert (Hc : (exists output, c = RenderFrame output) \/
               (until_render_frame (c :: calls) = c :: until_render_frame calls /\
                existsb (fun c => match c with RenderFrame _ => true | _ => false end)
                  calls = true)).
  { destruct c; simpl in *; eauto. }
  destruct Hc as [(output & ->)|(E & Hcalls)].
  - exists [], output. reflexivity.
  - simpl in E. rewrite E. destruct (IH Hcalls) as (tr & output & ->).
    exists (c :: tr), output. reflexivity.
Qed.

(** A listener of a surface returns, or the process is killed in its call
    of [render_frame], the last call of the trace. *)
Lemma with_surface_cases (output : Z)
    (f : swaylock_state -> swaylock_surface -> swaylock_surface * list call)
    (p : process) :
  exists ss calls,
    (with_surface output f p =
       Returned tt
         (set_trace (trace p ++ calls)
            (set_state (set_surfaces ss (state p)) p))) \/
    (with_surface output f p =
       Killed SIGFPE
         (set_trace (trace p ++ calls)
            (set_state (set_surfaces ss (state p)) p)) /\
     exists tr o, calls = tr ++ [RenderFrame o]).
Proof.
  rewrite with_surface_unfold. cbv zeta.
  destruct (find_surface output (surfaces (state p))) as [s|] eqn:Hs;
    [|eauto].
  destruct (calls_render_frame (snd (f (state p) s))
            && render_frame_traps (state p) (fst (f (state p) s))) eqn:Ht;
    [|eauto].
  do 2 eexists. right. split; [reflexivity|].
  rewrite (on_surface_found _ _ _ Hs). simpl.
  apply andb_true_iff in Ht. destruct Ht as [Ht _].
  apply until_render_frame_last. exact Ht.
Qed.

Lemma handle_global_remove_eq (name : Z) (p : process) :
  handle_global_remove name p =
  Returned tt
    (set_trace (trace p ++ snd (remove_surface name (surfaces (state p))))
       (set_state
          (set_surfaces (fst (remove_surface name (surfaces (state p))))
             (state p))
          p)).
Proof.
  unfold handle_global_remove. rewrite bind_get_state.
  destruct (remove_surface name (surfaces (state p))). reflexivity.
Qed.

Lemma handle_event_finished (p : process) :
  ext_session_lock_v1 (state p) = true ->
  handle_event EV_lock_finished p =
  Exited 2
    (set_trace
       (trace p ++
        [SwaylockLog LOG_ERROR
           "Failed to lock session -- is another lockscreen running?"]) p).
Proof.
  intros H. simpl. rewrite bind_get_state, H. reflexivity.
Qed.

(** How a listener ends: it returns, and none but the one of [locked]
    touches the [locked] flag; or it is the one of [finished], which ends
    the process with status 2 when the lock object exists; or the process
    is killed in its call of [render_frame]. *)
Lemma handle_event_cases (ev : wl_event) (p : process) :
  match handle_event ev p with
  | Returned _ p' =>
      (ev <> EV_lock_locked -> locked (state p') = locked (state p)) /\
      display_error p' = display_error p
  | Exited status _ =>
      status = 2 /\ ev = EV_lock_finished /\
      ext_session_lock_v1 (state p) = true
  | Killed sig p' =>
      sig = SIGFPE /\ exists tr output, trace p' = tr ++ [RenderFrame output]
  | Waiting _ => False
  end.
Proof.
  destruct ev; simpl; rewrite ?handle_global_remove_eq;
    try match goal with
    | |- context [with_surface ?o ?f p] =>
        destruct (with_surface_cases o f p)
          as (ss & calls & [E|(E & tr & o' & ->)]); rewrite E; simpl;
        [split; reflexivity|
         split; [reflexivity|rewrite app_assoc; eauto]]
    end;
    try (split; reflexivity).
  - destruct interface; split; reflexivity.
  - rewrite bind_get_state.
    destruct (ext_session_lock_v1 (state p)); simpl;
      (split; [congruence|reflexivity]).
  - rewrite bind_get_state.
    destruct (ext_session_lock_v1 (state p)) eqn:Hext; simpl; auto.
  - destruct k; simpl; rewrite ?bind_modify, ?damage_state_eq.
    + split; reflexivity.
    + split; reflexivity.
    + split; [|reflexivity]. intros _. simpl.
      destruct (auth_state_eqb (auth_state (state p)) AUTH_STATE_INVALID);
        reflexivity.
    + rewrite bind_get_state.
      destruct (auth_state_eqb (auth_state (state p)) AUTH_STATE_VALIDATING);
        [split; reflexivity|].
      destruct ((len (password (state p)) =? 0) && ignore_empty (args (state p)));
        [split; reflexivity|].
      rewrite bind_emit, bind_modify, damage_state_eq.
      split; reflexivity.
Qed.

Lemma wl_event_finished_dec (ev : wl_event) :
  {ev = EV_lock_finished} + {ev <> EV_lock_finished}.
Proof. destruct ev; (left; reflexivity) || (right; discriminate). Qed.

Lemma handle_event_keeps_lock_object (ev : wl_event) (p : process) :
  ext_session_lock_v1 (state (final (handle_event ev p))) =
  ext_session_lock_v1 (state p).
Proof. destruct (respects_handle_event ev p) as (_ & (_ & _ & E & _) & _). exact E. Qed.

(** The same for a batch of events. *)
Lemma handle_events_cases (evs : list wl_event) :
  forall p,
    match handle_events evs p with
    | Returned _ p' =>
        (~ In EV_lock_locked evs -> locked (state p') = locked (state p)) /\
        display_error p' = display_error p /\
        (ext_session_lock_v1 (state p) = true -> ~ In EV_lock_finished evs)
    | Exited status _ =>
        status = 2 /\ In EV_lock_finished evs /\
        ext_session_lock_v1 (state p) = true
    | Killed sig p' =>
        sig = SIGFPE /\ exists tr output, trace p' = tr ++ [RenderFrame output]
    | Waiting _ => False
    end.
Proof.
  induction evs as [|ev evs IH]; intros p; simpl.
  - repeat split; auto.
  - rewrite bind_unfold.
    pose proof (handle_event_cases ev p) as H.
    pose proof (handle_event_keeps_lock_object ev p) as Hk.
    destruct (handle_event ev p) as [[] p1|status p1|sig p1|p1] eqn:E;
      simpl in Hk.
    + specialize (IH p1). destruct H as (Hl & Hd).
      destruct (handle_events evs p1) as [[] p2|status p2|sig p2|p2].
      * destruct IH as (Hl' & Hd' & Hf'). split; [|split].
        -- intros Hn. rewrite Hl' by (intros H'; apply Hn; right; exact H').
           apply Hl. intros ->. apply Hn. left. reflexivity.
        -- congruence.
        -- intros Hext [->|Hin].
           ++ rewrite (handle_event_finished p Hext) in E. discriminate.
           ++ apply Hf'; [congruence|exact Hin].
      * destruct IH as (-> & Hin & Hext). repeat split; auto. congruence.
      * exact IH.
      * exact IH.
    + destruct H as (-> & -> & Hext). repeat split; auto.
    + exact H.
    + exact H.
Qed.

Lemma dispatch_calls_count (cs : list call) :
  forallb dispatch_call cs = true -> count_failed cs = 0.
Proof.
  apply count_failed_none. intros c. destruct c; cbv; congruence.
Qed.

(** How a dispatch or a round trip ends, after its call is recorded: with
    the error of the display set it returns [-1] at once; else the
    listeners run, one of which may end the process, and the call returns
    [-1], the error now set, when it fails. *)
Lemma dispatch_events_cases (d : dispatch) (p : process) :
  match dispatch_events d p with
  | Returned r p' =>
      (~ In EV_lock_locked (delivered d) ->
       locked (state p') = locked (state p)) /\
      display_error p' = r /\
      (display_error p = true -> p' = p) /\
      (display_error p = false -> r = failed d) /\
      (display_error p = false -> ext_session_lock_v1 (state p) = true ->
       ~ In EV_lock_finished (delivered d))
  | Exited status _ =>
      status = 2 /\ display_error p = false /\
      In EV_lock_finished (delivered d) /\
      ext_session_lock_v1 (state p) = true
  | Killed sig p' =>
      sig = SIGFPE /\ display_error p = false /\
      exists tr output, trace p' = tr ++ [RenderFrame output]
  | Waiting _ => False
  end.
Proof.
  unfold dispatch_events. destruct (display_error p) eqn:D.
  - repeat split; auto; discriminate.
  - rewrite bind_unfold.
    pose proof (handle_events_cases (delivered d) p) as H.
    destruct (handle_events (delivered d) p) as [[] q|status q|sig q|q];
      try exact H.
    + destruct H as (Hl & Hd & Hf). rewrite D in Hd.
      destruct (failed d); unfold ret; simpl;
        repeat split; auto; discriminate.
    + destruct H as (-> & Hin & Hext). auto.
    + destruct H as (-> & Hlast). auto.
Qed.

Lemma unlock_and_return_eq (w : world) (p : process) :
  unlock_and_return w p =
  (dispatch_events (roundtrip_unlock w) ;; ret 0) (after_unlock p).
Proof.
  unfold unlock_and_return, wl_display_roundtrip.
  rewrite bind_emit, bind_modify, bind_assoc, bind_emit.
  unfold after_unlock. simpl. rewrite <- app_assoc. reflexivity.
Qed.

(** What follows the main loop: the unlock request, then the last round
    trip, whose listeners run unless the display had failed; [main]
    returns 0 unless the process is killed in one of them. *)
Lemma unlock_and_return_cases (w : world) (p : process) :
  exists p',
    step event_call (after_unlock p) p' /\
    (display_error p = true ->
     p' = after_unlock p /\ unlock_and_return w p = Returned 0 p') /\
    (unlock_and_return w p = Returned 0 p' \/
     unlock_and_return w p = Killed SIGFPE p' /\
     exists tr output, trace p' = tr ++ [RenderFrame output]).
Proof.
  rewrite unlock_and_return_eq, bind_unfold.
  pose proof (respects_dispatch_events (roundtrip_unlock w) (after_unlock p))
    as S.
  pose proof (dispatch_events_cases (roundtrip_unlock w) (after_unlock p)) as H.
  destruct (dispatch_events (roundtrip_unlock w) (after_unlock p))
    as [r q|status q|sig q|q]; simpl in S.
  - exists q. split; [exact S|]. split; [|left; reflexivity].
    destruct H as (_ & _ & Hp & _). intros D. rewrite (Hp D). auto.
  - destruct H as (_ & _ & _ & Hext). discriminate.
  - destruct H as (-> & D & Hlast). exists q. split; [exact S|].
    split; [|right; split; [reflexivity|exact Hlast]].
    intros Hd. simpl in D. congruence.
  - contradiction.
Qed.

(* ===================================================================== *)
(** ** Whole runs: the exits and the counter of failed attempts *)
(* ===================================================================== *)



(** How a run that has entered the main loop ends: inside the loop, or
    after it, in [unlock_and_return]. *)
Lemma loop_and_unlock_cases (w : world) (p0 : process) :
  exists p' cs,
    step loop_call p0 p' /\
    trace p' = trace p0 ++ cs /\ forallb loop_call cs = true /\
    ((exists p'',
        run_display_loop (iterations w) p0 = Returned tt p' /\
        step event_call (after_unlock p') p'' /\
        (display_error p' = true ->
         p'' = after_unlock p' /\ loop_and_unlock w p0 = Returned 0 p'') /\
        (loop_and_unlock w p0 = Returned 0 p'' \/
         loop_and_unlock w p0 = Killed SIGFPE p'' /\
         exists tr output, trace p'' = tr ++ [RenderFrame output]))
     \/ (exists status, loop_and_unlock w p0 = Exited status p')
     \/ (exists sig, loop_and_unlock w p0 = Killed sig p')
     \/ loop_and_unlock w p0 = Waiting p').
Proof.
  unfold loop_and_unlock. rewrite bind_unfold.
  pose proof (respects_run_display_loop (iterations w) p0) as R.
  destruct (run_display_loop (iterations w) p0) as [[] p'|status p'|sig p'|p'];
    simpl in R; exists p'; destruct R as ((cs & T & A & F) & R);
    exists cs; (split; [unfold step; eauto 10|]); repeat split; auto.
  - left. destruct (unlock_and_return_cases w p') as (p'' & S & D & H).
    exists p''. auto.
  - right. left. eauto.
  - right. right. left. eauto.
Qed.



Lemma step_counts (allowed : call -> bool) (p p' : process) :
  step allowed p p' -> counter_in_range (state p) ->
  counts_failed_verdicts p p' /\ counter_in_range (state p').
Proof.
  intros S Hp. destruct (step_failed_attempts S Hp) as (cs & T & A & F).
  split.
  - exists cs. split; [exact T|]. split; [exact F|].
    intros Hlt. pose proof (count_failed_nonneg cs) as Hc.
    unfold counter_in_range in Hp.
    rewrite F, to_uint32_small by lia. lia.
  - destruct S as (_ & (_ & _ & _ & _ & C) & _). auto.
Qed.

(** In every run, at its end or wherever it waits, the counter holds the
    number, modulo [2^32], of failed verdicts read so far. *)
Lemma failed_attempts_counts (w : world) :
  failed_attempts (state (final (run w))) =
  to_uint32 (count_failed (trace (final (run w)))).
Proof.
  destruct (main_phases w) as [(Hne & T & Z0 & R & H & B)|(p0 & L & E)].
  - rewrite Z0, (setup_calls_count _ T). reflexivity.
  - destruct L as (T0 & Z0 & _).
    assert (R0 : counter_in_range (state p0)).
    { unfold counter_in_range. rewrite Z0. split; [lia|reflexivity]. }
    destruct (loop_and_unlock_cases w p0) as (p' & cs & S & T & A & Hcases).
    destruct (step_failed_attempts S R0) as (cs' & T' & A' & F').
    assert (cs' = cs) by (rewrite T in T'; now apply app_inv_head in T').
    subst cs'.
    assert (Hp' : failed_attempts (state p') =
                  to_uint32 (count_failed (trace p'))).
    { rewrite F', T, count_failed_app, Z0, (setup_calls_count _ T0).
      reflexivity. }
    assert (Hu : forall p'',
              step event_call (after_unlock p') p'' ->
              failed_attempts (state p'') =
              to_uint32 (count_failed (trace p''))).
    { intros p'' S'.
      assert (R' : counter_in_range (state (after_unlock p'))).
      { unfold counter_in_range. simpl. rewrite Hp'. apply to_uint32_bounds. }
      destruct (step_failed_attempts S' R') as (cs'' & T'' & A'' & F'').
      rewrite F'', T''. simpl. rewrite !count_failed_app, Hp'.
      rewrite (event_calls_count _ A'').
      change (count_failed [ExtSessionLockUnlockAndDestroy; WlDisplayRoundtrip])
        with 0.
      rewrite !Z.add_0_r. apply to_uint32_idem. }
    rewrite E.
    destruct Hcases
      as [(p'' & _ & S' & _ & [Hr|(Hr & _)])|[(status' & Hx)|[(sig & Hk)|Hw]]].
    + rewrite Hr. apply Hu. exact S'.
    + rewrite Hr. apply Hu. exact S'.
    + rewrite Hx. exact Hp'.
    + rewrite Hk. exact Hp'.
    + rewrite Hw. exact Hp'.
Qed.

(** C7, as stated, fails: [failed_attempts] is a 32-bit unsigned integer,
    and the failed verdict read when it holds [UINT32_MAX] makes it 0. *)
Lemma failed_attempts_wraps :
  failed_attempts (state process_counter_max) = 4294967295 /\
  exists p',
    comm_in (READ_BYTE 0) process_counter_max = Returned tt p' /\
    failed_attempts (state p') = 0.
Proof.
  split; [reflexivity|].
  exists (final (comm_in (READ_BYTE 0) process_counter_max)).
  split; vm_compute; reflexivity.
Qed.

(** C7 (amended). [failed_attempts] is 0 when the process starts; in every
    run it equals the number of failed verdicts read so far modulo [2^32],
    hence that number itself as long as it is below [2^32]. No piece of the
    program makes it smaller short of that bound: a listener of the
    display leaves it as it is; a callback of the event loop, a whole turn
    of the loop and the loop as a whole add to it, modulo [2^32], the
    failed verdicts they read, so that it does not decrease as long as the
    sum stays below [2^32], whatever the events and verdicts are. *)
Theorem failed_attempts_never_decreases :
  failed_attempts (state process_start) = 0 /\
  (forall w,
     failed_attempts (state (final (run w))) =
     to_uint32 (count_failed (trace (final (run w))))) /\
  (forall w,
     count_failed (trace (final (run w))) < 2 ^ 32 ->
     failed_attempts (state (final (run w))) =
     count_failed (trace (final (run w)))) /\
  (forall ev p,
     counter_in_range (state p) ->
     failed_attempts (state (final (handle_event ev p))) =
     failed_attempts (state p)) /\
  (forall it cb p,
     counter_in_range (state p) ->
     counts_failed_verdicts p (final (invoke it cb p))) /\
  (forall it p,
     counter_in_range (state p) ->
     counts_failed_verdicts p (final (loop_poll it p))) /\
  (forall its p,
     counter_in_range (state p) ->
     counts_failed_verdicts p (final (run_display_loop its p))).
Proof.
  split; [reflexivity|]. split; [apply failed_attempts_counts|].
  split; [|split; [|split; [|split]]].
  - intros w Hlt. rewrite failed_attempts_counts. apply to_uint32_small.
    split; [apply count_failed_nonneg|exact Hlt].
  - intros ev p Hp.
    destruct (step_failed_attempts (respects_handle_event ev p) Hp)
      as (cs & T & A & F).
    rewrite F, (event_calls_count _ A), Z.add_0_r.
    apply to_uint32_small. exact Hp.
  - intros it cb p Hp. exact (proj1 (step_counts (respects_invoke it cb p) Hp)).
  - intros it p Hp. exact (proj1 (step_counts (respects_loop_poll it p) Hp)).
  - intros its p Hp.
    exact (proj1 (step_counts (respects_run_display_loop its p) Hp)).
Qed.

(* ===================================================================== *)
(** ** Malformed configuration *)
(* ===================================================================== *)

Example parse_color_rgb :
  parse_color "#ff8000" process_start = Returned 0xFF8000FF process_start.
Proof. reflexivity. Qed.

Example parse_color_rgba :
  parse_color "10203040" process_start = Returned 0x10203040 process_start.
Proof. reflexivity. Qed.




(* ===================================================================== *)
(** ** The signal handler and the wake pipe *)
(* ===================================================================== *)








(* ===================================================================== *)
(** ** The session lock is refused *)
(* ===================================================================== *)

(** Once the lock object exists, a batch of events with [finished] in it
    ends the process with status 2, unless a listener before it is killed. *)
Lemma handle_events_finished (evs : list wl_event) (p : process) :
  ext_session_lock_v1 (state p) = true ->
  In EV_lock_finished evs ->
  (exists p', handle_events evs p = Exited 2 p') \/
  (exists p', handle_events evs p = Killed SIGFPE p').
Proof.
  intros Hext Hin. pose proof (handle_events_cases evs p) as H.
  destruct (handle_events evs p) as [[] q|status q|sig q|q].
  - destruct H as (_ & _ & Hf). exfalso. exact (Hf Hext Hin).
  - destruct H as (-> & _). eauto.
  - destruct H as (-> & _). eauto.
  - contradiction.
Qed.






(* ===================================================================== *)
(** ** A verdict of success *)
(* ===================================================================== *)

Lemma dispatch_call_quiet_call (c : call) :
  dispatch_call c = true -> quiet_call c = true.
Proof. unfold quiet_call. intros ->. reflexivity. Qed.

Lemma event_call_quiet_call (c : call) :
  event_call c = true -> quiet_call c = true.
Proof. auto using event_call_dispatch_call, dispatch_call_quiet_call. Qed.

Lemma quiet_calls_no_success (cs : list call) :
  forallb quiet_call cs = true -> ~ In (ReadCommReply true) cs.
Proof.
  intros H Hin. rewrite forallb_forall in H. specialize (H _ Hin). discriminate.
Qed.

Lemma setup_calls_no_success (cs : list call) :
  forallb setup_call cs = true -> ~ In (ReadCommReply true) cs.
Proof.
  intros H Hin. rewrite forallb_forall in H. specialize (H _ Hin). discriminate.
Qed.

Lemma step_quiet_no_success (p p' : process) :
  step quiet_call p p' ->
  ~ In (ReadCommReply true) (trace p) ->
  ~ In (ReadCommReply true) (trace p').
Proof.
  intros ((cs & T & A & _) & _) Hp Hin. rewrite T in Hin.
  apply in_app_or in Hin. destruct Hin as [Hin|Hin]; [auto|].
  eapply quiet_calls_no_success; eauto.
Qed.

Lemma respects_quiet_display_in (d : dispatch) :
  respects (step quiet_call) (display_in d).
Proof.
  unfold display_in.
  apply respects_bind; [|intros r; respects_auto].
  eapply respects_weaken; [apply dispatch_call_quiet_call|].
  apply respects_wl_display_dispatch.
Qed.

Lemma respects_quiet_damage_state : respects (step quiet_call) damage_state.
Proof.
  eapply respects_weaken; [apply event_call_quiet_call|].
  apply respects_damage_state.
Qed.

Lemma respects_quiet_comm_in (r : verdict_read) :
  verdict_ok r = false -> respects (step quiet_call) (comm_in r).
Proof.
  intros Hr p.
  destruct (comm_in_failed r p Hr) as (log & ss & calls & Hcs & E & _).
  rewrite E. unfold step; simpl. split.
  - eexists. split; [reflexivity|]. split.
    + simpl. rewrite forallb_forall in *. intros c Hc.
      apply event_call_quiet_call. auto.
    + change (ReadCommReply false :: log ++ calls)
        with ([ReadCommReply false] ++ (log ++ calls)).
      rewrite count_failed_app, (event_calls_count _ Hcs), to_uint32_idem.
      reflexivity.
  - split; [apply failed_verdict_flags|]. auto using same_pipe_refl.
Qed.

(** A callback other than a verdict of success. *)
Lemma respects_quiet_invoke (it : iteration) (cb : callback) :
  (cb = CB_comm_in -> forall r, comm_ready it = Some r -> verdict_ok r = false) ->
  respects (step quiet_call) (invoke it cb).
Proof.
  intros Hcb. unfold invoke.
  apply respects_bind; [apply respects_emit; reflexivity|intros _].
  destruct cb.
  - destruct (display_ready it); [apply respects_quiet_display_in|apply respects_ret].
  - destruct (comm_ready it) as [r|]; [|apply respects_ret].
    apply respects_quiet_comm_in. auto.
  - unfold term_in. respects_auto.
  - unfold set_auth_idle. respects_auto. apply respects_quiet_damage_state.
Qed.

Lemma respects_quiet_invoke_all (it : iteration) (cbs : list callback) :
  (In CB_comm_in cbs -> forall r, comm_ready it = Some r -> verdict_ok r = false) ->
  respects (step quiet_call) (invoke_all it cbs).
Proof.
  induction cbs as [|cb cbs IH]; intros H; simpl; [apply respects_ret|].
  apply respects_bind; [|intros _; apply IH; intros Hin; apply H; right; exact Hin].
  apply respects_quiet_invoke. intros ->. apply H. left. reflexivity.
Qed.

Lemma respects_quiet_timer (it : iteration) :
  respects (step quiet_call)
    (st <- get_state ;;
     when (timer_expired it && auth_idle_timer st) (invoke it CB_set_auth_idle)).
Proof.
  apply respects_bind; [apply respects_get_state|intros st].
  apply respects_when, respects_quiet_invoke. discriminate.
Qed.

(** The timer callback and [term_in] return. *)
Lemma timer_returns (it : iteration) (p : process) :
  exists p',
    (st <- get_state ;;
     when (timer_expired it && auth_idle_timer st) (invoke it CB_set_auth_idle)) p
    = Returned tt p'.
Proof.
  rewrite bind_get_state.
  destruct (timer_expired it && auth_idle_timer (state p)); simpl; [|eauto].
  unfold invoke, set_auth_idle.
  rewrite bind_emit, !bind_modify, damage_state_eq. eauto.
Qed.

Lemma invoke_all_app (it : iteration) (a b : list callback) {C}
    (k : unit -> M C) (p : process) :
  bind (invoke_all it (a ++ b)) k p =
  bind (invoke_all it a) (fun _ => bind (invoke_all it b) k) p.
Proof.
  revert p. induction a as [|cb a IH]; intros p; simpl.
  - rewrite bind_ret. reflexivity.
  - rewrite !bind_assoc. unfold bind at 1 3.
    destruct (invoke it cb p); auto.
Qed.

Lemma respects_quiet_dispatch_ready (it : iteration) :
  (forall r, comm_ready it = Some r -> verdict_ok r = false) ->
  respects (step quiet_call) (dispatch_ready it).
Proof.
  intros H p. unfold dispatch_ready.
  assert (Hm : respects (step quiet_call)
    (invoke_all it (filter (ready it p) (eventloop p)) ;;
     st <- get_state ;;
     when (timer_expired it && auth_idle_timer st) (invoke it CB_set_auth_idle))).
  { apply respects_bind; [|intros _; apply respects_quiet_timer].
    apply respects_quiet_invoke_all. intros _. exact H. }
  apply Hm.
Qed.

(** What one turn does with the verdict: if it returns, the run flag is
    clear whenever a success has been read; if it ends the process or
    waits, no success has been read. *)
Lemma dispatch_ready_verdict (it : iteration) (p : process) :
  eventloop p = [CB_display_in; CB_comm_in; CB_term_in] ->
  ~ In (ReadCommReply true) (trace p) ->
  match dispatch_ready it p with
  | Returned _ p' => cleared_after_success p'
  | Exited _ p' | Killed _ p' | Waiting p' => ~ In (ReadCommReply true) (trace p')
  end.
Proof.
  intros L Hp.
  destruct (comm_ready it) as [r|] eqn:Hc;
    [destruct (verdict_ok r) eqn:Hr|].
  2,3: (assert (R : step quiet_call p (final (dispatch_ready it p)))
          by (apply respects_quiet_dispatch_ready; intros r' Hr'; congruence);
        pose proof (step_quiet_no_success R Hp) as Hn;
        destruct (dispatch_ready it p); simpl in *; auto;
        intros Hin; contradiction).
  (* a verdict of success is to be read *)
  unfold dispatch_ready. rewrite L.
  set (pre := if ready it p CB_display_in then [CB_display_in] else []).
  set (post := if ready it p CB_term_in then [CB_term_in] else []).
  assert (Hf : filter (ready it p) [CB_display_in; CB_comm_in; CB_term_in] =
               pre ++ CB_comm_in :: post).
  { subst pre post. simpl. rewrite Hc.
    destruct (display_ready it), (sigusr_fds p) as [fds|];
      try destruct (0 <? strlen (pipe_bytes fds)); reflexivity. }
  rewrite Hf, invoke_all_app, bind_unfold.
  assert (Rpre : step quiet_call p (final (invoke_all it pre p))).
  { apply respects_quiet_invoke_all. subst pre.
    destruct (ready it p CB_display_in); simpl; intros Hin;
      intuition discriminate. }
  pose proof (step_quiet_no_success Rpre Hp) as Hn.
  destruct (invoke_all it pre p) as [[] p1|status p1|sig p1|p1]; simpl in Rpre, Hn; auto.
  simpl invoke_all at 1. rewrite bind_assoc. unfold invoke at 1.
  rewrite bind_assoc, bind_emit, Hc, bind_unfold, (comm_in_ok r _ Hr).
  match goal with
  | |- context [bind (invoke_all it post) _ ?q] => set (p2 := q)
  end.
  assert (Hpost : Forall (fun cb => cb = CB_term_in) post).
  { subst post. destruct (ready it p CB_term_in); repeat constructor. }
  pose proof (respects_invoke_all it post p2) as R2.
  rewrite bind_unfold.
  destruct (invoke_all_term_in it p2 Hpost) as (p3 & E3 & _).
  rewrite E3 in *. simpl in R2.
  pose proof (respects_quiet_timer it p3) as R3.
  destruct (timer_returns it p3) as (p4 & E4). rewrite E4 in *. simpl in R3.
  intros _.
  destruct R3 as (_ & (R3 & _) & _). apply R3.
  destruct R2 as (_ & (R2 & _) & _). apply R2. reflexivity.
Qed.

Lemma loop_poll_verdict (it : iteration) (p : process) :
  eventloop p = [CB_display_in; CB_comm_in; CB_term_in] ->
  ~ In (ReadCommReply true) (trace p) ->
  match loop_poll it p with
  | Returned _ p' =>
      eventloop p' = [CB_display_in; CB_comm_in; CB_term_in] /\
      cleared_after_success p'
  | Exited _ p' | Killed _ p' | Waiting p' => ~ In (ReadCommReply true) (trace p')
  end.
Proof.
  intros L Hp.
  pose proof (respects_loop_poll it p) as R.
  assert (HL : eventloop (final (loop_poll it p)) =
               [CB_display_in; CB_comm_in; CB_term_in]).
  { destruct R as (_ & _ & _ & E & _). congruence. }
  clear R. unfold loop_poll in *. rewrite bind_emit in *. rewrite bind_unfold in *.
  set (p1 := set_trace (trace p ++ [LoopPoll]) p) in *.
  assert (Hp1 : ~ In (ReadCommReply true) (trace p1)).
  { subst p1. simpl. intros Hin. apply in_app_or in Hin.
    destruct Hin as [Hin|[Hin|[]]]; [auto|discriminate]. }
  pose proof (respects_deliver_signals quiet_call (signals it) p1) as R1.
  pose proof (step_quiet_no_success R1 Hp1) as Hn.
  assert (L1 : eventloop (final (deliver_signals (signals it) p1)) =
               [CB_display_in; CB_comm_in; CB_term_in]).
  { destruct R1 as (_ & _ & _ & E & _). rewrite E. exact L. }
  destruct (deliver_signals (signals it) p1) as [[] p2|status p2|sig p2|p2];
    simpl in Hn, L1; auto.
  pose proof (@dispatch_ready_verdict it p2 L1 Hn) as Hd.
  destruct (dispatch_ready it p2); simpl in HL; auto.
Qed.

Lemma loop_verdict (its : list iteration) :
  forall p,
    eventloop p = [CB_display_in; CB_comm_in; CB_term_in] ->
    cleared_after_success p ->
    match run_display_loop its p with
    | Returned _ p' => cleared_after_success p'
    | Exited _ p' | Killed _ p' | Waiting p' => ~ In (ReadCommReply true) (trace p')
    end.
Proof.
  induction its as [|it its IH]; intros p L J; simpl.
  - destruct (run_display (state p)) eqn:R; [|exact J].
    intros Hin. apply J in Hin. congruence.
  - destruct (run_display (state p)) eqn:R; [|exact J].
    assert (Hp : ~ In (ReadCommReply true) (trace p)).
    { intros Hin. apply J in Hin. congruence. }
    rewrite bind_emit.
    set (p1 := set_trace (trace p ++ [WlDisplayFlush]) p).
    assert (Hp1 : ~ In (ReadCommReply true) (trace p1)).
    { subst p1. simpl. intros Hin. apply in_app_or in Hin.
      destruct Hin as [Hin|[Hin|[]]]; [auto|discriminate]. }
    assert (Hturn :
      match (loop_poll it ;; run_display_loop its) p1 with
      | Returned _ p' => cleared_after_success p'
      | Exited _ p' | Killed _ p' | Waiting p' => ~ In (ReadCommReply true) (trace p')
      end).
    { rewrite bind_unfold.
      pose proof (@loop_poll_verdict it p1 L Hp1) as Hv.
      destruct (loop_poll it p1) as [[] p2|status p2|sig p2|p2]; auto.
      destruct Hv as [L2 J2]. apply IH; assumption. }
    destruct (flush it); try exact Hturn.
    unfold ret. intros Hin. contradiction.
Qed.

Lemma event_calls_no_success (cs : list call) :
  forallb event_call cs = true -> ~ In (ReadCommReply true) cs.
Proof.
  intros H Hin. rewrite forallb_forall in H. specialize (H _ Hin). discriminate.
Qed.

(** After the main loop: the unlock request and the last round trip follow
    at once, then the listeners of that round trip, which leave the run
    flag clear. *)
Lemma unlock_and_return_trace (w : world) (p : process) :
  exists p' cs,
    (unlock_and_return w p = Returned 0 p' \/
     unlock_and_return w p = Killed SIGFPE p' /\
     exists tr output, trace p' = tr ++ [RenderFrame output]) /\
    trace p' =
      trace p ++ ExtSessionLockUnlockAndDestroy :: WlDisplayRoundtrip :: cs /\
    forallb event_call cs = true /\
    (run_display (state p) = false -> run_display (state p') = false) /\
    (display_error p = true ->
     cs = [] /\ unlock_and_return w p = Returned 0 p').
Proof.
  destruct (unlock_and_return_cases w p) as (p' & S & D & H).
  destruct S as ((cs & T & A & _) & (R & _) & _).
  exists p', cs. split; [exact H|]. split; [|split; [exact A|split; [exact R|]]].
  - rewrite T. simpl. rewrite <- app_assoc. reflexivity.
  - intros Hd. destruct (D Hd) as (E & Hr). split; [|exact Hr].
    rewrite E in T. simpl in T.
    rewrite <- (app_nil_r (trace p ++ _)) in T at 1.
    apply app_inv_head in T. auto.
Qed.

(** C2 at an input on which the code fails it: the compositor has sent no
    [scale] event for the output, so that [surface->scale] is the 0 of
    [calloc], and it configures the lock surface in the last round trip.
    The password is accepted, the run flag is cleared and the unlock
    request is made, but the process does not exit with code 0: it is
    killed by the division by the scale in [render_frame] (render.c:140),
    called by the listener of [configure]. *)
Lemma killed_after_unlock :
  exists p,
    run world_late_configure = Killed SIGFPE p /\
    run_display (state p) = false /\
    trace p =
      [SwaylockLogInit; InitializePwBackend; PasswordBufferCreate 1024; Pipe;
       FcntlNonblock; WlDisplayConnect; WlDisplayRoundtrip;
       ExtSessionLockManagerLock; WlDisplayRoundtrip; GetLockSurface 5;
       WlDisplayDispatch;
       LoopAddFd CB_display_in; LoopAddFd CB_comm_in; LoopAddFd CB_term_in;
       Sigaction;
       WlDisplayFlush; LoopPoll; Invoke CB_display_in; WlDisplayDispatch;
       WriteCommRequest "ab";
       WlDisplayFlush; LoopPoll; Invoke CB_comm_in; ReadCommReply true;
       ExtSessionLockUnlockAndDestroy; WlDisplayRoundtrip;
       AckConfigure 5 1; RenderFrameBackground 5; RenderFrame 5].
Proof.
  exists (final (run world_late_configure)).
  split; [|split]; vm_compute; reflexivity.
Qed.

(** What holds of a verdict of success in every run. When the verdict
    read is a success, [comm_in] clears the run flag and does nothing
    else. Once the flag is clear the loop ends without a further turn, the
    unlock request is made and the last round trip runs; [main] then
    returns 0, unless the process is killed in a listener of that round
    trip. So in every run in which a verdict of success is read the unlock
    request is made with the run flag clear, and the process ends by
    returning 0 or is killed, after the request, by the division in
    [render_frame]. *)
Theorem verdict_success_unlocks (w : world) :
  (forall r p,
     verdict_ok r = true ->
     comm_in r p =
     Returned tt
       (set_state (set_run_display false (state p))
          (set_trace (trace p ++ [ReadCommReply true]) p))) /\
  (forall p,
     run_display (state p) = false ->
     exists p' cs,
       (loop_and_unlock w p = Returned 0 p' \/
        loop_and_unlock w p = Killed SIGFPE p' /\
        exists tr output, trace p' = tr ++ [RenderFrame output]) /\
       trace p' =
         trace p ++ ExtSessionLockUnlockAndDestroy :: WlDisplayRoundtrip :: cs /\
       forallb event_call cs = true /\
       run_display (state p') = false /\
       (display_error p = true ->
        cs = [] /\ loop_and_unlock w p = Returned 0 p')) /\
  (In (ReadCommReply true) (trace (final (run w))) ->
   exists p tr cs,
     (run w = Returned 0 p \/
      run w = Killed SIGFPE p /\
      exists tr' output, trace p = tr' ++ [RenderFrame output]) /\
     run_display (state p) = false /\
     trace p = tr ++ ExtSessionLockUnlockAndDestroy :: WlDisplayRoundtrip :: cs /\
     forallb event_call cs = true).
Proof.
  split; [apply comm_in_ok|]. split.
  - intros p H. unfold loop_and_unlock.
    rewrite bind_unfold, (run_display_loop_stopped _ p H).
    destruct (unlock_and_return_trace w p) as (p' & cs & Hr & T & A & R & D).
    exists p', cs. split; [exact Hr|]. auto.
  - destruct (main_phases w) as [(Hne & T & _)|(p0 & L & E)].
    + intros Hin. apply setup_calls_no_success in Hin; [contradiction|exact T].
    + destruct L as (T0 & _ & _ & _ & L0 & _).
      rewrite E. unfold loop_and_unlock. rewrite bind_unfold.
      assert (J0 : cleared_after_success p0).
      { intros Hin. apply setup_calls_no_success in Hin; [contradiction|exact T0]. }
      pose proof (@loop_verdict (iterations w) p0 L0 J0) as Hv.
      destruct (run_display_loop (iterations w) p0) as [[] p1|status p1|sig p1|p1];
        simpl; try (intros Hin; contradiction).
      destruct (unlock_and_return_trace w p1) as (p' & cs & Hr & T & A & R & _).
      assert (Hin : In (ReadCommReply true) (trace p') ->
                    run_display (state p') = false).
      { rewrite T. intros Hin. apply R, Hv.
        apply in_app_or in Hin. destruct Hin as [Hin|[Hin|[Hin|Hin]]];
          try discriminate; [exact Hin|].
        exfalso. eapply event_calls_no_success; eauto. }
      destruct Hr as [Hr|(Hr & Hlast)]; rewrite Hr; simpl; intros Hs;
        exists p', (trace p1), cs; auto 6.
Qed.

(* ===================================================================== *)
(** ** The properties at concrete inputs *)
(* ===================================================================== *)

(** A whole run in which the compositor refuses the lock ends with
    status 2. *)
Example run_lock_refused :
  exit_status (run (sample_world [] [lock_refused] [])) = Some 2.
Proof. vm_compute. reflexivity. Qed.

(** A whole run with a wrong password, then [SIGUSR1]: one failed attempt
    is counted and the process ends by returning 0. *)
Example run_wrong_password_then_signal :
  let o :=
    run (sample_world [] [lock_granted]
           [turn_keys [KEY_PRINTABLE "x" 7; KEY_SUBMIT];
            turn_verdict 0; turn_sigusr1]) in
  exit_status o = Some 0 /\
  failed_attempts (state (final o)) = 1 /\
  auth_state (state (final o)) = AUTH_STATE_INVALID.
Proof. vm_compute. repeat split; reflexivity. Qed.

(** C1 at the failed verdict [0] for the password ["abc"]: the counter
    goes from 0 to 1 and the surface of the one output is damaged. *)
Lemma comm_in_failed_verdict_witness :
  verdict_ok (READ_BYTE 0) = false /\
  exists p',
    comm_in (READ_BYTE 0) process_validating = Returned tt p' /\
    failed_attempts (state p') = 1 /\
    trace p' = [ReadCommReply false; WlSurfaceFrame 7; WlSurfaceCommit 7].
Proof.
  split; [reflexivity|].
  destruct (@comm_in_failed_verdict (READ_BYTE 0) process_validating eq_refl)
    as (p' & E & _ & F & _ & _ & T & _).
  exists p'. split; [exact E|]. split; [exact F|exact T].
Defined.

(** The run in which the password ["ab"] is accepted. *)
Lemma verdict_success_unlocks_witness :
  exists p tr cs,
    (run (world_unlocked []) = Returned 0 p \/
     run (world_unlocked []) = Killed SIGFPE p /\
     exists tr' output, trace p = tr' ++ [RenderFrame output]) /\
    run_display (state p) = false /\
    trace p = tr ++ ExtSessionLockUnlockAndDestroy :: WlDisplayRoundtrip :: cs /\
    forallb event_call cs = true.
Proof.
  apply (proj2 (proj2 (verdict_success_unlocks (world_unlocked [])))).
  vm_compute. repeat (first [left; reflexivity | right]).
Defined.



(** C6 at the loop that reads a verdict of success in its first turn. *)
Lemma main_loop_turns_witness :
  run_display_loop [turn_verdict 1; turn_timer_only] process_validating =
  (loop_poll (turn_verdict 1) ;; run_display_loop [turn_timer_only])
    (set_trace (trace process_validating ++ [WlDisplayFlush]) process_validating).
Proof.
  apply (proj1 (proj2 (main_loop_turns [turn_verdict 1; turn_timer_only]
                         process_validating))
           (turn_verdict 1) [turn_timer_only]).
  - reflexivity.
  - reflexivity.
  - discriminate.
Defined.

(** C10 at a state in which a wrong password has just been reported: with
    a buffer, the indicator is drawn. *)
Lemma render_frame_draws_indicator_witness :
  draws_indicator
    (render_frame (fun fmt => fmt) state_after_wrong_password
       surface_of_scale_1 (Some 1%positive)) = true.
Proof.
  apply (proj1 (render_frame_draws_indicator (fun fmt => fmt)
                  state_after_wrong_password surface_of_scale_1 1%positive)).
  split; [reflexivity|]. left. discriminate.
Defined.

(* ===================================================================== *)
(** ** Colors *)
(* ===================================================================== *)

Lemma to_uint32_range (z : Z) : 0 <= to_uint32 z < 2 ^ 32.
Proof. unfold to_uint32. apply Z.mod_pos_bound. lia. Qed.

Lemma lor_shifted_byte (v : Z) :
  0 <= v -> Z.lor (v * 256) 255 = v * 256 + 255.
Proof.
  intros Hv.
  assert (H : Z.land (v * 256) 255 = 0).
  { apply Z.bits_inj'. intros n Hn. rewrite Z.land_spec, Z.bits_0.
    destruct (Z.lt_ge_cases n 8) as [Hlt|Hge].
    - change (v * 256) with (v * 2 ^ 8). rewrite Z.mul_pow2_bits_low by lia.
      reflexivity.
    - change 255 with (Z.ones 8). rewrite Z.ones_spec_high by lia.
      apply andb_false_r. }
  rewrite <- Z.lxor_lor by exact H.
  symmetry. apply Z.add_nocarry_lxor. exact H.
Qed.

Lemma shl_uint32_8 (v : Z) :
  0 <= v -> shl_uint32 v 8 = (v mod 2 ^ 24) * 256.
Proof.
  intros Hv. unfold shl_uint32, to_uint32. rewrite Z.shiftl_mul_pow2 by lia.
  change (2 ^ 32) with (2 ^ 24 * 2 ^ 8).
  rewrite Z.mul_mod_distr_r by lia. reflexivity.
Qed.

(** The value of a color of six characters: the low 24 bits of what
    [strtoul] read, shifted by a byte, with the alpha byte [0xFF]. *)
Lemma six_character_value (res : Z) :
  0 <= res < 2 ^ 32 ->
  Z.lor (shl_uint32 res 8) 0xFF = (res mod 2 ^ 24) * 256 + 255.
Proof.
  intros Hr. rewrite shl_uint32_8 by lia.
  apply lor_shifted_byte. apply Z.mod_pos_bound. lia.
Qed.

(** X1. Whatever the text, [parse_color] returns, with a value that fits in
    32 bits, and leaves the state of the lock screen as it is. *)
Theorem parse_color_in_range (color : string) (p : process) :
  exists c p',
    parse_color color p = Returned c p' /\
    0 <= c < 2 ^ 32 /\
    state p' = state p.
Proof.
  unfold parse_color. cbv zeta.
  destruct (negb (to_int (strlen (skip_hash color)) =? 6) &&
            negb (to_int (strlen (skip_hash color)) =? 8)) eqn:Hlen.
  - eexists _, _. split; [reflexivity|]. split; [lia|reflexivity].
  - pose proof (to_uint32_range (strtoul16 (skip_hash color))) as Hr.
    destruct (strlen (skip_hash color) =? 6) eqn:H6.
    + eexists _, _. split; [reflexivity|]. split; [|reflexivity].
      rewrite six_character_value by exact Hr.
      assert (0 <= to_uint32 (strtoul16 (skip_hash color)) mod 2 ^ 24 < 2 ^ 24)
        by (apply Z.mod_pos_bound; lia).
      lia.
    + eexists _, _. split; [reflexivity|]. split; [exact Hr|reflexivity].
Qed.

(** X2. A color of six characters is opaque whatever the characters are:
    its alpha byte is [0xFF], and the bytes above it are the low 24 bits
    of what [strtoul] read. *)
Theorem parse_color_six_characters (color : string) (p : process) :
  strlen (skip_hash color) = 6 ->
  exists c,
    parse_color color p = Returned c p /\
    c mod 256 = 255 /\
    c / 256 = to_uint32 (strtoul16 (skip_hash color)) mod 2 ^ 24.
Proof.
  intros H6. unfold parse_color. rewrite H6. simpl.
  eexists. split; [reflexivity|].
  rewrite six_character_value by apply to_uint32_range.
  set (top := to_uint32 (strtoul16 (skip_hash color)) mod 2 ^ 24).
  split.
  - rewrite Z.add_comm, Z.mod_add by lia. reflexivity.
  - rewrite Z.add_comm, Z.div_add by lia. reflexivity.
Qed.

Ltac enum16 d :=
  let H := fresh in
  assert (H : d = 0 \/ d = 1 \/ d = 2 \/ d = 3 \/ d = 4 \/ d = 5 \/ d = 6 \/
              d = 7 \/ d = 8 \/ d = 9 \/ d = 10 \/ d = 11 \/ d = 12 \/
              d = 13 \/ d = 14 \/ d = 15) by lia;
  repeat (destruct H as [H|H]; [subst d|]); [..|subst d].

Lemma hex_digit_hex_char (d : Z) :
  0 <= d < 16 -> hex_digit (hex_char d) = Some d.
Proof. intros Hd. enum16 d; reflexivity. Qed.

Lemma skip_hash_hex_char (d : Z) (s : string) :
  0 <= d < 16 -> skip_hash (String (hex_char d) s) = String (hex_char d) s.
Proof. intros Hd. enum16 d; reflexivity. Qed.

(** [strtoul] on a text that starts with two hexadecimal digits: there is
    no white space, sign or prefix to skip. *)
Lemma strtoul16_hex (d1 d2 : Z) (s : string) :
  0 <= d1 < 16 -> 0 <= d2 < 16 ->
  strtoul16 (String (hex_char d1) (String (hex_char d2) s)) =
  let v := hex_digits (String (hex_char d1) (String (hex_char d2) s)) 0 in
  if v >? ULONG_MAX then ULONG_MAX else v.
Proof.
  intros H1 H2. enum16 d1; enum16 d2; try reflexivity; destruct s; reflexivity.
Qed.

Lemma strlen_hex_string (n : nat) (v : Z) :
  strlen (hex_string n v) = Z.of_nat n.
Proof.
  unfold strlen. f_equal. induction n as [|n IH]; simpl; [reflexivity|].
  now rewrite IH.
Qed.

Lemma digit_range (v : Z) (n : nat) : 0 <= (v / 16 ^ Z.of_nat n) mod 16 < 16.
Proof. apply Z.mod_pos_bound. lia. Qed.

(** Reading back the digits of [hex_string]. *)
Lemma hex_digits_hex_string (n : nat) (v : Z) :
  forall acc,
    hex_digits (hex_string n v) acc = acc * 16 ^ Z.of_nat n + v mod 16 ^ Z.of_nat n.
Proof.
  induction n as [|n IH]; intros acc.
  - simpl. rewrite Z.mod_1_r. lia.
  - cbn [hex_string hex_digits].
    rewrite hex_digit_hex_char by apply digit_range.
    rewrite IH.
    replace (Z.of_nat (S n)) with (Z.of_nat n + 1) by lia.
    rewrite Z.pow_add_r by lia. change (16 ^ 1) with 16.
    rewrite (Z.rem_mul_r v (16 ^ Z.of_nat n) 16) by lia.
    ring.
Qed.

Lemma strtoul16_hex_string (n : nat) (v : Z) :
  0 <= v < 2 ^ 32 ->
  strtoul16 (hex_string (S (S n)) v) = v mod 16 ^ Z.of_nat (S (S n)).
Proof.
  intros Hv. cbn [hex_string].
  rewrite strtoul16_hex by apply digit_range.
  cbv zeta.
  change (String (hex_char ((v / 16 ^ Z.of_nat (S n)) mod 16))
            (String (hex_char ((v / 16 ^ Z.of_nat n) mod 16)) (hex_string n v)))
    with (hex_string (S (S n)) v).
  rewrite hex_digits_hex_string. rewrite Z.mul_0_l, Z.add_0_l.
  assert (Hm : 0 <= v mod 16 ^ Z.of_nat (S (S n)) <= v).
  { split; [apply Z.mod_pos_bound; lia|apply Z.mod_le; lia]. }
  destruct (v mod 16 ^ Z.of_nat (S (S n)) >? ULONG_MAX) eqn:E; [|reflexivity].
  apply Z.gtb_lt in E. unfold ULONG_MAX in E. lia.
Qed.

Lemma parse_color_hex8 (v : Z) (p : process) :
  0 <= v < 2 ^ 32 -> parse_color (hex_string 8 v) p = Returned v p.
Proof.
  intros Hv. unfold parse_color.
  change (hex_string 8 v)
    with (String (hex_char ((v / 16 ^ Z.of_nat 7) mod 16)) (hex_string 7 v)).
  rewrite skip_hash_hex_char by apply digit_range.
  change (String (hex_char ((v / 16 ^ Z.of_nat 7) mod 16)) (hex_string 7 v))
    with (hex_string 8 v).
  rewrite strlen_hex_string.
  change (to_int (Z.of_nat 8)) with 8.
  cbn [Z.of_nat Z.eqb negb andb Pos.of_succ_nat Pos.succ Pos.eqb].
  rewrite strtoul16_hex_string by exact Hv.
  change (16 ^ Z.of_nat 8) with (2 ^ 32).
  unfold to_uint32. rewrite Z.mod_mod by lia. rewrite Z.mod_small by lia.
  reflexivity.
Qed.

Lemma parse_color_hex6 (v : Z) (p : process) :
  0 <= v < 2 ^ 24 -> parse_color (hex_string 6 v) p = Returned (v * 256 + 255) p.
Proof.
  intros Hv. unfold parse_color.
  change (hex_string 6 v)
    with (String (hex_char ((v / 16 ^ Z.of_nat 5) mod 16)) (hex_string 5 v)).
  rewrite skip_hash_hex_char by apply digit_range.
  change (String (hex_char ((v / 16 ^ Z.of_nat 5) mod 16)) (hex_string 5 v))
    with (hex_string 6 v).
  rewrite strlen_hex_string.
  change (to_int (Z.of_nat 6)) with 6.
  cbn [Z.of_nat Z.eqb negb andb Pos.of_succ_nat Pos.succ Pos.eqb].
  rewrite strtoul16_hex_string by lia.
  change (16 ^ Z.of_nat 6) with (2 ^ 24).
  rewrite six_character_value by apply to_uint32_range.
  unfold to_uint32. rewrite (Z.mod_small v) by lia.
  rewrite (Z.mod_small v) by lia. rewrite (Z.mod_small v) by lia.
  reflexivity.
Qed.

(** X3. Every color can be given in the form of the usage text and is read
    back as written: the eight hexadecimal digits of a 32-bit value give
    that value, with or without a leading ['#']; the six digits of a 24-bit
    value give it with the alpha byte [0xFF] appended. *)
Theorem parse_color_reads_hex (v : Z) (p : process) :
  0 <= v < 2 ^ 32 ->
  parse_color (hex_string 8 v) p = Returned v p /\
  parse_color (String "#" (hex_string 8 v)) p = Returned v p /\
  (v < 2 ^ 24 ->
   parse_color (hex_string 6 v) p = Returned (v * 256 + 255) p /\
   parse_color (String "#" (hex_string 6 v)) p = Returned (v * 256 + 255) p).
Proof.
  intros Hv.
  assert (Hhash : forall s, parse_color (String "#" (hex_string (S s) v)) p =
                            parse_color (hex_string (S s) v) p).
  { intros s. unfold parse_color at 1 2.
    cbn [hex_string]. rewrite skip_hash_hex_char by apply digit_range.
    reflexivity. }
  split; [now apply parse_color_hex8|].
  split; [rewrite Hhash; now apply parse_color_hex8|].
  intros H24. rewrite Hhash. split; apply parse_color_hex6; lia.
Qed.

(* ===================================================================== *)
(** ** The order of [lenient_strcmp] *)
(* ===================================================================== *)

Lemma strcmp_antisym (a : string) :
  forall b, strcmp b a = - strcmp a b.
Proof.
  induction a as [|c a IH]; intros [|d b]; simpl; try reflexivity.
  rewrite (Z.eqb_sym (uchar d) (uchar c)).
  destruct (Z.eqb_spec (uchar c) (uchar d)) as [E|E]; [apply IH|].
  destruct (Z.ltb_spec (uchar d) (uchar c)), (Z.ltb_spec (uchar c) (uchar d));
    try reflexivity; lia.
Qed.

Lemma strcmp_trans (a : string) :
  forall b c, strcmp a b < 0 -> strcmp b c < 0 -> strcmp a c < 0.
Proof.
  induction a as [|x a IH]; intros [|y b] [|z c]; simpl; try lia.
  destruct (Z.eqb_spec (uchar x) (uchar y)) as [Exy|Exy];
    destruct (Z.eqb_spec (uchar y) (uchar z)) as [Eyz|Eyz];
    destruct (Z.eqb_spec (uchar x) (uchar z)) as [Exz|Exz];
    destruct (Z.ltb_spec (uchar x) (uchar y));
    destruct (Z.ltb_spec (uchar y) (uchar z));
    destruct (Z.ltb_spec (uchar x) (uchar z));
    try lia; apply IH.
Qed.

(** X4. [lenient_strcmp] orders the names with [NULL] first: it is [0]
    exactly for two equal names or two [NULL]s, swapping the arguments
    flips the sign, [NULL] is below every name, and the order is
    transitive. *)
Theorem lenient_strcmp_order :
  (forall a b, lenient_strcmp a b = 0 <-> a = b) /\
  (forall a b, Z.sgn (lenient_strcmp b a) = - Z.sgn (lenient_strcmp a b)) /\
  (forall name, lenient_strcmp None (Some name) < 0) /\
  (forall a b c,
     lenient_strcmp a b < 0 -> lenient_strcmp b c < 0 -> lenient_strcmp a c < 0).
Proof.
  split; [exact lenient_strcmp_0_iff|]. split; [|split].
  - intros [a|] [b|]; simpl; try reflexivity.
    rewrite strcmp_antisym. apply Z.sgn_opp.
  - intros name. simpl. lia.
  - intros [a|] [b|] [c|]; simpl; try lia. apply strcmp_trans.
Qed.

(* ===================================================================== *)
(** ** Loading images *)
(* ===================================================================== *)

Lemma lenient_strcmp_eqb (a b : option string) :
  (lenient_strcmp a b =? 0) = true <-> a = b.
Proof. rewrite Z.eqb_eq. apply lenient_strcmp_0_iff. Qed.

(** When the path expands, [load_image] returns, having logged what it
    did; the image it replaces is unlinked first, and the new one is linked
    when it loads. *)
Lemma load_image_eq (lib : library) (arg : string) (p : process)
    (path : string) :
  expand_path lib (snd (image_argument arg)) = Done path ->
  exists log,
    load_image lib arg p =
    Returned tt
      (set_trace (trace p ++ log)
         (set_state
            (let st' :=
               set_images
                 (remove_same_output (fst (image_argument arg))
                    (images (state p))) (state p) in
             match load_background_image lib path with
             | None => st'
             | Some cairo_surface =>
                 set_images
                   (mk_image path (fst (image_argument arg)) cairo_surface
                    :: images st') st'
             end) p)) /\
    forallb parse_call log = true.
Proof.
  unfold load_image. destruct (image_argument arg) as [output_name path0].
  simpl. intros E. rewrite bind_get_state.
  destruct (existsb (same_output output_name) (images (state p))); simpl;
    rewrite ?bind_log, ?bind_ret, bind_modify, bind_unfold; unfold lift;
    rewrite E; unfold ret at 1; cbv beta iota;
    destruct (load_background_image lib path); simpl;
    rewrite ?bind_modify; unfold swaylock_log, emit, ret; simpl;
    rewrite <- ?app_assoc; simpl;
    try (eexists; split; [reflexivity|]; destruct output_name; reflexivity);
    (exists []; rewrite app_nil_r; split; reflexivity).
Qed.

Lemma remove_same_output_In (k : option string) (images : list swaylock_image)
    (image : swaylock_image) :
  In image (remove_same_output k images) -> In image images.
Proof.
  induction images as [|x l IH]; simpl; [tauto|].
  destruct (lenient_strcmp (image_output_name x) k =? 0); simpl; tauto.
Qed.

Lemma remove_same_output_keeps (k : option string)
    (images : list swaylock_image) (image : swaylock_image) :
  In image images -> image_output_name image <> k ->
  In image (remove_same_output k images).
Proof.
  intros Hin Hk. induction images as [|x l IH]; simpl in *; [tauto|].
  destruct (lenient_strcmp (image_output_name x) k =? 0) eqn:E.
  - apply lenient_strcmp_eqb in E. destruct Hin as [->|Hin]; [contradiction|exact Hin].
  - simpl. destruct Hin as [->|Hin]; auto.
Qed.

Lemma remove_same_output_unique (k : option string)
    (images : list swaylock_image) :
  unique_outputs images ->
  unique_outputs (remove_same_output k images) /\
  ~ In k (map image_output_name (remove_same_output k images)).
Proof.
  unfold unique_outputs.
  induction images as [|x l IH]; simpl; intros Hnd.
  - split; [constructor|tauto].
  - inversion Hnd as [|? ? Hx Hl]; subst.
    destruct (lenient_strcmp (image_output_name x) k =? 0) eqn:E.
    + apply lenient_strcmp_eqb in E. subst k. split; assumption.
    + destruct (IH Hl) as [IH1 IH2]. simpl. split.
      * constructor; [|exact IH1].
        intros Hin. apply Hx. apply in_map_iff in Hin.
        destruct Hin as (y & Hy & Hin). apply in_map_iff.
        exists y. split; [exact Hy|]. eapply remove_same_output_In; eauto.
      * intros [Hk|Hin]; [|tauto].
        rewrite <- lenient_strcmp_eqb in Hk. congruence.
Qed.

(** Removing the image of another output does not change what the scan of
    [select_image] finds for a named output. *)
Lemma select_image_loop_remove (other name : string)
    (images : list swaylock_image) :
  other <> name ->
  forall default_image,
    select_image_loop (remove_same_output (Some other) images) (Some name)
      default_image =
    select_image_loop images (Some name) default_image.
Proof.
  intros Hne. induction images as [|x l IH]; intros d; simpl; [reflexivity|].
  destruct (lenient_strcmp (image_output_name x) (Some other) =? 0) eqn:E.
  - apply lenient_strcmp_eqb in E. rewrite E. simpl.
    destruct (Z.eqb_spec (strcmp other name) 0) as [H0|H0].
    + apply strcmp_0_iff in H0. contradiction.
    + reflexivity.
  - simpl. destruct (lenient_strcmp (image_output_name x) (Some name) =? 0);
      [reflexivity|].
    destruct (image_output_name x); apply IH.
Qed.

(** Without an image for the output and without a default image, the scan
    ends with the default it was started with. *)
Lemma select_image_loop_none (images : list swaylock_image)
    (output : option string) :
  ~ In None (map image_output_name images) ->
  ~ In output (map image_output_name images) ->
  forall default_image,
    select_image_loop images output default_image = default_image.
Proof.
  induction images as [|x l IH]; simpl; intros Hd Ho d; [reflexivity|].
  destruct (lenient_strcmp (image_output_name x) output =? 0) eqn:E.
  - apply lenient_strcmp_eqb in E. tauto.
  - destruct (image_output_name x) as [k|] eqn:Hk; [|tauto].
    apply IH; tauto.
Qed.

(** X5. An image that loads is the one its output shows from then on: for
    an argument [<output>:<path>] the output of that name; for an argument
    without an output name every output that has no image of its own
    (given that the list held at most one default image). The images of
    the other outputs are selected as before. Here [path] is what the path
    of the argument expands to, and [load_image] returns. *)
Theorem load_image_then_select (lib : library) (arg : string)
    (p : process) (path : string) (cs : cairo_surface_t) :
  expand_path lib (snd (image_argument arg)) = Done path ->
  load_background_image lib path = Some cs ->
  let st := state p in
  let st' := state (final (load_image lib arg p)) in
  (exists p', load_image lib arg p = Returned tt p') /\
  (forall name,
     fst (image_argument arg) = Some name ->
     select_image (images st') (Some name) = Some cs /\
     forall other,
       other <> name ->
       select_image (images st') (Some other) =
       select_image (images st) (Some other)) /\
  (fst (image_argument arg) = None ->
   select_image (images st') None = Some cs /\
   (unique_outputs (images st) ->
    forall name,
      ~ In (Some name) (map image_output_name (images st)) ->
      select_image (images st') (Some name) = Some cs)).
Proof.
  intros Hpath Hload. cbv zeta.
  destruct (load_image_eq lib arg p Hpath) as (log & E & _).
  rewrite E. cbv zeta. rewrite Hload. simpl.
  split; [eauto|]. split.
  - intros name Hname. rewrite Hname. unfold select_image. simpl.
    rewrite strcmp_refl. simpl. split; [reflexivity|].
    intros other Hne.
    destruct (Z.eqb_spec (strcmp name other) 0) as [H0|H0].
    + apply strcmp_0_iff in H0. congruence.
    + apply select_image_loop_remove. congruence.
  - intros Hdef. rewrite Hdef. unfold select_image. simpl.
    split; [reflexivity|].
    intros Hu name Hname.
    destruct (remove_same_output_unique None Hu) as [_ Hnone].
    apply select_image_loop_none; [exact Hnone|].
    intros Hin. apply Hname. apply in_map_iff in Hin.
    destruct Hin as (y & Hy & Hin). apply in_map_iff. exists y.
    split; [exact Hy|]. eapply remove_same_output_In; eauto.
Qed.

(** [load_image] keeps the outputs of the list distinct, whether the
    image loads or not, and whether [join_args] returns or not. *)
Lemma load_image_unique (lib : library) (arg : string) (p : process) :
  unique_outputs (images (state p)) ->
  unique_outputs (images (state (final (load_image lib arg p)))).
Proof.
  intros Hu.
  destruct (remove_same_output_unique (fst (image_argument arg)) Hu) as [H1 H2].
  destruct (expand_path lib (snd (image_argument arg))) as [path|sig] eqn:Hpath.
  - destruct (load_image_eq lib arg p Hpath) as (log & E & _).
    rewrite E. cbv zeta.
    destruct (load_background_image lib _); simpl; [|exact H1].
    unfold unique_outputs. simpl. constructor; assumption.
  - unfold load_image. destruct (image_argument arg) as [output_name path0].
    simpl in *. rewrite bind_get_state.
    destruct (existsb (same_output output_name) (images (state p))); simpl;
      rewrite ?bind_log, ?bind_ret, bind_modify, bind_unfold; unfold lift;
      rewrite Hpath; exact H1.
Qed.

(** X6. When the image does not load, the image the list held for the same
    output is gone all the same (it is unlinked before the file is read),
    and the other images stay. Here [path] is what the path of the
    argument expands to, and [load_image] returns. *)
Theorem load_image_failure_drops (lib : library) (arg : string)
    (p : process) (path : string) :
  expand_path lib (snd (image_argument arg)) = Done path ->
  load_background_image lib path = None ->
  let st := state p in
  let st' := state (final (load_image lib arg p)) in
  (exists p', load_image lib arg p = Returned tt p') /\
  images st' = remove_same_output (fst (image_argument arg)) (images st) /\
  (forall image,
     In image (images st) ->
     image_output_name image <> fst (image_argument arg) ->
     In image (images st')) /\
  (unique_outputs (images st) ->
   ~ In (fst (image_argument arg)) (map image_output_name (images st'))).
Proof.
  intros Hpath Hload. cbv zeta.
  destruct (load_image_eq lib arg p Hpath) as (log & E & _).
  rewrite E. cbv zeta. rewrite Hload. simpl.
  split; [eauto|]. split; [reflexivity|]. split.
  - intros image Hin Hk. now apply remove_same_output_keeps.
  - intros Hu. now destruct (remove_same_output_unique (fst (image_argument arg)) Hu).
Qed.

(* ===================================================================== *)
(** ** [join_args] *)
(* ===================================================================== *)

Lemma store_at (pre post : block) (x : option ascii) (c : ascii) :
  store (pre ++ x :: post) (Z.of_nat (List.length pre)) c =
  Some (pre ++ Some c :: post).
Proof.
  unfold store. rewrite length_app. simpl.
  replace ((0 <=? Z.of_nat (List.length pre)) &&
           (Z.of_nat (List.length pre) <?
            Z.of_nat (List.length pre + S (List.length post)))) with true
    by (symmetry; apply andb_true_iff; split;
        [apply Z.leb_le|apply Z.ltb_lt]; lia).
  rewrite Nat2Z.id.
  rewrite firstn_app, firstn_all, Nat.sub_diag, firstn_0, app_nil_r.
  f_equal. f_equal. f_equal.
  induction pre as [|y pre IH]; [reflexivity|exact IH].
Qed.

Lemma strcpy_at (src : string) :
  forall (pre fill post : block),
    List.length fill = S (String.length src) ->
    strcpy (pre ++ fill ++ post) (Z.of_nat (List.length pre)) src =
    Some (pre ++ map Some (list_ascii_of_string src) ++ Some zero :: post).
Proof.
  induction src as [|c src IH]; intros pre fill post Hlen.
  - destruct fill as [|x [|y fill]]; try discriminate. simpl.
    apply store_at.
  - destruct fill as [|x fill]; [discriminate|]. simpl in Hlen.
    cbn [strcpy]. change ((x :: fill) ++ post) with (x :: fill ++ post).
    rewrite store_at.
    replace (pre ++ Some c :: fill ++ post)
      with ((pre ++ [Some c]) ++ fill ++ post) by now rewrite <- app_assoc.
    replace (Z.of_nat (List.length pre) + 1)
      with (Z.of_nat (List.length (pre ++ [Some c])))
      by (rewrite length_app; simpl; lia).
    rewrite IH by lia. rewrite <- app_assoc. reflexivity.
Qed.

Lemma chars_length (s : string) :
  List.length (list_ascii_of_string s) = String.length s.
Proof. induction s as [|c s IH]; simpl; [reflexivity|now rewrite IH]. Qed.

Lemma chars_app (x y : string) :
  list_ascii_of_string (x ++ y)%string =
  list_ascii_of_string x ++ list_ascii_of_string y.
Proof. induction x as [|c x IH]; simpl; [reflexivity|now rewrite IH]. Qed.

Lemma spaced_cons (a : string) (argv : list string) :
  spaced (a :: argv) = list_ascii_of_string a ++ " "%char :: spaced argv.
Proof. unfold spaced. simpl. now rewrite <- app_assoc. Qed.

Lemma to_int_small (z : Z) : INT_MIN <= z <= INT_MAX -> to_int z = z.
Proof.
  unfold to_int, INT_MIN, INT_MAX. intros H. rewrite Z.mod_small by lia. lia.
Qed.

(** As long as the sum fits an [int], the first loop counts the bytes the
    second one writes. *)
Lemma spaced_length (argv : list string) :
  Z.of_nat (List.length (spaced argv)) <= INT_MAX ->
  join_args_len argv = Z.of_nat (List.length (spaced argv)).
Proof.
  unfold join_args_len.
  assert (H : forall acc,
             0 <= acc ->
             acc + Z.of_nat (List.length (spaced argv)) <= INT_MAX ->
             fold_left (fun len arg => to_int (len + (strlen arg + 1))) argv acc =
             acc + Z.of_nat (List.length (spaced argv))).
  { induction argv as [|a argv IH]; intros acc Hacc Hb; [simpl; lia|].
    cbn [fold_left]. rewrite spaced_cons, length_app in *.
    simpl List.length in *. rewrite chars_length in *.
    rewrite to_int_small by (unfold strlen, INT_MIN; lia).
    rewrite IH; unfold strlen; lia. }
  intros Hb. rewrite H; lia.
Qed.

Lemma join_args_copy_at (argv : list string) :
  forall (pre fill post : block),
    List.length fill = List.length (spaced argv) ->
    Z.of_nat (List.length pre) + Z.of_nat (List.length (spaced argv)) <= INT_MAX ->
    join_args_copy argv (pre ++ fill ++ post) (Z.of_nat (List.length pre)) =
    Some (pre ++ map Some (spaced argv) ++ post,
          Z.of_nat (List.length pre) + Z.of_nat (List.length (spaced argv))).
Proof.
  induction argv as [|a argv IH]; intros pre fill post Hlen Hb.
  - destruct fill; [|discriminate]. simpl. f_equal. f_equal. lia.
  - cbn [join_args_copy].
    rewrite spaced_cons, length_app in Hlen, Hb. simpl in Hlen, Hb.
    rewrite chars_length in Hlen, Hb.
    rewrite <- (firstn_skipn (S (String.length a)) fill).
    set (fill1 := firstn (S (String.length a)) fill).
    set (fill2 := skipn (S (String.length a)) fill).
    assert (H1 : List.length fill1 = S (String.length a)).
    { unfold fill1. rewrite firstn_length_le; lia. }
    assert (H2 : List.length fill2 = List.length (spaced argv)).
    { unfold fill2. rewrite length_skipn. lia. }
    rewrite <- app_assoc.
    rewrite strcpy_at by exact H1. cbv zeta.
    rewrite to_int_small by (unfold strlen, INT_MIN; lia).
    replace (pre ++ map Some (list_ascii_of_string a) ++ Some zero :: fill2 ++ post)
      with ((pre ++ map Some (list_ascii_of_string a)) ++ Some zero :: fill2 ++ post)
      by now rewrite <- app_assoc.
    replace (Z.of_nat (List.length pre) + strlen a)
      with (Z.of_nat (List.length (pre ++ map Some (list_ascii_of_string a))))
      by (rewrite length_app, length_map, chars_length;
          unfold strlen; lia).
    rewrite store_at.
    replace ((pre ++ map Some (list_ascii_of_string a)) ++ Some " "%char :: fill2 ++ post)
      with ((pre ++ map Some (list_ascii_of_string a) ++ [Some " "%char]) ++ fill2 ++ post)
      by (rewrite <- !app_assoc; reflexivity).
    unfold int_add.
    rewrite to_int_small
      by (rewrite length_app, length_map, chars_length; unfold INT_MIN; lia).
    replace (Z.of_nat (List.length (pre ++ map Some (list_ascii_of_string a))) + 1)
      with (Z.of_nat (List.length (pre ++ map Some (list_ascii_of_string a) ++ [Some " "%char])))
      by (rewrite !length_app; simpl; lia).
    rewrite IH
      by (try exact H2; rewrite !length_app, length_map, chars_length; simpl; lia).
    rewrite (spaced_cons a argv).
    f_equal. f_equal.
    + rewrite !map_app. simpl. rewrite <- !app_assoc. reflexivity.
    + rewrite !length_app, length_map, chars_length. simpl. lia.
Qed.

(** The arguments, each followed by a space, are the joined arguments
    followed by one space. *)
Lemma spaced_concat (a : string) (argv : list string) :
  spaced (a :: argv) =
  list_ascii_of_string (String.concat " " (a :: argv)) ++ [" "%char].
Proof.
  revert a. induction argv as [|b argv IH]; intros a.
  - unfold spaced. simpl. now rewrite app_nil_r.
  - rewrite spaced_cons, IH.
    change (String.concat " " (a :: b :: argv))
      with (a ++ " " ++ String.concat " " (b :: argv))%string.
    rewrite !chars_app. simpl. rewrite <- !app_assoc. reflexivity.
Qed.

Lemma c_string_terminated (s : string) (post : block) :
  no_nul s ->
  c_string (map Some (list_ascii_of_string s) ++ Some zero :: post) = Some s.
Proof.
  unfold no_nul. induction s as [|c s IH]; simpl; intros Hn; [reflexivity|].
  destruct (Ascii.eqb_spec c zero) as [->|Hc]; [tauto|].
  rewrite IH by tauto. reflexivity.
Qed.

Lemma no_nul_concat (argv : list string) :
  Forall no_nul argv -> no_nul (String.concat " " argv).
Proof.
  assert (Happ : forall x y, no_nul x -> no_nul y -> no_nul (x ++ y)%string).
  { unfold no_nul. intros x y Hx Hy. induction x as [|c x IHx]; simpl in *;
      [exact Hy|]. intros [H|H]; [tauto|]. apply IHx; tauto. }
  induction argv as [|a [|b argv] IH]; intros Hall.
  - unfold no_nul. simpl. tauto.
  - simpl. now inversion Hall.
  - change (String.concat " " (a :: b :: argv))
      with (a ++ " " ++ String.concat " " (b :: argv))%string.
    inversion Hall; subst. apply Happ; [assumption|].
    apply Happ; [|now apply IH].
    unfold no_nul. simpl. intros [H|[]]. discriminate.
Qed.

Lemma join_args_copy_fresh (argv : list string) :
  Z.of_nat (List.length (spaced argv)) <= INT_MAX ->
  join_args_copy argv (malloc (to_size_t (join_args_len argv))) 0 =
  Some (map Some (spaced argv), join_args_len argv).
Proof.
  intros Hb. rewrite (spaced_length _ Hb).
  unfold to_size_t. rewrite Z.mod_small by (unfold INT_MAX in Hb; lia).
  unfold malloc.
  replace (Z.of_nat (List.length (spaced argv)) <=? PTRDIFF_MAX) with true
    by (symmetry; apply Z.leb_le; unfold PTRDIFF_MAX, INT_MAX in *; lia).
  rewrite Nat2Z.id.
  pose proof (@join_args_copy_at argv []
                (repeat None (List.length (spaced argv))) []
                (repeat_length _ _) Hb) as H.
  rewrite !app_nil_r in H. exact H.
Qed.

(** X7. [join_args] never writes outside the block it allocates, as long
    as the lengths of the arguments, with one byte more for each, add up
    to an [int]: for every such argument vector that is not empty it gets
    through, every byte of the block is written, and the block holds the
    arguments joined by single spaces, as a C string that fills the block
    to its last byte. *)
Theorem join_args_in_bounds (argv : list string) :
  argv <> [] ->
  Z.of_nat (List.length (spaced argv)) <= INT_MAX ->
  exists res,
    join_args argv (Z.of_nat (List.length argv)) = Done res /\
    Z.of_nat (List.length res) = join_args_len argv /\
    Forall (fun byte => byte <> None) res /\
    (Forall no_nul argv ->
     c_string res = Some (String.concat " " argv) /\
     join_args_len argv = strlen (String.concat " " argv) + 1).
Proof.
  destruct argv as [|a argv]; [congruence|]. intros _ Hb.
  unfold join_args.
  replace (Z.of_nat (List.length (a :: argv)) <=? 0) with false
    by (symmetry; apply Z.leb_gt; simpl; lia).
  rewrite Nat2Z.id, firstn_all. cbv zeta.
  rewrite (@join_args_copy_fresh (a :: argv) Hb).
  rewrite (spaced_length _ Hb). revert Hb.
  rewrite spaced_concat, map_app.
  set (joined := String.concat " " (a :: argv)). intros Hb.
  rewrite length_app, chars_length in Hb. simpl in Hb.
  unfold int_sub.
  rewrite to_int_small
    by (rewrite length_app, chars_length; simpl; unfold INT_MIN; lia).
  replace (Z.of_nat (List.length (list_ascii_of_string joined ++ [" "%char])) - 1)
    with (Z.of_nat (List.length (map Some (list_ascii_of_string joined))))
    by (rewrite length_app, length_map; simpl; lia).
  cbn [map]. rewrite store_at.
  eexists. split; [reflexivity|]. split; [|split].
  - rewrite !length_app, length_map. simpl. reflexivity.
  - apply Forall_app. split.
    + apply Forall_forall. intros x Hx. apply in_map_iff in Hx.
      destruct Hx as (c & <- & _). discriminate.
    + constructor; [discriminate|constructor].
  - intros Hn. split.
    + apply c_string_terminated. now apply no_nul_concat.
    + rewrite length_app, chars_length. unfold strlen. simpl. lia.
Qed.

(* ===================================================================== *)
(** ** What the code leaves as it is *)
(* ===================================================================== *)

Section Effects.

Variable S : swaylock_state -> swaylock_state -> Prop.
Hypothesis S_refl : forall st, S st st.
Hypothesis S_trans : forall a b c, S a b -> S b c -> S a c.

Lemma effect_ret {A} (a : A) : respects (on_state S) (ret a).
Proof. intros p. apply S_refl. Qed.

Lemma effect_exit {A} (status : Z) : respects (on_state S) (@exit A status).
Proof. intros p. apply S_refl. Qed.

Lemma effect_bind {A B} (m : M A) (k : A -> M B) :
  respects (on_state S) m ->
  (forall a, respects (on_state S) (k a)) ->
  respects (on_state S) (bind m k).
Proof.
  intros Hm Hk p. unfold bind. specialize (Hm p).
  destruct (m p) as [a p'|status p'|sig p'|p']; simpl in *; auto.
  eapply S_trans; [exact Hm|apply Hk].
Qed.

Lemma effect_emit (c : call) : respects (on_state S) (emit c).
Proof. intros p. apply S_refl. Qed.

Lemma effect_emit_all (cs : list call) : respects (on_state S) (emit_all cs).
Proof. intros p. apply S_refl. Qed.

Lemma effect_get_state : respects (on_state S) get_state.
Proof. intros p. apply S_refl. Qed.

Lemma effect_modify (f : swaylock_state -> swaylock_state) :
  (forall st, S st (f st)) -> respects (on_state S) (modify f).
Proof. intros Hf p. apply Hf. Qed.

Lemma effect_when (b : bool) (m : M unit) :
  respects (on_state S) m -> respects (on_state S) (when b m).
Proof. destruct b; simpl; auto using effect_ret. Qed.

(** A change of the process outside the state of the lock screen. *)
Lemma effect_process (g : process -> process) :
  (forall p, state (g p) = state p) ->
  respects (on_state S) (fun p => Returned tt (g p)).
Proof. intros Hg p. unfold on_state. simpl. rewrite Hg. apply S_refl. Qed.

Lemma effect_kill {A} (sig : signal) : respects (on_state S) (@kill A sig).
Proof. intros p. apply S_refl. Qed.

Lemma effect_lift {A} (r : result A) : respects (on_state S) (lift r).
Proof. intros p. destruct r; apply S_refl. Qed.

Lemma effect_dispatch_events (d : dispatch) :
  respects (on_state S) (handle_events (delivered d)) ->
  respects (on_state S) (dispatch_events d).
Proof.
  intros H p. unfold dispatch_events.
  destruct (display_error p); [apply S_refl|].
  assert (Hm : respects (on_state S)
    (handle_events (delivered d) ;;
     if failed d
     then fun q => Returned true (set_display_error true q)
     else ret false)).
  { apply effect_bind; [exact H|intros _].
    destruct (failed d); [intros q; apply S_refl|apply effect_ret]. }
  apply Hm.
Qed.

Lemma effect_do_sigusr : respects (on_state S) do_sigusr.
Proof.
  intros p. unfold do_sigusr.
  destruct (sigusr_fds p) as [fds|]; [|apply S_refl].
  destruct (strlen (pipe_bytes fds) <? pipe_capacity fds); [apply S_refl|].
  destruct (write_end_nonblock fds); apply S_refl.
Qed.

Lemma effect_deliver_signals (n : nat) :
  respects (on_state S) (deliver_signals n).
Proof.
  induction n as [|n IH]; simpl; [apply effect_ret|].
  apply effect_bind; [|intros _; exact IH].
  intros p. unfold deliver_sigusr1.
  destruct (sigusr_handler p); [apply effect_do_sigusr|apply S_refl].
Qed.

End Effects.

Lemma run_effect_refl (st : swaylock_state) : run_effect st st.
Proof. unfold run_effect. auto. Qed.

Lemma run_effect_trans (a b c : swaylock_state) :
  run_effect a b -> run_effect b c -> run_effect a c.
Proof.
  unfold run_effect. intros (A1 & A2 & A3) (B1 & B2 & B3).
  repeat split; try congruence. auto.
Qed.

Lemma kept_refl (st : swaylock_state) : kept st st.
Proof. unfold kept. auto. Qed.

Lemma kept_trans (a b c : swaylock_state) :
  kept a b -> kept b c -> kept a c.
Proof.
  unfold kept. intros (A1 & A2 & A3) (B1 & B2 & B3).
  repeat split; try congruence; auto.
Qed.

Lemma run_effect_kept (a b : swaylock_state) : run_effect a b -> kept a b.
Proof.
  unfold run_effect, kept. intros (A1 & A2 & A3).
  rewrite A1, A2. auto.
Qed.

Lemma respects_run_effect_kept {A} (m : M A) :
  respects (on_state run_effect) m -> respects (on_state kept) m.
Proof. intros H p. apply run_effect_kept, H. Qed.

Create HintDb effects.
#[local] Hint Resolve run_effect_refl run_effect_trans kept_refl kept_trans : effects.

(** An assignment to a field other than the options, the images and the
    surfaces. *)
Ltac effect_leaf :=
  let st := fresh "st" in
  intros st; unfold run_effect, kept; simpl; repeat split; auto.

Ltac effect_step :=
  match goal with
  | |- respects (on_state _) (bind _ _) =>
      apply effect_bind; [solve [eauto with effects]| |intros ?]
  | |- respects (on_state _) (ret _) => apply effect_ret; solve [eauto with effects]
  | |- respects (on_state _) (exit _) => apply effect_exit; solve [eauto with effects]
  | |- respects (on_state _) (kill _) => apply effect_kill; solve [eauto with effects]
  | |- respects (on_state _) (lift _) => apply effect_lift; solve [eauto with effects]
  | |- respects (on_state _) get_state =>
      apply effect_get_state; solve [eauto with effects]
  | |- respects (on_state _) (when _ _) =>
      apply effect_when; [solve [eauto with effects]|]
  | |- respects (on_state _) (emit _) => apply effect_emit; solve [eauto with effects]
  | |- respects (on_state _) (emit_all _) =>
      apply effect_emit_all; solve [eauto with effects]
  | |- respects (on_state _) (swaylock_log _ _) =>
      apply effect_emit; solve [eauto with effects]
  | |- respects (on_state _) (modify _) => apply effect_modify; effect_leaf
  | |- respects (on_state _) (set_arg _) => apply effect_modify; effect_leaf
  | |- respects (on_state _) (fun p => Returned tt _) =>
      apply effect_process; [solve [eauto with effects]|reflexivity]
  | |- respects (on_state _) (if ?b then _ else _) => destruct b
  | |- respects (on_state _) (match ?x with _ => _ end) => destruct x
  end.

Ltac effect_auto := repeat effect_step.

(** *** Surfaces *)

Lemma damage_surface_scheduled (surface : swaylock_surface) :
  scheduled surface -> scheduled (fst (damage_surface surface)).
Proof.
  unfold scheduled, damage_surface. intros H.
  destruct ((width surface =? 0) || (height surface =? 0)); [exact H|].
  simpl. destruct (frame_pending surface) eqn:E; simpl; auto.
Qed.

Lemma damage_surfaces_scheduled (surfaces : list swaylock_surface) :
  Forall scheduled surfaces -> Forall scheduled (fst (damage_surfaces surfaces)).
Proof.
  induction surfaces as [|s l IH]; simpl; intros H; [constructor|].
  inversion H; subst.
  pose proof (@damage_surface_scheduled s) as Hs.
  destruct (damage_surface s) as [s' calls].
  destruct (damage_surfaces l) as [l' calls']. simpl in *.
  constructor; auto.
Qed.

Lemma on_surface_scheduled (output : Z)
    (f : swaylock_surface -> swaylock_surface * list call)
    (surfaces : list swaylock_surface) :
  (forall s, scheduled s -> scheduled (fst (f s))) ->
  Forall scheduled surfaces ->
  Forall scheduled (fst (on_surface output f surfaces)).
Proof.
  intros Hf. induction surfaces as [|s l IH]; simpl; intros H; [constructor|].
  inversion H; subst.
  destruct (output_global_name s =? output).
  - specialize (Hf s). destruct (f s) as [s' calls]. simpl in *.
    constructor; auto.
  - destruct (on_surface output f l) as [l' calls]. simpl in *.
    constructor; auto.
Qed.

Lemma remove_surface_scheduled (name : Z) (surfaces : list swaylock_surface) :
  Forall scheduled surfaces ->
  Forall scheduled (fst (remove_surface name surfaces)).
Proof.
  induction surfaces as [|s l IH]; simpl; intros H; [constructor|].
  inversion H; subst.
  destruct (output_global_name s =? name); [assumption|].
  destruct (remove_surface name l) as [l' calls]. simpl in *.
  constructor; auto.
Qed.

Lemma create_surfaces_scheduled (st : swaylock_state)
    (surfaces : list swaylock_surface) :
  Forall scheduled surfaces ->
  Forall scheduled (fst (create_surfaces st surfaces)).
Proof.
  induction surfaces as [|s l IH]; simpl; intros H; [constructor|].
  inversion H; subst.
  destruct (create_surfaces st l) as [l' calls]. simpl in *.
  constructor; auto.
Qed.

Lemma effect_damage_state : respects (on_state run_effect) damage_state.
Proof.
  intros p. rewrite damage_state_eq. unfold on_state, run_effect. simpl.
  repeat split. apply damage_surfaces_scheduled.
Qed.

Lemma on_surface_scheduled_found (output : Z)
    (g : swaylock_surface -> swaylock_surface * list call)
    (surfaces : list swaylock_surface) :
  (forall s, find_surface output surfaces = Some s ->
             scheduled s -> scheduled (fst (g s))) ->
  Forall scheduled surfaces ->
  Forall scheduled (fst (on_surface output g surfaces)).
Proof.
  unfold find_surface.
  induction surfaces as [|s l IH]; simpl; intros Hg H; [constructor|].
  inversion H; subst.
  destruct (output_global_name s =? output).
  - specialize (Hg s eq_refl). destruct (g s) as [s' calls]. simpl in *.
    constructor; auto.
  - specialize (IH Hg). destruct (on_surface output g l) as [l' calls].
    simpl in *. constructor; auto.
Qed.

(** A listener of a surface keeps the frame callback of a dirty surface,
    also when the process is killed in its call of [render_frame]: the
    callback is asked for before that call. *)
Lemma effect_with_surface (output : Z)
    (f : swaylock_state -> swaylock_surface -> swaylock_surface * list call) :
  (forall st s, scheduled s -> scheduled (fst (f st s))) ->
  (forall st s,
     calls_render_frame (snd (f st s)) = true ->
     scheduled s -> dirty s = true -> frame_pending (fst (f st s)) = true) ->
  respects (on_state run_effect) (with_surface output f).
Proof.
  intros Hf Hi p. rewrite with_surface_unfold. cbv zeta.
  destruct (find_surface output (surfaces (state p))) as [s0|] eqn:Hs;
    [destruct (calls_render_frame (snd (f (state p) s0))
               && render_frame_traps (state p) (fst (f (state p) s0))) eqn:Ht|];
    unfold on_state, run_effect; simpl; repeat split;
    try (apply on_surface_scheduled, Hf).
  apply on_surface_scheduled_found. intros s Hs' Hsched.
  rewrite Hs in Hs'. inversion Hs'; subst s0.
  apply andb_true_iff in Ht. destruct Ht as [Ht _].
  unfold interrupted, scheduled. simpl.
  destruct (f (state p) s) as [s' calls] eqn:Ef.
  specialize (Hi (state p) s). rewrite Ef in Hi. simpl in *.
  destruct s'; simpl in *. auto.
Qed.

Lemma effect_with_surface_quiet (output : Z)
    (f : swaylock_state -> swaylock_surface -> swaylock_surface * list call) :
  (forall st s, scheduled s -> scheduled (fst (f st s))) ->
  (forall st s, calls_render_frame (snd (f st s)) = false) ->
  respects (on_state run_effect) (with_surface output f).
Proof.
  intros Hf Hq. apply effect_with_surface; [exact Hf|].
  intros st s Hc. rewrite Hq in Hc. discriminate.
Qed.

Lemma effect_swaylock_handle_key (k : keystroke) :
  respects (on_state run_effect) (swaylock_handle_key k).
Proof.
  destruct k; simpl.
  - effect_auto. apply effect_damage_state.
  - effect_auto. apply effect_damage_state.
  - apply effect_bind; [eauto with effects|effect_auto|intros _].
    apply effect_bind; [eauto with effects|effect_auto|intros _].
    apply effect_bind; [eauto with effects| |intros _; apply effect_damage_state].
    apply effect_modify. intros st.
    destruct (auth_state_eqb (auth_state st) AUTH_STATE_INVALID);
      [revert st; effect_leaf|apply run_effect_refl].
  - apply effect_bind; [eauto with effects|effect_auto|intros st].
    destruct (auth_state_eqb (auth_state st) AUTH_STATE_VALIDATING);
      [apply effect_ret; eauto with effects|].
    destruct ((len (password st) =? 0) && ignore_empty (args st));
      [apply effect_ret; eauto with effects|].
    apply effect_bind; [eauto with effects|effect_auto|intros _].
    apply effect_bind; [eauto with effects|effect_auto|intros _].
    apply effect_damage_state.
Qed.

Lemma calloc_surface_scheduled (name : Z) : scheduled (calloc_surface name).
Proof. unfold scheduled. simpl. discriminate. Qed.

Lemma effect_handle_event (ev : wl_event) :
  respects (on_state run_effect) (handle_event ev).
Proof.
  destruct ev; simpl.
  - destruct interface; simpl; effect_auto.
    intros H. constructor; [apply calloc_surface_scheduled|exact H].
  - intros p. rewrite handle_global_remove_eq. unfold on_state, run_effect.
    simpl. repeat split. apply remove_surface_scheduled.
  - apply effect_with_surface_quiet; intros st s; unfold handle_wl_output_geometry.
    + intros Hs.
      destruct (run_display st); [apply damage_surface_scheduled|]; exact Hs.
    + destruct (run_display st); [apply damage_surface_no_render|reflexivity].
  - apply effect_ret; eauto with effects.
  - apply effect_with_surface_quiet; intros st s; unfold handle_wl_output_done.
    + intros Hs. destruct (negb (created s) && run_display st); exact Hs.
    + destruct (negb (created s) && run_display st); reflexivity.
  - apply effect_with_surface_quiet; intros st s; unfold handle_wl_output_scale.
    + intros Hs.
      destruct (run_display st); [apply damage_surface_scheduled|]; exact Hs.
    + destruct (run_display st); [apply damage_surface_no_render|reflexivity].
  - apply effect_with_surface_quiet; [intros st s Hs; exact Hs|reflexivity].
  - apply effect_ret; eauto with effects.
  - unfold ext_session_lock_v1_handle_locked. effect_auto.
  - unfold ext_session_lock_v1_handle_finished. effect_auto.
  - apply effect_with_surface; intros st s.
    + intros Hs. exact Hs.
    + intros _ Hs Hd. simpl. exact (Hs Hd).
  - apply effect_with_surface; intros st s; unfold surface_frame_handle_done.
    + intros Hs. unfold scheduled.
      destruct s as [? ? ? ? ? ? d ? ? ? ? ?]. simpl.
      destruct d; simpl; auto.
    + intros _ _. destruct s as [? ? ? ? ? ? d ? ? ? ? ?]. simpl.
      intros ->. reflexivity.
  - apply effect_swaylock_handle_key.
Qed.

Lemma effect_handle_events (evs : list wl_event) :
  respects (on_state run_effect) (handle_events evs).
Proof.
  induction evs as [|ev evs IH]; simpl; [apply effect_ret; eauto with effects|].
  apply effect_bind; [eauto with effects|apply effect_handle_event|intros _; exact IH].
Qed.

Lemma effect_wl_display_dispatch (d : dispatch) :
  respects (on_state run_effect) (wl_display_dispatch d).
Proof.
  unfold wl_display_dispatch.
  apply effect_bind; [eauto with effects|effect_auto|intros _].
  apply effect_dispatch_events; [eauto with effects..|].
  apply effect_handle_events.
Qed.

Lemma effect_wl_display_roundtrip (d : dispatch) :
  respects (on_state run_effect) (wl_display_roundtrip d).
Proof.
  unfold wl_display_roundtrip.
  apply effect_bind; [eauto with effects|effect_auto|intros _].
  apply effect_dispatch_events; [eauto with effects..|].
  apply effect_handle_events.
Qed.

(** *** Callbacks and the main loop *)

Lemma effect_invoke (it : iteration) (cb : callback) :
  respects (on_state run_effect) (invoke it cb).
Proof.
  unfold invoke. apply effect_bind; [eauto with effects|effect_auto|intros _].
  destruct cb.
  - destruct (display_ready it); [|effect_auto].
    unfold display_in.
    apply effect_bind;
      [eauto with effects|apply effect_wl_display_dispatch|intros r].
    effect_auto.
  - destruct (comm_ready it) as [r|]; [|effect_auto].
    unfold comm_in.
    apply effect_bind; [eauto with effects| |intros ok].
    { unfold read_comm_reply. effect_auto. }
    destruct ok; [effect_auto|].
    unfold schedule_auth_idle. effect_auto. apply effect_damage_state.
  - unfold term_in. effect_auto.
  - unfold set_auth_idle. effect_auto. apply effect_damage_state.
Qed.

Lemma effect_invoke_all (it : iteration) (cbs : list callback) :
  respects (on_state run_effect) (invoke_all it cbs).
Proof.
  induction cbs as [|cb cbs IH]; simpl; [apply effect_ret; eauto with effects|].
  apply effect_bind; [eauto with effects|apply effect_invoke|intros _; exact IH].
Qed.

Lemma effect_loop_poll (it : iteration) :
  respects (on_state run_effect) (loop_poll it).
Proof.
  unfold loop_poll.
  apply effect_bind; [eauto with effects|effect_auto|intros _].
  apply effect_bind;
    [eauto with effects|apply effect_deliver_signals; eauto with effects|intros _].
  intros p. unfold dispatch_ready.
  assert (H : respects (on_state run_effect)
    (invoke_all it (filter (ready it p) (eventloop p)) ;;
     st <- get_state ;;
     when (timer_expired it && auth_idle_timer st) (invoke it CB_set_auth_idle))).
  { apply effect_bind; [eauto with effects|apply effect_invoke_all|intros _].
    apply effect_bind; [eauto with effects|effect_auto|intros st].
    apply effect_when; [eauto with effects|apply effect_invoke]. }
  apply H.
Qed.

Lemma effect_run_display_loop (its : list iteration) :
  respects (on_state run_effect) (run_display_loop its).
Proof.
  induction its as [|it its IH]; intros p; simpl.
  - destruct (run_display (state p)); apply run_effect_refl.
  - destruct (run_display (state p)); [|apply run_effect_refl].
    assert (H : respects (on_state run_effect)
      (emit WlDisplayFlush ;;
       match flush it with
       | FLUSH_ERROR => ret tt
       | _ => loop_poll it ;; run_display_loop its
       end)).
    { apply effect_bind; [eauto with effects|effect_auto|intros _].
      destruct (flush it); try (apply effect_ret; eauto with effects);
        (apply effect_bind;
           [eauto with effects|apply effect_loop_poll|intros _; exact IH]). }
    apply H.
Qed.

Lemma effect_wait_for_lock (dispatches : list dispatch) :
  respects (on_state run_effect) (wait_for_lock dispatches).
Proof.
  induction dispatches as [|d ds IH]; intros p; simpl.
  - destruct (locked (state p)); apply run_effect_refl.
  - destruct (locked (state p)); [apply run_effect_refl|].
    assert (H : respects (on_state run_effect)
      (r <- wl_display_dispatch d ;;
       if r then
         swaylock_log LOG_ERROR "wl_display_dispatch() failed" ;; ret true
       else wait_for_lock ds)).
    { apply effect_bind;
        [eauto with effects|apply effect_wl_display_dispatch|intros r].
      destruct r; [effect_auto|exact IH]. }
    apply H.
Qed.

Lemma effect_create_all_surfaces :
  respects (on_state run_effect) create_all_surfaces.
Proof.
  intros p. rewrite create_all_surfaces_eq. unfold on_state, run_effect. simpl.
  repeat split. apply create_surfaces_scheduled.
Qed.

Lemma effect_unlock_and_return (w : world) :
  respects (on_state run_effect) (unlock_and_return w).
Proof.
  unfold unlock_and_return.
  apply effect_bind; [eauto with effects|effect_auto|intros _].
  apply effect_bind; [eauto with effects|effect_auto|intros _].
  apply effect_bind;
    [eauto with effects|apply effect_wl_display_roundtrip|intros r].
  effect_auto.
Qed.

Lemma effect_lock_and_run (w : world) :
  respects (on_state run_effect) (lock_and_run w).
Proof.
  unfold lock_and_run.
  apply effect_bind; [eauto with effects|effect_auto|intros _].
  apply effect_bind; [eauto with effects|effect_auto|intros _].
  apply effect_bind;
    [eauto with effects|apply effect_wl_display_roundtrip|intros r].
  destruct r; [effect_auto|].
  apply effect_bind; [eauto with effects|apply effect_create_all_surfaces|intros _].
  apply effect_bind; [eauto with effects|apply effect_wait_for_lock|intros gave_up].
  destruct gave_up; [effect_auto|].
  unfold loop_add_fd. effect_auto;
    [apply effect_run_display_loop|apply effect_unlock_and_return].
Qed.

Lemma effect_setup_and_lock (w : world) :
  respects (on_state run_effect) (setup_and_lock w).
Proof.
  unfold setup_and_lock.
  apply effect_bind; [eauto with effects|effect_auto|intros _].
  apply effect_bind; [eauto with effects|effect_auto|intros _].
  destruct (negb (password_buffer_created w)); [effect_auto|].
  apply effect_bind; [eauto with effects|effect_auto|intros _].
  destruct (pipe_created w) as [capacity|]; [|effect_auto].
  apply effect_bind; [eauto with effects|effect_auto|intros _].
  apply effect_bind; [eauto with effects|effect_auto|intros _].
  destruct (negb (fcntl_done w)); [effect_auto|].
  apply effect_bind; [eauto with effects|effect_auto|intros _].
  apply effect_bind; [eauto with effects| |intros _].
  { apply effect_modify. intros st. unfold run_effect. simpl.
    repeat split. intros _. constructor. }
  apply effect_bind; [eauto with effects|effect_auto|intros _].
  destruct (negb (wl_display_connected w)); [effect_auto|].
  apply effect_bind; [eauto with effects|effect_auto|intros _].
  apply effect_bind;
    [eauto with effects|apply effect_wl_display_roundtrip|intros r].
  destruct r; [effect_auto|].
  apply effect_bind; [eauto with effects|effect_auto|intros st].
  destruct (negb (compositor st)); [effect_auto|].
  destruct (negb (subcompositor st)); [effect_auto|].
  destruct (negb (shm st)); [effect_auto|].
  destruct (negb (ext_session_lock_manager_v1 st)); [effect_auto|].
  apply effect_lock_and_run.
Qed.

(** *** The option parser *)

Lemma kept_load_image (lib : library) (arg : string) :
  respects (on_state kept) (load_image lib arg).
Proof.
  intros p. unfold on_state, kept. split; [|split].
  - unfold load_image. destruct (image_argument arg) as [output_name path0].
    rewrite bind_get_state.
    destruct (existsb (same_output output_name) (images (state p))); simpl;
      rewrite ?bind_log, ?bind_ret, bind_modify, bind_unfold; unfold lift;
      (destruct (expand_path lib path0) as [path|sig]; [|reflexivity]);
      unfold ret at 1; cbv beta iota;
      (destruct (load_background_image lib path); [|reflexivity]);
      rewrite bind_modify; reflexivity.
  - apply load_image_unique.
  - unfold load_image. destruct (image_argument arg) as [output_name path0].
    rewrite bind_get_state.
    destruct (existsb (same_output output_name) (images (state p))); simpl;
      rewrite ?bind_log, ?bind_ret, bind_modify, bind_unfold; unfold lift;
      (destruct (expand_path lib path0) as [path|sig]; [|simpl; auto]);
      unfold ret at 1; cbv beta iota;
      (destruct (load_background_image lib path); [|simpl; auto]);
      rewrite bind_modify; simpl; auto.
Qed.

Lemma effect_parse_color (color : string) :
  respects (on_state kept) (parse_color color).
Proof.
  unfold parse_color.
  match goal with |- respects _ (if ?b then _ else _) => destruct b end;
    effect_auto.
Qed.

Lemma effect_parse_options (lib : library) (argv : list long_option)
    (with_state : bool) :
  forall config_path,
    respects (on_state kept) (parse_options lib argv with_state config_path).
Proof.
  induction argv as [|c argv IH]; intros config_path; simpl.
  - effect_auto.
  - destruct c; try solve
      [ apply IH
      | apply effect_bind;
          [eauto with effects
          |first [apply effect_when; [eauto with effects|]|idtac];
           first [apply kept_load_image
                 |unfold set_color;
                  apply effect_bind;
                    [eauto with effects|apply effect_parse_color|intros ?];
                  effect_auto
                 |effect_auto]
          |intros _; first [apply IH|effect_auto]] ].
    destruct with_state; [|apply IH].
    apply effect_bind; [eauto with effects|effect_auto|intros _].
    destruct (background_mode_eqb _ _); [effect_auto|apply IH].
Qed.

Lemma effect_load_config (lib : library)
    (config : option (list (list long_option))) :
  respects (on_state kept) (load_config lib config).
Proof.
  destruct config as [lines|]; simpl; [|effect_auto].
  apply effect_bind; [eauto with effects| |intros _; effect_auto].
  induction lines as [|line lines IH]; simpl; [effect_auto|].
  apply effect_bind; [eauto with effects|effect_auto|intros _].
  apply effect_bind; [eauto with effects|apply effect_parse_options|intros r].
  destruct (negb (fst r =? 0)); [effect_auto|exact IH].
Qed.

Lemma run_from_configured (w : world) :
  run w =
  (r <- parse_options (lib w) (argv w) false (Some None) ;;
   if negb (fst r =? 0) then ret (fst r)
   else
     let config_path :=
       match snd r with
       | Some (Some path) => Some path
       | _ => default_config_path w
       end in
     config_status <-
       match config_path with
       | Some path =>
           swaylock_log LOG_DEBUG "Found config" ;;
           load_config (lib w) (config_file w path)
       | None => ret 0
       end ;;
     if negb (config_status =? 0) then ret config_status
     else
       result <-
         (if argc w >? 1 then
            swaylock_log LOG_DEBUG "Parsing CLI Args" ;;
            r <- parse_options (lib w) (argv w) true None ;;
            ret (fst r)
          else ret 0) ;;
       if negb (result =? 0) then ret result
       else setup_and_lock w) process_configured.
Proof. reflexivity. Qed.

(** From the parsing of the command line on, [main] keeps the background
    color, the distinctness of the image outputs, and the frame callbacks
    of the dirty surfaces. *)
Lemma run_kept (w : world) :
  kept (state process_configured) (state (final (run w))).
Proof.
  rewrite run_from_configured. generalize process_configured.
  change (respects (on_state kept)
    (r <- parse_options (lib w) (argv w) false (Some None) ;;
     if negb (fst r =? 0) then ret (fst r)
     else
       let config_path :=
         match snd r with
         | Some (Some path) => Some path
         | _ => default_config_path w
         end in
       config_status <-
         match config_path with
         | Some path =>
             swaylock_log LOG_DEBUG "Found config" ;;
             load_config (lib w) (config_file w path)
         | None => ret 0
         end ;;
       if negb (config_status =? 0) then ret config_status
       else
         result <-
           (if argc w >? 1 then
              swaylock_log LOG_DEBUG "Parsing CLI Args" ;;
              r <- parse_options (lib w) (argv w) true None ;;
              ret (fst r)
            else ret 0) ;;
         if negb (result =? 0) then ret result
         else setup_and_lock w)).
  apply effect_bind; [eauto with effects|apply effect_parse_options|intros r].
  destruct (negb (fst r =? 0)); [effect_auto|]. cbv zeta.
  apply effect_bind; [eauto with effects| |intros config_status].
  { destruct (match snd r with
              | Some (Some path) => Some path
              | _ => default_config_path w
              end) as [path|]; [|effect_auto].
    apply effect_bind; [eauto with effects|effect_auto|intros _].
    apply effect_load_config. }
  destruct (negb (config_status =? 0)); [effect_auto|].
  apply effect_bind; [eauto with effects| |intros result].
  { destruct (argc w >? 1); [|effect_auto].
    apply effect_bind; [eauto with effects|effect_auto|intros _].
    apply effect_bind; [eauto with effects|apply effect_parse_options|intros r'].
    effect_auto. }
  destruct (negb (result =? 0)); [effect_auto|].
  apply respects_run_effect_kept, effect_setup_and_lock.
Qed.

(** X8. No option changes the background color: [parse_options] leaves it
    as it is whatever the arguments are, and in every run of [main],
    however it ends, the color is the [0x95A5A6FF] of [set_default_colors]. *)
Theorem background_color_is_fixed :
  (forall lib argv with_state config_path p,
     background (colors (args (state
       (final (parse_options lib argv with_state config_path p))))) =
     background (colors (args (state p)))) /\
  (forall w,
     background (colors (args (state (final (run w))))) = 0x95A5A6FF).
Proof.
  split.
  - intros lib argv with_state config_path p.
    destruct (@effect_parse_options lib argv with_state config_path p) as [H _].
    exact H.
  - intros w. destruct (run_kept w) as [H _]. rewrite H. reflexivity.
Qed.

(** X9. The image list never holds two images for the same output, nor two
    default images: [parse_options] keeps the outputs distinct whatever
    the arguments are, and so does every run of [main]. *)
Theorem image_outputs_stay_unique :
  (forall lib argv with_state config_path p,
     unique_outputs (images (state p)) ->
     unique_outputs
       (images (state (final (parse_options lib argv with_state config_path p))))) /\
  (forall w, unique_outputs (images (state (final (run w))))).
Proof.
  split.
  - intros lib argv with_state config_path p Hu.
    destruct (@effect_parse_options lib argv with_state config_path p)
      as (_ & H & _).
    exact (H Hu).
  - intros w. destruct (run_kept w) as (_ & H & _). apply H.
    unfold unique_outputs. simpl. constructor.
Qed.

(** X10. A surface that is dirty has a frame callback outstanding
    ([frame_pending] is set whenever [dirty] is). Every listener of the
    display and every turn of the main loop keeps it so, and it holds in
    every run of [main], however the run ends, also where the process is
    killed. Whether the frame that the callback brings is drawn is up to
    [render_frame], which draws nothing when it gets no buffer. *)
Theorem dirty_surface_has_frame_callback :
  (forall ev p,
     Forall scheduled (surfaces (state p)) ->
     Forall scheduled (surfaces (state (final (handle_event ev p))))) /\
  (forall it p,
     Forall scheduled (surfaces (state p)) ->
     Forall scheduled (surfaces (state (final (loop_poll it p))))) /\
  (forall w, Forall scheduled (surfaces (state (final (run w))))).
Proof.
  split; [|split].
  - intros ev p Hs. destruct (effect_handle_event ev p) as (_ & _ & H).
    exact (H Hs).
  - intros it p Hs. destruct (effect_loop_poll it p) as (_ & _ & H).
    exact (H Hs).
  - intros w. destruct (run_kept w) as (_ & _ & H). apply H.
    simpl. constructor.
Qed.

(** X11. Once the options are parsed they are final: nothing [main] does
    from the creation of the password buffer on, no listener of the
    display and no turn of the main loop changes an option or the image
    list. *)
Theorem options_fixed_after_parsing :
  (forall w p,
     args (state (final (setup_and_lock w p))) = args (state p) /\
     images (state (final (setup_and_lock w p))) = images (state p)) /\
  (forall ev p,
     args (state (final (handle_event ev p))) = args (state p) /\
     images (state (final (handle_event ev p))) = images (state p)) /\
  (forall it p,
     args (state (final (loop_poll it p))) = args (state p) /\
     images (state (final (loop_poll it p))) = images (state p)).
Proof.
  split; [|split].
  - intros w p. destruct (effect_setup_and_lock w p) as (H1 & H2 & _).
    split; assumption.
  - intros ev p. destruct (effect_handle_event ev p) as (H1 & H2 & _).
    split; assumption.
  - intros it p. destruct (effect_loop_poll it p) as (H1 & H2 & _).
    split; assumption.
Qed.

(* ===================================================================== *)
(** ** The exit status *)
(* ===================================================================== *)

Section Ends.

Variable X : Z -> Prop.
Variable K : signal -> process -> Prop.












Lemma ends_kill {A} (R : A -> Prop) (sig : signal) :
  (forall p, K sig p) -> ends_in R X K (@kill A sig).
Proof. intros H p. apply H. Qed.




End Ends.





















(* ===================================================================== *)
(** ** The main loop and the lock *)
(* ===================================================================== *)

(** X13. The calls of the main loop (flush, poll, the callbacks, the read of
    a verdict) and the request to unlock are made only once the compositor
    has reported the session locked: in every run in which one of them
    was made, [state.locked] is set, and it is never cleared. *)
Theorem loop_runs_only_when_locked (w : world) (c : call) :
  In c (trace (final (run w))) ->
  setup_call c = false ->
  locked (state (final (run w))) = true.
Proof.
  intros Hin Hc.
  destruct (main_phases w) as [(_ & T & _)|(p0 & L & E)].
  - rewrite forallb_forall in T. rewrite (T c Hin) in Hc. discriminate.
  - destruct L as (_ & _ & _ & Hl & _).
    destruct (loop_and_unlock_cases w p0)
      as (p' & cs & Hstep & _ & _ & Hcases).
    destruct Hstep as (_ & (_ & Hk & _) & _).
    specialize (Hk Hl). rewrite E.
    destruct Hcases
      as [(p'' & _ & (_ & (_ & Hk' & _) & _) & _ & Hr)
         |[(status & Hx)|[(sig & Hx)|Hx]]];
      [|rewrite Hx; exact Hk..].
    destruct Hr as [Hr|(Hr & _)]; rewrite Hr; apply Hk'; exact Hk.
Qed.

(** A batch of events without [finished] returns, unless the process is
    killed in a listener. *)
Lemma handle_events_return (evs : list wl_event) (p : process) :
  ~ In EV_lock_finished evs ->
  returns_or_killed (fun _ => True) (handle_events evs p).
Proof.
  intros Hn. pose proof (handle_events_cases evs p) as H.
  unfold returns_or_killed, in_render_frame.
  destruct (handle_events evs p); try tauto.
Qed.






(* ===================================================================== *)
(** ** Lock surfaces are requested after the lock *)
(* ===================================================================== *)

Lemma hoare_ret {A} (P : process -> Prop) (Q : A -> process -> Prop)
    (E : process -> Prop) (a : A) :
  (forall p, P p -> Q a p) -> hoare P (ret a) Q E.
Proof. intros H p Hp. apply H, Hp. Qed.

Lemma hoare_bind {A B} (P : process -> Prop) (Q : A -> process -> Prop)
    (R : B -> process -> Prop) (E : process -> Prop) (m : M A) (k : A -> M B) :
  hoare P m Q E ->
  (forall a, hoare (Q a) (k a) R E) ->
  hoare P (bind m k) R E.
Proof.
  intros Hm Hk p Hp. unfold bind. specialize (Hm p Hp).
  destruct (m p) as [a p'|status p'|sig p'|p']; auto.
  apply Hk, Hm.
Qed.

(** A piece of code that keeps [K], however it ends. *)
Lemma hoare_keeps {A} (K : process -> Prop) (m : M A) :
  respects (fun p p' => K p -> K p') m ->
  hoare K m (fun _ => K) K.
Proof.
  intros H p Hp. specialize (H p Hp). destruct (m p); exact H.
Qed.

Lemma hoare_weaken {A} (P : process -> Prop) (Q Q' : A -> process -> Prop)
    (E E' : process -> Prop) (m : M A) :
  (forall a p, Q a p -> Q' a p) -> (forall p, E p -> E' p) ->
  hoare P m Q E -> hoare P m Q' E'.
Proof.
  intros HQ HE H p Hp. specialize (H p Hp). destruct (m p); auto.
Qed.

Lemma lock_first_no_surface (tr : list call) :
  forallb not_lock_surface tr = true -> lock_first tr.
Proof.
  intros H before output after ->.
  rewrite forallb_app in H. apply andb_true_iff in H. destruct H as [_ H].
  discriminate.
Qed.

Lemma lock_first_app (tr cs : list call) :
  lock_first tr -> In ExtSessionLockManagerLock tr -> lock_first (tr ++ cs).
Proof.
  intros Hf Hin before output after E.
  apply app_eq_app in E. destruct E as (l & [(E1 & E2)|(E1 & E2)]).
  - destruct l as [|c l].
    + rewrite app_nil_r in E1. now subst before.
    + simpl in E2. injection E2 as <- E2.
      eapply Hf. exact E1.
  - subst before. apply in_or_app. now left.
Qed.

Lemma before_lock_request_step (allowed : call -> bool) (p p' : process) :
  (forall c, allowed c = true -> not_lock_surface c = true) ->
  before_lock_request p -> step allowed p p' -> before_lock_request p'.
Proof.
  intros Hsub (T & R) ((cs & Tcs & A & _) & (Hr & _) & _).
  split; [|auto].
  rewrite Tcs, forallb_app, T. simpl.
  apply forallb_forall. intros c Hc. apply Hsub.
  rewrite forallb_forall in A. auto.
Qed.

Lemma lock_requested_step (allowed : call -> bool) (p p' : process) :
  lock_requested p -> step allowed p p' -> lock_requested p'.
Proof.
  intros (F & L) ((cs & Tcs & _) & _). unfold lock_requested.
  rewrite Tcs. split.
  - now apply lock_first_app.
  - apply in_or_app. now left.
Qed.

Lemma keeps_of_step {A} (K : process -> Prop) (allowed : call -> bool) (m : M A) :
  (forall p p', K p -> step allowed p p' -> K p') ->
  respects (step allowed) m ->
  hoare K m (fun _ => K) K.
Proof.
  intros HK Hm. apply hoare_keeps. intros p Hp. eapply HK; [exact Hp|apply Hm].
Qed.

(** *** Before the lock is requested *)

Lemma before_lock_emit (c : call) :
  not_lock_surface c = true ->
  hoare before_lock_request (emit c) (fun _ => before_lock_request)
    before_lock_request.
Proof.
  intros Hc p (T & R). split; [|exact R].
  simpl. rewrite forallb_app, T. simpl. now rewrite Hc.
Qed.

Lemma before_lock_emit_all (cs : list call) :
  forallb not_lock_surface cs = true ->
  hoare before_lock_request (emit_all cs) (fun _ => before_lock_request)
    before_lock_request.
Proof.
  intros Hc p (T & R). split; [|exact R].
  simpl. now rewrite forallb_app, T.
Qed.

Lemma before_lock_modify (f : swaylock_state -> swaylock_state) :
  (forall st, run_display (f st) = run_display st) ->
  hoare before_lock_request (modify f) (fun _ => before_lock_request)
    before_lock_request.
Proof. intros Hf p (T & R). split; [exact T|]. simpl. now rewrite Hf. Qed.

Lemma before_lock_process (g : process -> process) :
  (forall p, state (g p) = state p) -> (forall p, trace (g p) = trace p) ->
  hoare before_lock_request (fun p => Returned tt (g p))
    (fun _ => before_lock_request) before_lock_request.
Proof.
  intros Hs Ht p (T & R). split; [now rewrite Ht|now rewrite Hs].
Qed.

Lemma on_surface_forallb (allowed : call -> bool) (output : Z)
    (f : swaylock_surface -> swaylock_surface * list call)
    (surfaces : list swaylock_surface) :
  (forall s, forallb allowed (snd (f s)) = true) ->
  forallb allowed (snd (on_surface output f surfaces)) = true.
Proof.
  intros Hf. induction surfaces as [|s l IH]; simpl; [reflexivity|].
  destruct (output_global_name s =? output).
  - specialize (Hf s). destruct (f s). exact Hf.
  - destruct (on_surface output f l). exact IH.
Qed.

Lemma damage_surfaces_no_lock_surface (surfaces : list swaylock_surface) :
  forallb not_lock_surface (snd (damage_surfaces surfaces)) = true.
Proof.
  induction surfaces as [|s l IH]; simpl; [reflexivity|].
  assert (Hs : forallb not_lock_surface (snd (damage_surface s)) = true).
  { unfold damage_surface.
    destruct ((width s =? 0) || (height s =? 0)); [reflexivity|].
    simpl. destruct (frame_pending s); reflexivity. }
  destruct (damage_surface s) as [s' calls].
  destruct (damage_surfaces l) as [l' calls']. simpl in *.
  now rewrite forallb_app, Hs, IH.
Qed.

Lemma before_lock_damage_state :
  hoare before_lock_request damage_state (fun _ => before_lock_request)
    before_lock_request.
Proof.
  intros p (T & R). rewrite damage_state_eq. split; [|exact R].
  simpl. now rewrite forallb_app, T, damage_surfaces_no_lock_surface.
Qed.

(** While the run flag is clear, a listener of an output requests no lock
    surface. *)
Lemma before_lock_with_surface (output : Z)
    (f : swaylock_state -> swaylock_surface -> swaylock_surface * list call) :
  (forall st s, run_display st = false ->
                forallb not_lock_surface (snd (f st s)) = true) ->
  hoare before_lock_request (with_surface output f)
    (fun _ => before_lock_request) before_lock_request.
Proof.
  intros Hf p (T & R). rewrite with_surface_unfold. cbv zeta.
  match goal with
  | |- context [if ?b then Killed _ _ else _] => destruct b
  end; (split; [|exact R]);
    simpl; rewrite forallb_app, T; simpl;
    apply on_surface_forallb; intros s;
    [apply until_render_frame_calls|]; now apply Hf.
Qed.

Lemma hoare_dispatch_events (K : process -> Prop) (d : dispatch) :
  (forall p, K p -> K (set_display_error true p)) ->
  hoare K (handle_events (delivered d)) (fun _ => K) K ->
  hoare K (dispatch_events d) (fun _ => K) K.
Proof.
  intros HK H p Hp. unfold dispatch_events.
  destruct (display_error p); [exact Hp|].
  rewrite bind_unfold. specialize (H p Hp).
  destruct (handle_events (delivered d) p); auto.
  destruct (failed d); simpl; auto.
Qed.

Ltac before_lock_step :=
  match goal with
  | |- hoare _ (bind _ _) _ _ =>
      eapply hoare_bind with (Q := fun _ => before_lock_request); [|intros ?]
  | |- hoare _ (ret _) _ _ => apply hoare_ret; auto
  | |- hoare _ get_state _ _ => intros ? ?; assumption
  | |- hoare _ (emit _) _ _ => apply before_lock_emit; reflexivity
  | |- hoare _ (swaylock_log _ _) _ _ => apply before_lock_emit; reflexivity
  | |- hoare _ (modify _) _ _ => apply before_lock_modify; reflexivity
  | |- hoare _ damage_state _ _ => apply before_lock_damage_state
  | |- hoare _ (fun p => Returned tt _) _ _ =>
      apply before_lock_process; reflexivity
  | |- hoare _ (if ?b then _ else _) _ _ => destruct b
  end.

Ltac before_lock_auto := repeat before_lock_step.

Lemma before_lock_handle_event (ev : wl_event) :
  hoare before_lock_request (handle_event ev) (fun _ => before_lock_request)
    before_lock_request.
Proof.
  destruct ev; simpl.
  - destruct interface; simpl; before_lock_auto.
  - intros p (T & R). rewrite handle_global_remove_eq. split; [|exact R].
    simpl. rewrite forallb_app, T. simpl.
    induction (surfaces (state p)) as [|s l IH]; simpl; [reflexivity|].
    destruct (output_global_name s =? name); [reflexivity|].
    destruct (remove_surface name l). exact IH.
  - apply before_lock_with_surface. intros st s Hr.
    unfold handle_wl_output_geometry. now rewrite Hr.
  - before_lock_auto.
  - apply before_lock_with_surface. intros st s Hr.
    unfold handle_wl_output_done. now rewrite Hr, andb_false_r.
  - apply before_lock_with_surface. intros st s Hr.
    unfold handle_wl_output_scale. now rewrite Hr.
  - apply before_lock_with_surface. reflexivity.
  - before_lock_auto.
  - unfold ext_session_lock_v1_handle_locked, when. before_lock_auto.
  - unfold ext_session_lock_v1_handle_finished, when. before_lock_auto.
    intros p Hp. exact Hp.
  - apply before_lock_with_surface. reflexivity.
  - apply before_lock_with_surface. intros st s _.
    unfold surface_frame_handle_done. simpl. destruct (dirty s); reflexivity.
  - destruct k; simpl; before_lock_auto.
    apply before_lock_modify. intros st.
    destruct (auth_state_eqb (auth_state st) AUTH_STATE_INVALID); reflexivity.
Qed.

Lemma before_lock_handle_events (evs : list wl_event) :
  hoare before_lock_request (handle_events evs) (fun _ => before_lock_request)
    before_lock_request.
Proof.
  induction evs as [|ev evs IH]; simpl; [before_lock_auto|].
  eapply hoare_bind with (Q := fun _ => before_lock_request);
    [apply before_lock_handle_event|intros _; exact IH].
Qed.

Lemma before_lock_wl_display_roundtrip (d : dispatch) :
  hoare before_lock_request (wl_display_roundtrip d)
    (fun _ => before_lock_request) before_lock_request.
Proof.
  unfold wl_display_roundtrip.
  eapply hoare_bind with (Q := fun _ => before_lock_request);
    [before_lock_auto|intros _].
  apply hoare_dispatch_events; [|apply before_lock_handle_events].
  intros p Hp. exact Hp.
Qed.

(** *** Once the lock is requested *)

Lemma lock_requested_emit (c : call) :
  hoare lock_requested (emit c) (fun _ => lock_requested) lock_requested.
Proof.
  intros p (F & L). split; simpl.
  - now apply lock_first_app.
  - apply in_or_app. now left.
Qed.

Lemma lock_requested_modify (f : swaylock_state -> swaylock_state) :
  hoare lock_requested (modify f) (fun _ => lock_requested) lock_requested.
Proof. intros p H. exact H. Qed.

Lemma lock_requested_process (g : process -> process) :
  (forall p, trace (g p) = trace p) ->
  hoare lock_requested (fun p => Returned tt (g p)) (fun _ => lock_requested)
    lock_requested.
Proof. intros Ht p H. unfold lock_requested. simpl. now rewrite Ht. Qed.

Ltac lock_requested_step :=
  match goal with
  | |- hoare _ (bind _ _) _ _ =>
      eapply hoare_bind with (Q := fun _ => lock_requested); [|intros ?]
  | |- hoare _ (ret _) _ _ => apply hoare_ret; auto
  | |- hoare _ (emit _) _ _ => apply lock_requested_emit
  | |- hoare _ (swaylock_log _ _) _ _ => apply lock_requested_emit
  | |- hoare _ (modify _) _ _ => apply lock_requested_modify
  | |- hoare _ (fun p => Returned tt _) _ _ =>
      apply lock_requested_process; reflexivity
  | |- hoare _ (wl_display_roundtrip _) _ _ =>
      eapply keeps_of_step;
        [apply lock_requested_step|apply respects_wl_display_roundtrip]
  | |- hoare _ create_all_surfaces _ _ =>
      eapply keeps_of_step;
        [apply lock_requested_step|apply respects_create_all_surfaces]
  | |- hoare _ (wait_for_lock _) _ _ =>
      eapply keeps_of_step;
        [apply lock_requested_step|apply respects_wait_for_lock]
  | |- hoare _ (run_display_loop _) _ _ =>
      eapply keeps_of_step;
        [apply lock_requested_step|apply respects_run_display_loop]
  | |- hoare _ (if ?b then _ else _) _ _ => destruct b
  end.

Lemma lock_and_run_lock_first (w : world) :
  hoare before_lock_request (lock_and_run w) (fun _ => lock_requested)
    lock_requested.
Proof.
  unfold lock_and_run.
  eapply hoare_bind with (Q := fun _ => lock_requested); [|intros _].
  { intros p (T & _). split; simpl.
    - apply lock_first_no_surface. now rewrite forallb_app, T.
    - apply in_or_app. right. now left. }
  unfold loop_add_fd, unlock_and_return.
  repeat lock_requested_step.
Qed.

Lemma before_lock_ends (p : process) :
  before_lock_request p -> lock_first (trace p).
Proof. intros (T & _). now apply lock_first_no_surface. Qed.

Lemma lock_requested_ends (p : process) :
  lock_requested p -> lock_first (trace p).
Proof. intros (F & _). exact F. Qed.

(** A piece of code that runs before the lock is requested, as a part of
    [main]. *)
Lemma before_lock_part {A} (m : M A) :
  hoare before_lock_request m (fun _ => before_lock_request) before_lock_request ->
  hoare before_lock_request m (fun _ => before_lock_request)
    (fun p => lock_first (trace p)).
Proof.
  apply hoare_weaken; [auto|apply before_lock_ends].
Qed.

Ltac main_step :=
  match goal with
  | |- hoare _ (bind _ _) _ _ =>
      eapply hoare_bind with (Q := fun _ => before_lock_request);
        [apply before_lock_part|intros ?]
  | |- hoare _ (ret _) _ _ => apply hoare_ret; apply before_lock_ends
  | |- hoare _ (if ?b then _ else _) _ _ => destruct b
  end.

Lemma before_lock_parse_options (lib : library) (argv : list long_option)
    (with_state : bool) (config_path : option (option string)) :
  hoare before_lock_request (parse_options lib argv with_state config_path)
    (fun _ => before_lock_request) before_lock_request.
Proof.
  eapply keeps_of_step; [|apply respects_parse_options].
  intros p p'. apply before_lock_request_step.
  intros c; destruct c; simpl; congruence.
Qed.

Lemma before_lock_load_config (lib : library)
    (config : option (list (list long_option))) :
  hoare before_lock_request (load_config lib config)
    (fun _ => before_lock_request) before_lock_request.
Proof.
  eapply keeps_of_step; [|apply respects_load_config].
  intros p p'. apply before_lock_request_step.
  intros c; destruct c; simpl; congruence.
Qed.

Lemma setup_and_lock_lock_first (w : world) :
  hoare before_lock_request (setup_and_lock w)
    (fun _ p => lock_first (trace p)) (fun p => lock_first (trace p)).
Proof.
  unfold setup_and_lock.
  main_step; [before_lock_auto|].
  main_step; [before_lock_auto|].
  main_step; [main_step|].
  main_step; [before_lock_auto|].
  destruct (pipe_created w) as [capacity|];
    [|main_step; [before_lock_auto|main_step]].
  main_step; [before_lock_auto|].
  main_step; [before_lock_auto|].
  main_step; [main_step; [before_lock_auto|main_step]|].
  main_step; [before_lock_auto|].
  main_step; [before_lock_auto|].
  main_step; [before_lock_auto|].
  main_step; [main_step; [before_lock_auto|main_step]|].
  main_step; [before_lock_auto|].
  main_step; [apply before_lock_wl_display_roundtrip|].
  main_step; [main_step; [before_lock_auto|main_step]|].
  main_step; [before_lock_auto|].
  repeat (main_step; [main_step; [before_lock_auto|main_step]|]).
  eapply hoare_weaken; [| |apply lock_and_run_lock_first];
    simpl; auto using lock_requested_ends.
Qed.

Lemma main_lock_first (w : world) :
  hoare before_lock_request (main w)
    (fun _ p => lock_first (trace p)) (fun p => lock_first (trace p)).
Proof.
  unfold main.
  do 5 (main_step; [before_lock_auto|]).
  main_step; [unfold set_arg; before_lock_auto|].
  main_step; [apply before_lock_parse_options|].
  main_step; [main_step|]. cbv zeta.
  main_step.
  { match goal with
    | |- hoare _ (match ?x with _ => _ end) _ _ => destruct x as [path|]
    end; [|before_lock_auto].
    eapply hoare_bind with (Q := fun _ => before_lock_request);
      [before_lock_auto|intros _; apply before_lock_load_config]. }
  main_step; [main_step|].
  main_step.
  { destruct (argc w >? 1); [|before_lock_auto].
    eapply hoare_bind with (Q := fun _ => before_lock_request);
      [before_lock_auto|intros _].
    eapply hoare_bind with (Q := fun _ => before_lock_request);
      [apply before_lock_parse_options|intros r'; before_lock_auto]. }
  main_step; [main_step|].
  apply setup_and_lock_lock_first.
Qed.

(** X15. A lock surface is requested only after the lock itself: in the
    calls of every run of [main], whatever the compositor sends and
    whenever, each [get_lock_surface] comes after the request
    [ext_session_lock_manager_v1_lock] (the listener of an output creates
    no surface while the run flag is clear). *)
Theorem lock_surface_after_lock_request (w : world)
    (before after : list call) (output : Z) :
  trace (final (run w)) = before ++ GetLockSurface output :: after ->
  In ExtSessionLockManagerLock before.
Proof.
  intros E.
  assert (H : lock_first (trace (final (run w)))).
  { pose proof (@main_lock_first w process_start) as H.
    fold (run w) in H.
    destruct (run w); apply H; split; reflexivity. }
  exact (H before output after E).
Qed.

(* ===================================================================== *)
(** ** The passes over the command line *)
(* ===================================================================== *)

(** The first pass stops at the first option without a [case], unless
    [--version] comes before. *)
Lemma first_pass_refused (lib : library) (argv : list long_option) :
  forall config_path p,
    (exists c, In c argv /\ refused c = true) ->
    match parse_options lib argv false config_path p with
    | Returned r p' => fst r = 1 /\ In PrintUsage (trace p')
    | Exited status p' => status = 0 /\ In PrintVersion (trace p')
    | Killed _ _ | Waiting _ => False
    end.
Proof.
  induction argv as [|c argv IH]; intros config_path p (x & Hin & Hx).
  - destruct Hin.
  - assert (Hrest : refused c = false -> exists c', In c' argv /\ refused c' = true).
    { intros Hc. destruct Hin as [->|Hin]; [congruence|eauto]. }
    destruct c; simpl;
      try (rewrite ?bind_emit, ?bind_ret; apply IH, Hrest; reflexivity);
      try (split; [reflexivity|]; apply in_or_app; right; now left).
Qed.

Lemma first_pass_state (lib : library) (argv : list long_option) :
  forall config_path p,
    state (final (parse_options lib argv false config_path p)) = state p.
Proof.
  induction argv as [|c argv IH]; intros config_path p; [reflexivity|].
  destruct c; simpl; rewrite ?bind_emit, ?bind_ret, ?IH; reflexivity.
Qed.

Lemma first_pass_config (lib : library) (argv : list long_option) :
  forall found p r p',
    parse_options lib argv false (Some found) p = Returned r p' ->
    fst r = 0 ->
    snd r = Some (last_config argv found).
Proof.
  induction argv as [|c argv IH]; intros found p r p'.
  - simpl. intros [= <- <-] _. reflexivity.
  - destruct c; simpl; rewrite ?bind_emit, ?bind_ret;
      try apply IH; try discriminate;
      intros [= <- <-]; discriminate.
Qed.

(** X16. The first pass over the command line (the one with [state == NULL])
    only looks for the configuration file: it changes nothing in the state
    of the lock screen whatever the arguments are, and when it returns 0
    the path it hands back is the argument of the last [--config], if
    any. *)
Theorem first_pass_finds_config (lib : library) (argv : list long_option)
    (found : option string) (p : process) :
  state (final (parse_options lib argv false (Some found) p)) = state p /\
  (forall r p',
     parse_options lib argv false (Some found) p = Returned r p' ->
     fst r = 0 ->
     snd r = Some (last_config argv found)).
Proof.
  split; [apply first_pass_state|]. intros r p'. apply first_pass_config.
Qed.

(** X17. [--help] and [--color-background] are options of the table of
    [parse_options] that its [switch] has no [case] for: like an option
    that [getopt_long] does not know, each of them makes [main] print the
    usage text and return 1 before the password buffer is created (unless
    [--version] comes first and ends the process with status 0). *)
Theorem help_is_refused (w : world) (c : long_option) :
  In c (argv w) ->
  refused c = true ->
  exists p,
    (run w = Returned 1 p /\ In PrintUsage (trace p) \/
     run w = Exited 0 p /\ In PrintVersion (trace p)) /\
    forall size, ~ In (PasswordBufferCreate size) (trace p).
Proof.
  intros Hin Hc.
  unfold run, main, set_arg.
  rewrite !bind_emit, !bind_modify.
  match goal with
  | |- context [bind (parse_options ?l ?a false ?c) _ ?q] => set (p1 := q)
  end.
  assert (S1 : step early_call process_start p1).
  { unfold step; simpl. split; [exists [SwaylockLogInit; InitializePwBackend]; auto|].
    unfold flags_step, counter_in_range; simpl. repeat split; auto; lia. }
  clearbody p1. rewrite bind_unfold.
  pose proof (@first_pass_refused (lib w) (argv w) (Some None) p1
                (ex_intro _ c (conj Hin Hc))) as C1.
  pose proof (respects_parse_options (lib w) (argv w) false (Some None) p1) as R1.
  destruct (parse_options (lib w) (argv w) false (Some None) p1)
    as [r p2|status p2|sig p2|p2]; simpl in R1; [| |contradiction..].
  - destruct C1 as [E1 U1]. rewrite E1. simpl.
    exists p2. split; [left; auto|].
    intros size. apply early_trace_no_buffer.
    eapply step_trans; [exact S1|].
    eapply step_weaken; [apply parse_call_early_call|exact R1].
  - destruct C1 as [-> V1].
    exists p2. split; [right; auto|].
    intros size. apply early_trace_no_buffer.
    eapply step_trans; [exact S1|].
    eapply step_weaken; [apply parse_call_early_call|exact R1].
Qed.


(* ===================================================================== *)
(** ** Redraw requests *)
(* ===================================================================== *)

Lemma damage_surface_again (surface : swaylock_surface) :
  damage_surface (fst (damage_surface surface)) =
  (fst (damage_surface surface), []).
Proof.
  unfold damage_surface.
  destruct ((width surface =? 0) || (height surface =? 0)) eqn:E; simpl.
  - now rewrite E.
  - destruct (frame_pending surface) eqn:F; simpl; rewrite E; simpl.
    + rewrite F. destruct surface; reflexivity.
    + reflexivity.
Qed.

Lemma damage_surfaces_again (surfaces : list swaylock_surface) :
  damage_surfaces (fst (damage_surfaces surfaces)) =
  (fst (damage_surfaces surfaces), []).
Proof.
  induction surfaces as [|s l IH]; simpl; [reflexivity|].
  pose proof (damage_surface_again s) as Hs.
  destruct (damage_surface s) as [s' calls].
  destruct (damage_surfaces l) as [l' calls']. simpl in *.
  rewrite Hs, IH. reflexivity.
Qed.

(** X19. Redraw requests are coalesced: a surface that is not configured
    yet is left alone; damaging the surfaces again before a frame callback
    has fired asks nothing more of the compositor and changes nothing
    (one frame callback per surface is outstanding at most). *)
Theorem damage_is_coalesced :
  (forall surface,
     width surface = 0 \/ height surface = 0 ->
     damage_surface surface = (surface, [])) /\
  (forall surfaces,
     damage_surfaces (fst (damage_surfaces surfaces)) =
     (fst (damage_surfaces surfaces), [])) /\
  (forall p,
     exists p',
       damage_state p = Returned tt p' /\
       damage_state p' = Returned tt p').
Proof.
  split; [|split].
  - intros surface H. unfold damage_surface.
    replace ((width surface =? 0) || (height surface =? 0)) with true;
      [reflexivity|].
    symmetry. apply orb_true_iff.
    destruct H as [H|H]; [left|right]; now apply Z.eqb_eq.
  - apply damage_surfaces_again.
  - intros p. rewrite damage_state_eq. eexists. split; [reflexivity|].
    rewrite damage_state_eq. simpl.
    rewrite damage_surfaces_again. simpl. rewrite app_nil_r.
    reflexivity.
Qed.

(** X20. A damaged surface is rendered once, at its next frame callback:
    for a configured surface without a callback outstanding, the damage
    requests a frame callback and commits; the callback renders the frame
    and requests the next callback; that one finds the surface clean,
    renders nothing and requests no further callback. *)
Theorem frame_done_renders_damage (st : swaylock_state)
    (surface : swaylock_surface) :
  configured surface ->
  frame_pending surface = false ->
  let damaged := damage_surface surface in
  let first := surface_frame_handle_done st (fst damaged) in
  let second := surface_frame_handle_done st (fst first) in
  snd damaged = [WlSurfaceFrame (output_global_name surface);
                 WlSurfaceCommit (output_global_name surface)] /\
  snd first = [WlSurfaceFrame (output_global_name surface);
               RenderFrame (output_global_name surface)] /\
  snd second = [] /\
  fst second = set_dirty false surface.
Proof.
  intros (Hw & Hh) Hp. cbv zeta.
  unfold damage_surface, surface_frame_handle_done.
  apply Z.eqb_neq in Hw, Hh. rewrite Hw, Hh. simpl. rewrite Hp. simpl.
  repeat split. destruct surface; simpl in *. now subst.
Qed.

(* ===================================================================== *)
(** ** Outputs that come and go *)
(* ===================================================================== *)

Lemma remove_surface_keeps (name : Z) (surfaces : list swaylock_surface)
    (surface : swaylock_surface) :
  In surface surfaces -> output_global_name surface <> name ->
  In surface (fst (remove_surface name surfaces)).
Proof.
  intros Hin Hn. induction surfaces as [|s l IH]; simpl in *; [tauto|].
  destruct (Z.eqb_spec (output_global_name s) name) as [E|E].
  - destruct Hin as [->|Hin]; [contradiction|exact Hin].
  - destruct (remove_surface name l) as [l' calls]. simpl in *.
    destruct Hin as [->|Hin]; auto.
Qed.

Lemma remove_surface_absent (name : Z) (surfaces : list swaylock_surface) :
  (forall s, In s surfaces -> output_global_name s <> name) ->
  remove_surface name surfaces = (surfaces, []).
Proof.
  induction surfaces as [|s l IH]; simpl; intros H; [reflexivity|].
  destruct (Z.eqb_spec (output_global_name s) name) as [E|E].
  - exfalso. apply (H s); auto.
  - rewrite IH by auto. reflexivity.
Qed.

(** X21. Outputs come and go without trace: the removal of a global that is
    no output of the list does nothing; the removal of an output destroys
    (at most) one surface and keeps the surfaces of the other outputs; an
    output that is announced and then removed leaves the list of surfaces
    as it was, its surface destroyed. *)
Theorem output_removed (name : Z) (p : process) :
  (exists p',
     handle_global_remove name p = Returned tt p' /\
     (forall s,
        In s (surfaces (state p)) -> output_global_name s <> name ->
        In s (surfaces (state p'))) /\
     ((forall s, In s (surfaces (state p)) -> output_global_name s <> name) ->
      surfaces (state p') = surfaces (state p) /\ trace p' = trace p)) /\
  (exists p1 p2,
     handle_global name wl_output_interface p = Returned tt p1 /\
     handle_global_remove name p1 = Returned tt p2 /\
     surfaces (state p2) = surfaces (state p) /\
     trace p2 = trace p ++ [DestroySurface name]).
Proof.
  split.
  - rewrite handle_global_remove_eq. eexists. split; [reflexivity|].
    simpl. split.
    + intros s. apply remove_surface_keeps.
    + intros H. rewrite (@remove_surface_absent name _ H). simpl.
      split; [reflexivity|apply app_nil_r].
  - eexists _, _. split; [reflexivity|].
    rewrite handle_global_remove_eq. split; [reflexivity|].
    simpl. rewrite Z.eqb_refl. simpl. split; reflexivity.
Qed.

(* ===================================================================== *)
(** ** What a frame shows *)
(* ===================================================================== *)

Lemma render_frame_draw_indicator (strftime : string -> string)
    (st : swaylock_state) (surface : swaylock_surface) (buffer : pool_buffer) :
  draw_indicator st = false ->
  forall line s,
    ~ In (cairo_show_text_at line s)
         (render_frame strftime st surface (Some buffer)).
Proof.
  intros Hd line s. unfold render_frame.
  destruct (if clock (args st) then timetext strftime st else (None, None))
    as [text_l1 text_l2].
  unfold draw_indicator in Hd. rewrite Hd.
  simpl. intuition discriminate.
Qed.

(** X22. The clock is drawn exactly when it is asked for: a frame shows a
    line of text if and only if the indicator is drawn, the clock option
    is on and the format of that line (time for the first line, date for
    the second) is not empty; the text is then what [strftime] makes of
    that format. *)
Theorem render_frame_text (strftime : string -> string)
    (st : swaylock_state) (surface : swaylock_surface) (buffer : pool_buffer)
    (line : text_line) (s : string) :
  In (cairo_show_text_at line s)
     (render_frame strftime st surface (Some buffer)) <->
  draw_indicator st = true /\
  clock (args st) = true /\
  line_format st line <> EmptyString /\
  s = strftime (line_format st line).
Proof.
  destruct (draw_indicator st) eqn:Hd.
  2:{ split; [|intros [H _]; discriminate].
      intros H. exfalso. revert H. now apply render_frame_draw_indicator. }
  unfold render_frame, timetext.
  unfold draw_indicator in Hd. rewrite Hd.
  destruct (clock (args st)).
  2:{ cbv iota. rewrite !in_app_iff. simpl.
      destruct (input_state_eqb (input_state st) INPUT_STATE_LETTER
                || input_state_eqb (input_state st) INPUT_STATE_BACKSPACE);
        simpl; intuition discriminate. }
  destruct line; simpl line_format;
    destruct (timestr (args st)) as [|c1 t1];
    destruct (datestr (args st)) as [|c2 t2];
    cbv iota; rewrite !in_app_iff; simpl;
    destruct (input_state_eqb (input_state st) INPUT_STATE_LETTER
              || input_state_eqb (input_state st) INPUT_STATE_BACKSPACE);
    simpl; intuition (try discriminate; try congruence).
Qed.

Lemma to_int_add_l (a b : Z) : to_int (to_int a + b) = to_int (a + b).
Proof.
  unfold to_int.
  replace ((a + 2 ^ 31) mod 2 ^ 32 - 2 ^ 31 + b + 2 ^ 31)
    with ((a + 2 ^ 31) mod 2 ^ 32 + b) by ring.
  rewrite Zplus_mod_idemp_l. f_equal. f_equal. ring.
Qed.

(** The buffer of the indicator is one scale unit wider than the ring,
    when the products and sums fit an [int]: the diameter is a multiple of
    the scale already, so the rounding of render.c:139-141 adds a whole
    unit. *)
Lemma indicator_buffer_width (st : swaylock_state) (surface : swaylock_surface) :
  0 < scale surface ->
  0 <= radius (args st) -> 0 <= thickness (args st) ->
  scale surface * (2 * (radius (args st) + thickness (args st)) + 2) <= INT_MAX ->
  indicator_buffer_size st surface =
  scale surface * (2 * (radius (args st) + thickness (args st)) + 1).
Proof.
  intros Hs Hr Ht Hb.
  unfold indicator_buffer_size, buffer_diameter, arc_radius, arc_thickness,
    int_add, int_sub, int_mul, int_rem.
  set (r := radius (args st)) in *. set (t := thickness (args st)) in *.
  set (s := scale surface) in *.
  assert (Hmin : INT_MIN < 0) by reflexivity.
  rewrite (@to_int_small (r * s)) by (unfold INT_MIN, INT_MAX in *; nia).
  rewrite (@to_int_small (t * s)) by (unfold INT_MIN, INT_MAX in *; nia).
  rewrite (@to_int_small (r * s + t * s)) by (unfold INT_MIN, INT_MAX in *; nia).
  rewrite (@to_int_small ((r * s + t * s) * 2)) by (unfold INT_MIN, INT_MAX in *; nia).
  replace ((r * s + t * s) * 2) with (((r + t) * 2) * s) by ring.
  rewrite Z.rem_mul by lia. rewrite Z.sub_0_r.
  rewrite (@to_int_small s) by (unfold INT_MIN, INT_MAX in *; nia).
  rewrite to_int_small by (unfold INT_MIN, INT_MAX in *; nia). ring.
Qed.

Lemma indicator_half_width (k s : Z) :
  0 < s -> 0 <= k -> Z.quot (s * (2 * k + 1)) (2 * s) = k.
Proof.
  intros Hs Hk. rewrite Z.quot_div_nonneg by (unfold INT_MIN, INT_MAX in *; nia).
  symmetry. apply Z.div_unique with (r := s); nia.
Qed.

Lemma quot_2_range (s : Z) : 0 < s -> 0 <= Z.quot 2 s <= 2.
Proof.
  intros Hs. rewrite Z.quot_div_nonneg by lia.
  split; [apply Z.div_pos; lia|].
  apply Z.div_le_upper_bound; lia.
Qed.

(** X23. Where the indicator is put: for a scale above 0, a radius and a
    thickness that are not negative, and a buffer size that fits an [int]
    (the scale times twice the ring plus 2, which bounds every product and
    sum of render.c:133-152), [render_frame] positions the subsurface so
    that the ring's box starts [radius + thickness] left of and above the
    chosen point, which is the position of the options where it is not
    negative and the middle of the surface otherwise; horizontally
    [2 / scale] is added (2, 1 or 0 pixels). The two coordinates are the
    [int]s these sums are stored in. *)
Theorem render_frame_position (strftime : string -> string)
    (st : swaylock_state) (surface : swaylock_surface) (buffer : pool_buffer) :
  0 < scale surface ->
  0 <= radius (args st) ->
  0 <= thickness (args st) ->
  scale surface * (2 * (radius (args st) + thickness (args st)) + 2) <= INT_MAX ->
  In (wl_subsurface_set_position
        (to_int
           ((if indicator_x_position (args st) >=? 0
             then indicator_x_position (args st)
             else Z.quot (width surface) 2)
            - (radius (args st) + thickness (args st))
            + Z.quot 2 (scale surface)))
        (to_int
           ((if indicator_y_position (args st) >=? 0
             then indicator_y_position (args st)
             else Z.quot (height surface) 2)
            - (radius (args st) + thickness (args st)))))
     (render_frame strftime st surface (Some buffer)).
Proof.
  intros Hs Hr Ht Hb.
  assert (Hx : subsurf_xpos st surface =
               to_int
                 ((if indicator_x_position (args st) >=? 0
                   then indicator_x_position (args st)
                   else Z.quot (width surface) 2)
                  - (radius (args st) + thickness (args st))
                  + Z.quot 2 (scale surface))).
  { unfold subsurf_xpos. rewrite (@indicator_buffer_width st surface Hs Hr Ht Hb).
    unfold int_add, int_sub, int_div, int_mul.
    assert (Hmin : INT_MIN < 0) by reflexivity.
    pose proof (quot_2_range Hs) as Hq.
    rewrite (@to_int_small (2 * scale surface)) by (unfold INT_MIN, INT_MAX in *; nia).
    rewrite indicator_half_width by lia.
    rewrite (@to_int_small (radius (args st) + thickness (args st))) by (unfold INT_MIN, INT_MAX in *; nia).
    rewrite (@to_int_small (Z.quot 2 (scale surface))) by (unfold INT_MAX; lia).
    destruct (indicator_x_position (args st) >=? 0); apply to_int_add_l. }
  assert (Hy : subsurf_ypos st surface =
               to_int
                 ((if indicator_y_position (args st) >=? 0
                   then indicator_y_position (args st)
                   else Z.quot (height surface) 2)
                  - (radius (args st) + thickness (args st)))).
  { unfold subsurf_ypos, int_sub.
    destruct (indicator_y_position (args st) >=? 0); reflexivity. }
  rewrite <- Hx, <- Hy. unfold render_frame.
  destruct (if clock (args st) then timetext strftime st else (None, None))
    as [text_l1 text_l2].
  cbv zeta.
  apply in_or_app. right. apply in_or_app. right. left. reflexivity.
Qed.

(* ===================================================================== *)
(** ** The background *)
(* ===================================================================== *)

Lemma render_frame_background_same (st : swaylock_state)
    (surface : swaylock_surface) (created : option pool_buffer) :
  background_buffer_width surface <> 0 ->
  background_buffer_height surface <> 0 ->
  background_buffer_width surface = last_buffer_width surface ->
  background_buffer_height surface = last_buffer_height surface ->
  render_frame_background st surface created =
  (surface,
   [Background.wl_surface_set_buffer_scale (scale surface);
    Background.wl_surface_commit]).
Proof.
  intros Hw Hh Ew Eh. unfold render_frame_background.
  apply Z.eqb_neq in Hw, Hh. rewrite Hw, Hh.
  rewrite <- Ew, <- Eh, !Z.eqb_refl. reflexivity.
Qed.

Lemma render_frame_background_new (st : swaylock_state)
    (surface : swaylock_surface) (buffer : pool_buffer) :
  background_buffer_width surface <> 0 ->
  background_buffer_height surface <> 0 ->
  background_buffer_width surface <> last_buffer_width surface \/
  background_buffer_height surface <> last_buffer_height surface ->
  render_frame_background st surface (Some buffer) =
  (set_last_buffer_height (background_buffer_height surface)
     (set_last_buffer_width (background_buffer_width surface) surface),
   [Background.wl_surface_set_buffer_scale (scale surface);
    Background.cairo_set_antialias_best;
    Background.cairo_save;
    Background.cairo_set_operator_source;
    Background.cairo_set_source_u32 (background (colors (args st)));
    Background.cairo_paint]
   ++ match image surface with
      | Some img =>
          if negb (background_mode_eqb (mode (args st))
                     BACKGROUND_MODE_SOLID_COLOR)
          then [Background.cairo_set_operator_over;
                Background.render_background_image img (mode (args st))
                  (background_buffer_width surface)
                  (background_buffer_height surface)]
          else []
      | None => []
      end
   ++ [Background.cairo_restore;
       Background.cairo_identity_matrix;
       Background.wl_surface_attach buffer;
       Background.wl_surface_damage_buffer;
       Background.wl_surface_commit;
       Background.destroy_buffer buffer]).
Proof.
  intros Hw Hh Hsize. unfold render_frame_background.
  apply Z.eqb_neq in Hw, Hh. rewrite Hw, Hh.
  replace (negb (background_buffer_width surface =? last_buffer_width surface)
           || negb (background_buffer_height surface =? last_buffer_height surface))
    with true; [reflexivity|].
  symmetry. apply orb_true_iff.
  destruct Hsize as [H|H]; [left|right];
    apply negb_true_iff; now apply Z.eqb_neq.
Qed.

Lemma size_same_or_new (surface : swaylock_surface) :
  (background_buffer_width surface = last_buffer_width surface /\
   background_buffer_height surface = last_buffer_height surface) \/
  (background_buffer_width surface <> last_buffer_width surface \/
   background_buffer_height surface <> last_buffer_height surface).
Proof. lia. Qed.

(** X24. The background is painted once per size, the size being the
    [int]s that [render_frame_background] computes from the width, the
    height and the scale: nothing is done for a surface one of whose sizes
    is 0 (not configured); when the size is the one of the last buffer the
    surface is only committed; a new size is painted (with the image on
    top unless there is none or the mode is [solid_color]) and remembered,
    so that a second call only commits; and when the buffer cannot be
    created, nothing is committed or remembered. *)
Theorem render_frame_background_once (st : swaylock_state)
    (surface : swaylock_surface) :
  (background_buffer_width surface = 0 \/ background_buffer_height surface = 0 ->
   forall created, render_frame_background st surface created = (surface, [])) /\
  (background_buffer_width surface <> 0 ->
   background_buffer_height surface <> 0 ->
   (forall buffer,
      let painted := render_frame_background st surface (Some buffer) in
      (paints (snd painted) = true <->
       background_buffer_width surface <> last_buffer_width surface \/
       background_buffer_height surface <> last_buffer_height surface) /\
      (forall created,
         render_frame_background st (fst painted) created =
         (fst painted,
          [Background.wl_surface_set_buffer_scale (scale surface);
           Background.wl_surface_commit])) /\
      (forall img w h,
         In (Background.render_background_image img (mode (args st)) w h)
            (snd painted) ->
         image surface = Some img /\
         mode (args st) <> BACKGROUND_MODE_SOLID_COLOR)) /\
   (background_buffer_width surface <> last_buffer_width surface \/
    background_buffer_height surface <> last_buffer_height surface ->
    render_frame_background st surface None =
    (surface,
     [Background.wl_surface_set_buffer_scale (scale surface);
      Background.log_failed_to_create_buffer]))).
Proof.
  split.
  - intros H created. unfold render_frame_background.
    replace ((background_buffer_width surface =? 0)
             || (background_buffer_height surface =? 0)) with true; [reflexivity|].
    symmetry. apply orb_true_iff.
    destruct H as [H|H]; [left|right]; now apply Z.eqb_eq.
  - intros Hw Hh. split.
    + intros buffer painted. subst painted.
      destruct (size_same_or_new surface) as [[Ew Eh]|Hsize].
      * rewrite (@render_frame_background_same st surface (Some buffer) Hw Hh Ew Eh).
        cbn [fst snd]. split; [|split].
        -- split; [discriminate|]. intros [H|H]; contradiction.
        -- intros created. now apply render_frame_background_same.
        -- intros img w h Hin. simpl in Hin. intuition discriminate.
      * rewrite (@render_frame_background_new st surface buffer Hw Hh Hsize).
        cbn [fst snd]. split; [|split].
        -- split; [intros _; exact Hsize|intros _; reflexivity].
        -- intros created.
           set (s2 := set_last_buffer_height _ (set_last_buffer_width _ surface)).
           change (scale surface) with (scale s2).
           apply render_frame_background_same; subst s2; simpl;
             assumption || reflexivity.
        -- intros img w h Hin. simpl in Hin.
           destruct (image surface) as [img'|]; [|simpl in Hin; intuition discriminate].
           destruct (background_mode_eqb (mode (args st))
                       BACKGROUND_MODE_SOLID_COLOR) eqn:Em;
             simpl in Hin; [intuition discriminate|].
           split.
           ++ repeat (destruct Hin as [Hin|Hin]; [try discriminate|]);
                try contradiction.
              injection Hin as -> _ _. reflexivity.
           ++ intros Hm. rewrite Hm in Em. discriminate.
    + intros Hsize. unfold render_frame_background.
      apply Z.eqb_neq in Hw, Hh. rewrite Hw, Hh.
      replace (negb (background_buffer_width surface =? last_buffer_width surface)
               || negb (background_buffer_height surface =? last_buffer_height surface))
        with true; [reflexivity|].
      symmetry. apply orb_true_iff.
      destruct Hsize as [H|H]; [left|right];
        apply negb_true_iff; now apply Z.eqb_neq.
Qed.

(* ===================================================================== *)
(** ** The search for the configuration file *)
(* ===================================================================== *)

Lemma get_config_path_loop_found (fs : filesystem) (paths : list string)
    (path : string) :
  get_config_path_loop fs paths = Some path ->
  access_r_ok fs path = true /\
  exists pattern, In pattern paths /\ wordexp_first fs pattern = Some path.
Proof.
  induction paths as [|pattern paths IH]; simpl; [discriminate|].
  destruct (wordexp_first fs pattern) as [word|] eqn:E.
  - destruct (access_r_ok fs word) eqn:A.
    + intros [= <-]. split; [exact A|]. exists pattern. auto.
    + intros H. destruct (IH H) as (Hr & q & Hq & Eq). split; [exact Hr|].
      exists q. auto.
  - intros H. destruct (IH H) as (Hr & q & Hq & Eq). split; [exact Hr|].
    exists q. auto.
Qed.

Lemma get_config_path_loop_none (fs : filesystem) (paths : list string) :
  get_config_path_loop fs paths = None <->
  forall pattern path,
    In pattern paths -> wordexp_first fs pattern = Some path ->
    access_r_ok fs path = false.
Proof.
  induction paths as [|pattern paths IH]; simpl.
  - split; [intros _ q path []|reflexivity].
  - destruct (wordexp_first fs pattern) as [word|] eqn:E.
    + destruct (access_r_ok fs word) eqn:A.
      * split; [discriminate|]. intros H.
        specialize (H pattern word (or_introl eq_refl) E). congruence.
      * rewrite IH. split.
        -- intros H q path [<-|Hq] Eq; [congruence|eauto].
        -- intros H q path Hq Eq. eauto.
    + rewrite IH. split.
      * intros H q path [<-|Hq] Eq; [congruence|eauto].
      * intros H q path Hq Eq. eauto.
Qed.

(** X25. The configuration file is looked for in a fixed order: the file
    under [$HOME/.swaylock] wins whenever it is readable; what
    [get_config_path] returns is always the expansion of one of its three
    patterns and is readable; it returns [NULL] exactly when no pattern
    expands to a readable file; and an empty [XDG_CONFIG_HOME] is treated
    like one that is not set. *)
Theorem get_config_path_precedence (fs : filesystem) :
  (forall path,
     wordexp_first fs "$HOME/.swaylock/config" = Some path ->
     access_r_ok fs path = true ->
     get_config_path fs = Some path) /\
  (forall path,
     get_config_path fs = Some path ->
     access_r_ok fs path = true /\
     exists pattern,
       In pattern (config_paths fs) /\ wordexp_first fs pattern = Some path) /\
  (get_config_path fs = None <->
   forall pattern path,
     In pattern (config_paths fs) -> wordexp_first fs pattern = Some path ->
     access_r_ok fs path = false) /\
  (xdg_config_home fs = Some EmptyString ->
   get_config_path fs =
   get_config_path
     (mk_filesystem None (wordexp_first fs) (access_r_ok fs) (sysconfdir fs))).
Proof.
  split; [|split; [|split]].
  - intros path E A. unfold get_config_path, config_paths. simpl.
    now rewrite E, A.
  - intros path. apply get_config_path_loop_found.
  - apply get_config_path_loop_none.
  - intros E. unfold get_config_path, config_paths. simpl. rewrite E.
    reflexivity.
Qed.

(* ===================================================================== *)
(** ** The argument of [--image] *)
(* ===================================================================== *)

Lemma split_colon_name (name path : string) :
  ~ In ":"%char (list_ascii_of_string name) ->
  split_colon (name ++ String ":" path) = Some (name, path).
Proof.
  induction name as [|c name IH]; simpl; intros Hn; [reflexivity|].
  destruct (Z.eqb_spec (uchar c) 58) as [E|E].
  - exfalso. apply Hn. left. apply uchar_inj. exact E.
  - rewrite IH by tauto. reflexivity.
Qed.

Lemma split_colon_none (arg : string) :
  ~ In ":"%char (list_ascii_of_string arg) -> split_colon arg = None.
Proof.
  induction arg as [|c arg IH]; simpl; intros Hn; [reflexivity|].
  destruct (Z.eqb_spec (uchar c) 58) as [E|E].
  - exfalso. apply Hn. left. apply uchar_inj. exact E.
  - rewrite IH by tauto. reflexivity.
Qed.

(** X26. How the argument of [--image] is read: the text before the first
    colon is the output, the text after it the path, colons and all; an
    argument that starts with a colon or holds none names no output (the
    default image). So every output name without a colon can be given, and
    a path with a colon only after a colon. *)
Theorem image_argument_reads (name path : string) :
  ~ In ":"%char (list_ascii_of_string name) ->
  (name <> EmptyString ->
   image_argument (name ++ String ":" path) = (Some name, path)) /\
  image_argument (String ":" path) = (None, path) /\
  image_argument name = (None, name).
Proof.
  intros Hn. split; [|split].
  - intros Hne. unfold image_argument. rewrite split_colon_name by exact Hn.
    destruct name; [congruence|reflexivity].
  - reflexivity.
  - unfold image_argument. now rewrite split_colon_none.
Qed.

(* ===================================================================== *)
(** ** Options are read from left to right *)
(* ===================================================================== *)

Lemma bind_ext {A B} (m : M A) (k k' : A -> M B) (p : process) :
  (forall a q, k a q = k' a q) -> bind m k p = bind m k' p.
Proof. intros H. unfold bind. destruct (m p); auto. Qed.

Lemma parse_options_app (lib : library) (argv argv' : list long_option)
    (with_state : bool) :
  forall config_path p,
    parse_options lib (argv ++ argv') with_state config_path p =
    (r <- parse_options lib argv with_state config_path ;;
     if fst r =? 0 then parse_options lib argv' with_state (snd r)
     else ret r) p.
Proof.
  induction argv as [|c argv IH]; intros config_path p; [reflexivity|].
  destruct c; cbn [app parse_options];
    unfold when, set_color, set_arg, parse_color;
    destruct with_state;
    repeat match goal with
           | |- context [if negb (?a =? 6) && negb (?b =? 8) then _ else _] =>
               destruct (negb (a =? 6) && negb (b =? 8))
           | |- context [background_mode_eqb ?a ?b] =>
               destruct (background_mode_eqb a b)
           end;
    rewrite ?bind_assoc;
    rewrite ?bind_log, ?bind_emit, ?bind_modify, ?bind_ret;
    rewrite ?bind_assoc;
    rewrite ?bind_log, ?bind_emit, ?bind_modify, ?bind_ret;
    rewrite ?bind_assoc;
    rewrite ?bind_log, ?bind_emit, ?bind_modify, ?bind_ret;
    try apply IH; try (apply bind_ext; intros; apply IH); reflexivity.
Qed.

(** X27. [parse_options] reads the options from left to right: parsing a
    command line in two parts is parsing the first part and, when that
    returns 0, going on with the second part from the state and the
    configuration path the first part left; after a part that is refused,
    nothing of what follows is looked at. *)
Theorem parse_options_left_to_right (lib : library)
    (argv argv' : list long_option) (with_state : bool)
    (config_path : option (option string)) (p : process) :
  parse_options lib (argv ++ argv') with_state config_path p =
    (r <- parse_options lib argv with_state config_path ;;
     if fst r =? 0 then parse_options lib argv' with_state (snd r)
     else ret r) p /\
  (forall r p',
     parse_options lib argv with_state config_path p = Returned r p' ->
     fst r <> 0 ->
     parse_options lib (argv ++ argv') with_state config_path p = Returned r p') /\
  (forall status p',
     parse_options lib argv with_state config_path p = Exited status p' ->
     parse_options lib (argv ++ argv') with_state config_path p =
     Exited status p').
Proof.
  split; [apply parse_options_app|]. split.
  - intros r p' E Hr. rewrite parse_options_app, bind_unfold, E.
    apply Z.eqb_neq in Hr. now rewrite Hr.
  - intros status p' E. now rewrite parse_options_app, bind_unfold, E.
Qed.

(* ===================================================================== *)
(** ** An output that is plugged in while the screen is locked *)
(* ===================================================================== *)

(** X28. An output that appears while the main loop runs gets its surface
    when its [done] event arrives, once and for all: the surface is
    requested with the image selected for the name the output announced,
    and a second [done] does nothing. With an image loaded for that name
    ([path] being what the path of the argument expands to), that image is
    the one the surface shows. *)
Theorem hotplugged_output_image (st : swaylock_state)
    (surface : swaylock_surface) (name : string) :
  run_display st = true ->
  created surface = false ->
  let named := fst (handle_wl_output_name name st surface) in
  let done := handle_wl_output_done st named in
  done =
    (set_created true
       (set_image (select_image (images st) (Some name)) named),
     [GetLockSurface (output_global_name surface)]) /\
  handle_wl_output_done st (fst done) = (fst done, []) /\
  (forall lib arg path cs p,
     state p = st ->
     fst (image_argument arg) = Some name ->
     expand_path lib (snd (image_argument arg)) = Done path ->
     load_background_image lib path = Some cs ->
     image (fst (handle_wl_output_done
                   (state (final (load_image lib arg p))) named)) = Some cs).
Proof.
  intros Hr Hc. cbv zeta.
  unfold handle_wl_output_name, handle_wl_output_done, create_surface.
  cbn [fst snd created set_output_name set_created set_image output_name
       output_global_name].
  rewrite Hr, Hc. cbn [negb andb fst snd created set_created set_image].
  split; [reflexivity|]. split; [reflexivity|].
  intros lib arg path cs p Hst Hname Hpath Hload.
  destruct (load_image_eq lib arg p Hpath) as (log & E & _).
  rewrite E. cbv zeta. rewrite Hload, Hname, Hst. simpl. rewrite Hr.
  cbn [negb andb fst snd image set_created set_image].
  unfold select_image. simpl. rewrite strcmp_refl. reflexivity.
Qed.

(* ===================================================================== *)
(** ** Opaque surfaces *)
(* ===================================================================== *)

(** X29. A surface without an image is always opaque: since no option
    changes the background color, the test of its alpha byte in
    [surface_is_opaque] succeeds in every run of [main], and such a
    surface gets an opaque region exactly when the scaling mode is neither
    [center] nor [fit]. *)
Theorem surface_without_image_is_opaque (w : world) :
  surface_is_opaque (state (final (run w))) None = true /\
  (sets_opaque_region (state (final (run w))) None = true <->
   mode (args (state (final (run w)))) <> BACKGROUND_MODE_CENTER /\
   mode (args (state (final (run w)))) <> BACKGROUND_MODE_FIT).
Proof.
  assert (H : surface_is_opaque (state (final (run w))) None = true).
  { unfold surface_is_opaque. destruct (run_kept w) as [Hb _].
    rewrite Hb. reflexivity. }
  split; [exact H|].
  unfold sets_opaque_region. rewrite H.
  destruct (mode (args (state (final (run w))))); simpl;
    split; try discriminate; try (intros _; split; discriminate);
    try reflexivity; intros [H1 H2]; congruence.
Qed.

(* ===================================================================== *)
(** ** One lock surface for each output *)
(* ===================================================================== *)

Lemma create_surfaces_spec (st : swaylock_state)
    (surfaces : list swaylock_surface) :
  snd (create_surfaces st surfaces) =
    map (fun s => GetLockSurface (output_global_name s)) surfaces /\
  Forall (fun s => created s = true) (fst (create_surfaces st surfaces)) /\
  map output_global_name (fst (create_surfaces st surfaces)) =
    map output_global_name surfaces.
Proof.
  induction surfaces as [|s l (IH1 & IH2 & IH3)]; simpl.
  - repeat split. constructor.
  - destruct (create_surfaces st l) as [l' calls]. simpl in *.
    split; [now rewrite IH1|]. split; [constructor; auto|now rewrite IH3].
Qed.

Lemma on_surface_created (output : Z) (st : swaylock_state)
    (surfaces : list swaylock_surface) :
  Forall (fun s => created s = true) surfaces ->
  on_surface output (handle_wl_output_done st) surfaces = (surfaces, []).
Proof.
  induction surfaces as [|s l IH]; simpl; intros H; [reflexivity|].
  inversion H as [|? ? Hs Hl]; subst.
  destruct (output_global_name s =? output).
  - unfold handle_wl_output_done. rewrite Hs. reflexivity.
  - rewrite IH by exact Hl. reflexivity.
Qed.

(** X30. [main] requests one lock surface for each output it knows, in
    the order of the list, and marks each surface created; from then on
    the [done] event of such an output requests nothing, so that no output
    gets a second lock surface. *)
Theorem one_lock_surface_per_output (p : process) :
  exists p',
    create_all_surfaces p = Returned tt p' /\
    trace p' =
      trace p ++
      map (fun s => GetLockSurface (output_global_name s)) (surfaces (state p)) /\
    Forall (fun s => created s = true) (surfaces (state p')) /\
    map output_global_name (surfaces (state p')) =
      map output_global_name (surfaces (state p)) /\
    forall output,
      exists p'',
        handle_event (EV_output_done output) p' = Returned tt p'' /\
        trace p'' = trace p' /\
        surfaces (state p'') = surfaces (state p').
Proof.
  rewrite create_all_surfaces_eq. eexists. split; [reflexivity|].
  destruct (create_surfaces_spec (state p) (surfaces (state p)))
    as (H1 & H2 & H3).
  simpl. rewrite H1. split; [reflexivity|]. split; [exact H2|].
  split; [exact H3|].
  intros output.
  rewrite with_surface_eq
    by (intros s; unfold handle_wl_output_done;
        match goal with |- context [if ?b then _ else _] => destruct b end;
        reflexivity).
  eexists. split; [reflexivity|].
  simpl. rewrite on_surface_created by exact H2. simpl.
  split; [apply app_nil_r|reflexivity].
Qed.

(* ===================================================================== *)
(** ** The properties at concrete inputs *)
(* ===================================================================== *)

(** A color of six characters that are no digits: opaque black. *)
Lemma parse_color_six_characters_witness :
  exists c,
    parse_color "#zzzzzz" process_start = Returned c process_start /\
    c mod 256 = 255 /\
    c / 256 = to_uint32 (strtoul16 (skip_hash "#zzzzzz")) mod 2 ^ 24.
Proof.
  apply (parse_color_six_characters "#zzzzzz" process_start). reflexivity.
Defined.

Lemma parse_color_reads_hex_witness :
  parse_color (hex_string 8 0x10203040) process_start =
  Returned 0x10203040 process_start.
Proof.
  apply (proj1 (@parse_color_reads_hex 0x10203040 process_start
                  ltac:(split; [discriminate|reflexivity]))).
Defined.

Lemma load_image_then_select_witness :
  select_image
    (images (state (final (load_image library_loading "eDP-1:/tmp/a.png"
                             process_start))))
    (Some "eDP-1") = Some 7%positive.
Proof.
  pose proof (@load_image_then_select library_loading "eDP-1:/tmp/a.png"
                process_start "/tmp/a.png" 7%positive eq_refl eq_refl) as H.
  cbv zeta in H. destruct H as (_ & H & _).
  exact (proj1 (H "eDP-1" eq_refl)).
Defined.

(** An image that does not load takes the place of none: the image that
    was loaded for the output before is gone. *)
Lemma load_image_failure_drops_witness :
  images
    (state (final (load_image sample_library "eDP-1:/tmp/missing.png"
                     (final (load_image library_loading "eDP-1:/tmp/a.png"
                               process_start))))) = [].
Proof.
  pose proof (@load_image_failure_drops sample_library "eDP-1:/tmp/missing.png"
                (final (load_image library_loading "eDP-1:/tmp/a.png"
                          process_start))
                "/tmp/missing.png" eq_refl eq_refl) as H.
  cbv zeta in H. destruct H as (_ & H & _). exact H.
Defined.

Lemma join_args_in_bounds_witness :
  exists res,
    join_args ["/tmp/my"; "image.png"]
      (Z.of_nat (List.length ["/tmp/my"; "image.png"])) = Done res /\
    Z.of_nat (List.length res) = join_args_len ["/tmp/my"; "image.png"] /\
    Forall (fun byte => byte <> None) res /\
    (Forall no_nul ["/tmp/my"; "image.png"] ->
     c_string res = Some (String.concat " " ["/tmp/my"; "image.png"]) /\
     join_args_len ["/tmp/my"; "image.png"] =
     strlen (String.concat " " ["/tmp/my"; "image.png"]) + 1).
Proof.
  apply (@join_args_in_bounds ["/tmp/my"; "image.png"]);
    [discriminate|vm_compute; discriminate].
Defined.


Lemma loop_runs_only_when_locked_witness :
  locked (state (final (run (world_unlocked [])))) = true.
Proof.
  apply (@loop_runs_only_when_locked (world_unlocked []) LoopPoll);
    [|reflexivity].
  vm_compute. repeat (first [left; reflexivity|right]).
Defined.


Lemma lock_surface_after_lock_request_witness :
  In ExtSessionLockManagerLock
    [SwaylockLogInit; InitializePwBackend; PasswordBufferCreate 1024; Pipe;
     FcntlNonblock; WlDisplayConnect; WlDisplayRoundtrip;
     ExtSessionLockManagerLock; WlDisplayRoundtrip].
Proof.
  apply (@lock_surface_after_lock_request world_dispatch_fails _
           [WlDisplayDispatch;
            SwaylockLog LOG_ERROR "wl_display_dispatch() failed"] 5).
  vm_compute. reflexivity.
Defined.

Lemma help_is_refused_witness :
  exists p,
    (run (sample_world [LO_HELP] [] []) = Returned 1 p /\ In PrintUsage (trace p) \/
     run (sample_world [LO_HELP] [] []) = Exited 0 p /\ In PrintVersion (trace p)) /\
    forall size, ~ In (PasswordBufferCreate size) (trace p).
Proof.
  apply (@help_is_refused (sample_world [LO_HELP] [] []) LO_HELP);
    [left; reflexivity|reflexivity].
Defined.

Lemma frame_done_renders_damage_witness :
  snd (damage_surface surface_of_scale_1) = [WlSurfaceFrame 7; WlSurfaceCommit 7] /\
  snd (surface_frame_handle_done zero_state (fst (damage_surface surface_of_scale_1))) =
    [WlSurfaceFrame 7; RenderFrame 7] /\
  snd (surface_frame_handle_done zero_state
         (fst (surface_frame_handle_done zero_state
                 (fst (damage_surface surface_of_scale_1))))) = [] /\
  fst (surface_frame_handle_done zero_state
         (fst (surface_frame_handle_done zero_state
                 (fst (damage_surface surface_of_scale_1))))) =
  set_dirty false surface_of_scale_1.
Proof.
  apply (@frame_done_renders_damage zero_state surface_of_scale_1);
    [split; discriminate|reflexivity].
Defined.

Lemma render_frame_position_witness :
  In (wl_subsurface_set_position 902 480)
     (render_frame (fun fmt => fmt) state_after_wrong_password
        surface_of_scale_1 (Some 1%positive)).
Proof.
  exact (@render_frame_position (fun fmt => fmt) state_after_wrong_password
           surface_of_scale_1 1%positive eq_refl
           ltac:(discriminate) ltac:(discriminate) ltac:(discriminate)).
Defined.

Lemma image_argument_reads_witness :
  ("eDP-1" <> EmptyString ->
   image_argument "eDP-1:/tmp/a:b.png" = (Some "eDP-1", "/tmp/a:b.png")) /\
  image_argument ":/tmp/a:b.png" = (None, "/tmp/a:b.png") /\
  image_argument "eDP-1" = (None, "eDP-1").
Proof.
  apply (@image_argument_reads "eDP-1" "/tmp/a:b.png").
  simpl. intuition discriminate.
Defined.

Lemma hotplugged_output_image_witness :
  handle_wl_output_done (state process_validating)
    (fst (handle_wl_output_name "DP-3" (state process_validating) (calloc_surface 9)))
  = (set_created true
       (set_image (select_image (images (state process_validating)) (Some "DP-3"))
          (fst (handle_wl_output_name "DP-3" (state process_validating)
                  (calloc_surface 9)))),
     [GetLockSurface 9]).
Proof.
  pose proof (@hotplugged_output_image (state process_validating)
                (calloc_surface 9) "DP-3" eq_refl eq_refl) as H.
  cbv zeta in H. exact (proj1 H).
Defined.

(** A second call for a painted surface only commits. *)
Lemma render_frame_background_once_witness :
  render_frame_background zero_state surface_painted None =
  (surface_painted,
   [Background.wl_surface_set_buffer_scale 1; Background.wl_surface_commit]).
Proof.
  pose proof (proj2 (render_frame_background_once zero_state surface_of_scale_1))
    as H.
  specialize (H ltac:(vm_compute; discriminate) ltac:(vm_compute; discriminate)).
  destruct H as [H _]. specialize (H 1%positive). cbv zeta in H.
  destruct H as (_ & H & _). exact (H None).
Defined.

Lemma get_config_path_precedence_witness :
  access_r_ok sample_filesystem "/home/me/.config/swaylock/config" = true /\
  exists pattern,
    In pattern (config_paths sample_filesystem) /\
    wordexp_first sample_filesystem pattern =
    Some "/home/me/.config/swaylock/config".
Proof.
  apply (proj1 (proj2 (get_config_path_precedence sample_filesystem))).
  reflexivity.
Defined.
